(** * DataLoader (src/js/main.js, lines 3-75): cache and in-flight deduplication

    The class keeps two JavaScript [Map]s, [cache] and [loadingStates], and
    four asynchronous methods.  The embedding below is a state machine over a
    [World]: the two maps, the heap of promise objects created so far, the log
    of calls made to the platform's [fetch], and the console.

    JavaScript runs one job at a time and empties the microtask queue before
    the next event is handled.  The model therefore has one kind of
    environment step, [transport_settles]: the platform answers one
    outstanding [fetch], [fetchData] resumes, its promise settles, and every
    continuation that depends on it runs ([drain]) before anything else
    happens.  A promise's state in a [World] is the state it has when the
    microtask queue is empty.

    - A call is an event: it runs the synchronous part of the method (up to
      its first [await]) and returns the promise of the call.
    - [loadData] awaits the [fetchData] promise in the same synchronous
      stretch that creates it, so its continuation (lines 22-33) is the
      first reaction of that promise and runs before any promise that joined
      the fetch is settled.  [drain] runs reactions by age of the promise,
      which gives this order.
    - [fetchData] touches nothing of the loader between [fetch(url)] and its
      own settlement, so the answer of the platform is one step, carrying
      how [fetch(url)] ended and, for a response, [ok], [status] and how
      [response.json()] ended.
    - Keys are strings, [useCache] a boolean, fetched data a JSON value.

    On top of the loader the file models [loadAllData] and the start of the
    page's initialisation (lines 94-112 and 422-433), the arrow keys of the
    mobile menu (lines 631-646), and [throttle] and [debounce] (lines
    602-613 and 1206-1216). *)

From stdpp Require Import gmap strings list fin_maps pretty.

Set Warnings "-register-all".
Local Open Scope string_scope.
Local Open Scope list_scope.
Local Open Scope nat_scope.

(** ** Values *)

(** What [response.json()] produces, extended with [undefined] (what an
    [async] function without [return] resolves to).  [Promise.all] fulfils
    with a JavaScript array, [Arr]. *)
Inductive value :=
| Undefined
| Null
| Bool (b : bool)
| Num (n : Z)
| Str (s : string)
| Arr (l : list value)
| Obj (l : list (string * value)).

(** A JavaScript error object: its class name and its message. *)
Record error := Err { err_name : string; err_message : string }.

(** How an awaited platform operation ends. *)
Inductive outcome (A : Type) :=
| Resolves (a : A)
| Rejects (e : error).
Arguments Resolves {A} a.
Arguments Rejects {A} e.

(** The fields of a [Response] that [fetchData] reads: [response.ok],
    [response.status], and what [response.json()] settles with. *)
Record Response := {
  ok : bool;
  status : N;
  json : outcome value
}.

Inductive pstate :=
| Pending
| Fulfilled (v : value)
| Rejected (e : error).

#[global] Instance pending_dec (s : pstate) : Decision (s = Pending).
Proof. destruct s; [left|right..]; done. Defined.

(** Promises are named by the order of their creation. *)
Abbreviation pid := nat (only parsing).

(** ** Promise objects

    Each promise in the heap carries the activation that settles it. *)
Inductive task :=
| FetchData (url : string)
    (* fetchData(url), suspended at [await fetch(url)] (line 38) *)
| LoadData_cached (url : string)
    (* loadData returned [this.cache.get(url)] (line 11) *)
| LoadData_joined (url : string) (useCache : bool) (p : pid)
    (* loadData returned [this.loadingStates.get(url)] (line 15): the
       promise of the call adopts promise [p] *)
| LoadData_awaiting (url : string) (useCache : bool) (p : pid)
    (* loadData suspended at [await loadingPromise] (line 22) *)
| PromiseAll (ps : list pid)
    (* Promise.all(promises) (line 53) *)
| LoadMultiple (q : pid)
    (* loadMultiple returned the Promise.all promise [q] (line 53) *)
| Preload (r : pid).
    (* preload suspended at [await this.loadMultiple(urls, true)] (line 58) *)

Inductive console_entry :=
| ConsoleError (msg : string) (e : error)
| ConsoleWarn (msg : string) (e : error)
| ConsoleLog (msg : string).

Record World := {
  cache : gmap string value;            (* this.cache *)
  loadingStates : gmap string pid;      (* this.loadingStates *)
  promises : list (pstate * task);      (* promise objects, by creation *)
  fetched : list string;                (* calls fetch(url), oldest first *)
  console : list console_entry          (* oldest first *)
}.

(** [new DataLoader()] on a fresh page. *)
Definition init : World :=
  {| cache := ∅; loadingStates := ∅; promises := []; fetched := [];
     console := [] |}.

Definition set_cache (f : gmap string value → gmap string value) (w : World)
  : World :=
  {| cache := f (cache w); loadingStates := loadingStates w;
     promises := promises w; fetched := fetched w; console := console w |}.

Definition set_loadingStates (f : gmap string pid → gmap string pid)
  (w : World) : World :=
  {| cache := cache w; loadingStates := f (loadingStates w);
     promises := promises w; fetched := fetched w; console := console w |}.

Definition set_promises (f : list (pstate * task) → list (pstate * task))
  (w : World) : World :=
  {| cache := cache w; loadingStates := loadingStates w;
     promises := f (promises w); fetched := fetched w; console := console w |}.

Definition call_fetch (url : string) (w : World) : World :=
  {| cache := cache w; loadingStates := loadingStates w;
     promises := promises w; fetched := fetched w ++ [url];
     console := console w |}.

Definition log (es : list console_entry) (w : World) : World :=
  {| cache := cache w; loadingStates := loadingStates w;
     promises := promises w; fetched := fetched w;
     console := console w ++ es |}.

Definition state (w : World) (i : pid) : pstate :=
  match promises w !! i with
  | Some (s, _) => s
  | None => Pending
  end.

Definition task_of (w : World) (i : pid) : option task :=
  snd <$> promises w !! i.

(** Number of times [fetch(k)] has been called. *)
Definition invocations (k : string) (w : World) : nat :=
  length (filter (λ u, u = k) (fetched w)).

(** ** Promise.all *)

Fixpoint first_rejection (ss : list pstate) : option error :=
  match ss with
  | [] => None
  | Rejected e :: _ => Some e
  | _ :: ss => first_rejection ss
  end.

Fixpoint fulfilled_values (ss : list pstate) : option (list value) :=
  match ss with
  | [] => Some []
  | Fulfilled v :: ss => cons v <$> fulfilled_values ss
  | _ :: _ => None
  end.

(** Rejected as soon as an input is rejected, fulfilled with the array of
    the inputs' values, in the order of the inputs, once all are fulfilled. *)
Definition promise_all (ss : list pstate) : pstate :=
  match first_rejection ss with
  | Some e => Rejected e
  | None =>
      match fulfilled_values ss with
      | Some vs => Fulfilled (Arr vs)
      | None => Pending
      end
  end.

(** ** Continuations *)

Definition settle_promise (i : pid) (s : pstate) (t : task) (w : World)
  : World :=
  set_promises (λ h, <[i := (s, t)]> h) w.

(** A promise that adopts another one, or aggregates others, takes the
    state [s] computed from them once that state is settled. *)
Definition adopt (i : pid) (s : pstate) (t : task) (w : World) : World :=
  match s with
  | Pending => w
  | _ => settle_promise i s t w
  end.

(** The rest of activation [t], whose promise is [i]. *)
Definition resume (i : pid) (t : task) (w : World) : World :=
  match t with
  | FetchData _ | LoadData_cached _ => w
  | LoadData_joined _ _ p | LoadMultiple p => adopt i (state w p) t w
  | LoadData_awaiting url useCache p =>
      match state w p with
      | Pending => w
      | Fulfilled data =>                                 (* lines 24-29 *)
          let w1 :=
            if useCache then set_cache (λ c, <[url := data]> c) w else w in
          let w2 := set_loadingStates (λ l, delete url l) w1 in
          settle_promise i (Fulfilled data) t w2
      | Rejected e =>                                     (* lines 30-33 *)
          let w1 := set_loadingStates (λ l, delete url l) w in
          settle_promise i (Rejected e) t w1
      end
  | PromiseAll ps => adopt i (promise_all (state w <$> ps)) t w
  | Preload r =>
      match state w r with
      | Pending => w
      | Fulfilled _ =>                                    (* line 59 *)
          settle_promise i (Fulfilled Undefined) t
            (log [ConsoleLog "Data preloaded successfully"] w)
      | Rejected e =>                                     (* lines 60-62 *)
          settle_promise i (Fulfilled Undefined) t
            (log [ConsoleWarn "Some data failed to preload:" e] w)
      end
  end.

(** One reaction job for promise [i]: if it is pending and what it waits for
    has settled, run the rest of its activation. *)
Definition react (i : pid) (w : World) : World :=
  match promises w !! i with
  | Some (Pending, t) => resume i t w
  | _ => w
  end.

(** Run the reactions of the promises created after [from], oldest first.
    A promise only waits for promises created before it, so one pass
    settles everything that can settle. *)
Definition drain (from : pid) (w : World) : World :=
  foldl (λ w i, react i w) w (seq from (length (promises w) - from)).

(** A new promise object. *)
Definition push (s : pstate) (t : task) (w : World) : World :=
  set_promises (λ h, h ++ [(s, t)]) w.

(** Create a promise for activation [t] and run it as far as it goes. *)
Definition spawn (t : task) (w : World) : pid * World :=
  let i := length (promises w) in
  (i, react i (push Pending t w)).

(** ** fetchData (lines 36-49) *)

Definition http_error (st : N) : error :=
  Err "Error" ("HTTP error! status: " +:+ pretty st).

(** What [fetchData]'s promise settles with, given how the platform answered
    [fetch(url)]. *)
Definition fetchData_result (t : outcome Response) : outcome value :=
  match t with
  | Rejects e => Rejects e                         (* line 38 throws *)
  | Resolves response =>
      if ok response then json response            (* line 44 *)
      else Rejects (http_error (status response))  (* line 41 *)
  end.

(** The call itself: [fetch(url)] is invoked synchronously and the
    activation suspends. *)
Definition fetchData (url : string) (w : World) : pid * World :=
  spawn (FetchData url) (call_fetch url w).

(** The platform answers the [fetch] behind promise [p]; [fetchData]
    resumes (the [catch] of lines 45-48 logs and rethrows), and the
    microtask queue is drained. *)
Definition transport_settles (p : pid) (t : outcome Response) (w : World)
  : World :=
  match promises w !! p with
  | Some (Pending, FetchData url) =>
      match fetchData_result t with
      | Resolves data =>
          drain (S p) (settle_promise p (Fulfilled data) (FetchData url) w)
      | Rejects e =>
          drain (S p)
            (settle_promise p (Rejected e) (FetchData url)
               (log [ConsoleError
                       ("Failed to load data from " +:+ url +:+ ":") e] w))
      end
  | _ => w
  end.

(** ** loadData (lines 9-34) *)

(** The value line 11 returns, when [useCache && this.cache.has(url)]. *)
Definition served_from_cache (url : string) (useCache : bool) (w : World)
  : option value :=
  if useCache then cache w !! url else None.

Definition loadData (url : string) (useCache : bool) (w : World)
  : pid * World :=
  match served_from_cache url useCache w with
  | Some data =>                                          (* lines 10-12 *)
      (length (promises w), push (Fulfilled data) (LoadData_cached url) w)
  | None =>
      match loadingStates w !! url with
      | Some p =>                                         (* lines 14-16 *)
          spawn (LoadData_joined url useCache p) w
      | None =>
          let '(p, w1) := fetchData url w in              (* line 18 *)
          let w2 := set_loadingStates (λ l, <[url := p]> l) w1 in (* 19 *)
          spawn (LoadData_awaiting url useCache p) w2     (* line 22 *)
      end
  end.

(** ** loadMultiple (lines 51-54) *)

(** [urls.map((url) => this.loadData(url, useCache))]: the calls are made
    one after the other, in the order of [urls]. *)
Fixpoint map_loadData (urls : list string) (useCache : bool) (w : World)
  : list pid * World :=
  match urls with
  | [] => ([], w)
  | url :: urls =>
      let '(p, w1) := loadData url useCache w in
      let '(ps, w2) := map_loadData urls useCache w1 in
      (p :: ps, w2)
  end.

Definition loadMultiple (urls : list string) (useCache : bool) (w : World)
  : pid * World :=
  let '(ps, w1) := map_loadData urls useCache w in
  let '(q, w2) := spawn (PromiseAll ps) w1 in
  spawn (LoadMultiple q) w2.

(** ** preload (lines 56-63) *)

Definition preload (urls : list string) (w : World) : pid * World :=
  let '(r, w1) := loadMultiple urls true w in
  spawn (Preload r) w1.

(** ** clearCache (lines 65-71)

    [url = null] by default; [if (url)] is a truthiness test, so the empty
    string takes the [else] branch like [null]. *)
Definition clearCache (url : option string) (w : World) : World :=
  match url with
  | Some u =>
      if bool_decide (u = "") then set_cache (λ _, ∅) w
      else set_cache (λ c, delete u c) w
  | None => set_cache (λ _, ∅) w
  end.

(** ** Executions *)

Inductive event :=
| Call_loadData (url : string) (useCache : bool)
| Call_loadMultiple (urls : list string) (useCache : bool)
| Call_preload (urls : list string)
| Call_clearCache (url : option string)
| Transport (p : pid) (t : outcome Response).

Definition step (w : World) (ev : event) : World :=
  match ev with
  | Call_loadData url useCache => snd (loadData url useCache w)
  | Call_loadMultiple urls useCache => snd (loadMultiple urls useCache w)
  | Call_preload urls => snd (preload urls w)
  | Call_clearCache url => clearCache url w
  | Transport p t => transport_settles p t w
  end.

Definition run (evs : list event) (w : World) : World := foldl step w evs.

(** The states the loader can be in: those an execution from [init]
    reaches. *)
Definition reachable (w : World) : Prop := ∃ evs, w = run evs init.

(** ** Transport answers used in examples *)

Definition ok_json (v : value) : outcome Response :=
  Resolves {| ok := true; status := 200; json := Resolves v |}.

Definition not_found : outcome Response :=
  Resolves {| ok := false; status := 404; json := Resolves Null |}.

(** * Invariants and the notions the statements use *)

(** How the state of a [Promise.all] promise relates to its inputs. *)
Definition all_ok (s : pstate) (ss : list pstate) : Prop :=
  match s with
  | Pending => promise_all ss = Pending
  | Fulfilled v => ∃ vs, v = Arr vs ∧ ss = Fulfilled <$> vs
  | Rejected e => Rejected e ∈ ss
  end.

(** How the state of a [preload] promise relates to the aggregate it awaits. *)
Definition preload_ok (s sr : pstate) : Prop :=
  match s with
  | Pending => sr = Pending
  | Fulfilled v => v = Undefined ∧ sr ≠ Pending
  | Rejected _ => False
  end.

(** What holds of promise [i], in state [s] with activation [t], when the
    queue is empty. *)
Definition local_ok (w : World) (i : pid) (s : pstate) (t : task) : Prop :=
  match t with
  | FetchData _ => True
  | LoadData_cached k =>
      ∃ v p, s = Fulfilled v ∧ p < i ∧
             promises w !! p = Some (Fulfilled v, FetchData k)
  | LoadData_joined k _ p => p < i ∧ promises w !! p = Some (s, FetchData k)
  | LoadData_awaiting k _ p =>
      i = S p ∧ promises w !! p = Some (s, FetchData k)
  | PromiseAll ps => Forall (λ q, q < i) ps ∧ all_ok s (state w <$> ps)
  | LoadMultiple q => q < i ∧ state w q = s
  | Preload r => r < i ∧ preload_ok s (state w r)
  end.

(** What holds of every world an execution reaches ([reachable_wf]). *)
Record wf (w : World) : Prop := {
  wf_local : ∀ i s t, promises w !! i = Some (s, t) → local_ok w i s t;
  (* the marker of [k] names the pending fetch of [k], and every pending
     fetch has its marker *)
  wf_marker : ∀ k p,
    loadingStates w !! k = Some p ↔
    promises w !! p = Some (Pending, FetchData k);
  (* the call that started a fetch is the next promise *)
  wf_awaited : ∀ p s k,
    promises w !! p = Some (s, FetchData k) →
    ∃ s' useCache,
      promises w !! S p = Some (s', LoadData_awaiting k useCache p);
  (* a caching call that started a fetch found nothing in the cache, and
     nothing was stored since *)
  wf_miss : ∀ p k,
    promises w !! S p = Some (Pending, LoadData_awaiting k true p) →
    cache w !! k = None;
  (* the same for a caching call that joined a fetch *)
  wf_joined_miss : ∀ i k p,
    promises w !! i = Some (Pending, LoadData_joined k true p) →
    cache w !! k = None;
  (* what the cache holds for [k] was delivered by a fetch of [k] *)
  wf_source : ∀ k v,
    cache w !! k = Some v →
    ∃ p, promises w !! p = Some (Fulfilled v, FetchData k);
  (* a preload that swallowed a failure logged it *)
  wf_warn : ∀ i s r e,
    promises w !! i = Some (s, Preload r) → s ≠ Pending →
    state w r = Rejected e →
    ConsoleWarn "Some data failed to preload:" e ∈ console w
}.

(** The activations of [loadData] and [fetchData] themselves, as opposed to
    the promises that only follow other promises. *)
Definition loader_frame (t : task) : Prop :=
  match t with
  | FetchData _ | LoadData_awaiting _ _ _ => True
  | _ => False
  end.

(** The cache once the [loadData] call that started the fetch of [k], with
    flag [useCache], has resumed on a fetch promise in state [sp]. *)
Definition cache_after (w : World) (k : string) (useCache : bool)
  (sp : pstate) : gmap string value :=
  match sp with
  | Fulfilled data => if useCache then <[k := data]> (cache w) else cache w
  | _ => cache w
  end.

(** What holds while the queue is drained after the fetch promise [p] of
    [k] in world [w] settled with [sp], when the reactions of the promises
    before [n] have run. *)
Record dinv (w : World) (p : pid) (k : string) (useCache : bool)
  (sp : pstate) (n : nat) (w' : World) : Prop := {
  d_task : ∀ j, task_of w' j = task_of w j;
  d_fetch : state w' p = sp;
  d_await : state w' (S p) = sp;
  d_mono : ∀ j, state w j ≠ Pending → state w' j = state w j;
  d_later : ∀ j, n ≤ j → state w' j = state w j;
  d_fixed : ∀ j t,
    task_of w j = Some t → loader_frame t → j ≠ p → j ≠ S p →
    state w' j = state w j;
  d_new : ∀ j e,
    state w j = Pending → state w' j = Rejected e → sp = Rejected e;
  d_local : ∀ j s t,
    j < n → promises w' !! j = Some (s, t) → local_ok w' j s t;
  d_warn : ∀ j r e,
    j < n → task_of w j = Some (Preload r) → state w j = Pending →
    state w' r = Rejected e →
    ConsoleWarn "Some data failed to preload:" e ∈ console w';
  d_console : ∀ x, x ∈ console w → x ∈ console w';
  d_cache : cache w' = cache_after w k useCache sp;
  d_loading : loadingStates w' = delete k (loadingStates w);
  d_fetched : fetched w' = fetched w
}.

(** What [fetchData]'s promise settles with. *)
Definition settled_state (t : outcome Response) : pstate :=
  match fetchData_result t with
  | Resolves data => Fulfilled data
  | Rejects e => Rejected e
  end.

(** What [preload] does once the aggregate [r] has state [s]. *)
Definition preload_resumes (s : pstate) : pstate * list console_entry :=
  match s with
  | Pending => (Pending, [])
  | Fulfilled _ =>
      (Fulfilled Undefined, [ConsoleLog "Data preloaded successfully"])
  | Rejected e =>
      (Fulfilled Undefined, [ConsoleWarn "Some data failed to preload:" e])
  end.

(** The world after a [loadData] call that starts a fetch. *)
Definition started (k : string) (useCache : bool) (w : World) : World :=
  let p := length (promises w) in
  push Pending (LoadData_awaiting k useCache p)
    (set_loadingStates (λ l, <[k := p]> l)
       (push Pending (FetchData k) (call_fetch k w))).

(** Promise objects keep their activation, settled promises keep their
    state, and the console only grows. *)
Record evolves (w w' : World) : Prop := {
  ev_task : ∀ i t, task_of w i = Some t → task_of w' i = Some t;
  ev_state : ∀ i, state w i ≠ Pending → state w' i = state w i;
  ev_console : ∀ x, x ∈ console w → x ∈ console w'
}.

(** The key a [loadData] promise was requested for. *)
Definition loaded_url (t : task) : option string :=
  match t with
  | LoadData_cached k | LoadData_joined k _ _ | LoadData_awaiting k _ _ =>
      Some k
  | _ => None
  end.

(** Promise [p] is the result of a call [loadData(k, ...)]. *)
Definition loads (w : World) (k : string) (p : pid) : Prop :=
  ∃ t, task_of w p = Some t ∧ loaded_url t = Some k.

(** Activation [t] belongs to a call [loadData(k, useCache)] whose result
    depends on the fetch promise [p]: the call that started the fetch, or a
    call that joined it. *)
Definition waits_on (k : string) (useCache : bool) (p : pid) (t : task)
  : Prop :=
  t = LoadData_awaiting k useCache p ∨ t = LoadData_joined k useCache p.

(** The loader's own state and the transport log. *)
Definition same_loader (w w' : World) : Prop :=
  cache w' = cache w ∧ loadingStates w' = loadingStates w ∧
  fetched w' = fetched w.

(** Event [ev] is not the answer to the fetch behind promise [p]. *)
Definition not_settling (p : pid) (ev : event) : bool :=
  match ev with
  | Transport q _ => negb (q =? p)
  | _ => true
  end.

(** Event [ev] is not a call of [clearCache]. *)
Definition not_clearing (ev : event) : bool :=
  match ev with
  | Call_clearCache _ => false
  | _ => true
  end.

(** Value [x] was delivered by the transport for key [k]. *)
Definition resource (w : World) (k : string) (x : value) : Prop :=
  ∃ p, promises w !! p = Some (Fulfilled x, FetchData k).






(** * The page's data (lines 80-112)

    The four global variables that the render functions read, and
    [loadAllData], which fills them from the loader. *)

Record Globals := {
  projects : value;
  skills : value;
  education : value;
  jobExperiences : value
}.

(** Lines 80-83. *)
Definition globals0 : Globals :=
  {| projects := Arr []; skills := Obj []; education := Arr [];
     jobExperiences := Arr [] |}.

(** [Object.values(DATA_URLS)], lines 86-91; also the array literal of
    lines 98-103. *)
Definition DATA_URLS : list string :=
  ["data/projects.json"; "data/skills.json"; "data/education.json";
   "data/experience.json"].

(** JavaScript's [ToBoolean]. *)
Definition truthy (v : value) : bool :=
  match v with
  | Undefined | Null => false
  | Bool b => b
  | Num n => negb (n =? 0)%Z
  | Str s => negb (bool_decide (s = EmptyString))
  | Arr _ | Obj _ => true
  end.

(** [a || b]. *)
Definition or_else (a b : value) : value := if truthy a then a else b.

(** What the array pattern of line 97 iterates over; [None] when the value
    is not iterable and the pattern throws a [TypeError]. *)
Definition iterate (v : value) : option (list value) :=
  match v with
  | Arr l => Some l
  | Str s =>
      Some ((λ c, Str (String c EmptyString)) <$> String.list_ascii_of_string s)
  | _ => None
  end.

(** The i-th variable of an array pattern: [undefined] past the end. *)
Definition element (l : list value) (i : nat) : value :=
  default Undefined (l !! i).

Definition not_iterable : error := Err "TypeError" "value is not iterable".

(** The synchronous part of [loadAllData] (lines 95-103): the message, then
    the call whose promise the function awaits. *)
Definition loadAllData (w : World) : pid * World :=
  loadMultiple DATA_URLS true (log [ConsoleLog "Loading portfolio data..."] w).

(** How an [async] function stands once the promise it awaits has a given
    state. *)
Inductive completion :=
| Awaiting
| Returns (g : Globals) (out : list console_entry)
| Throws (e : error).

(** The rest of [loadAllData] (lines 97, 105-111), for the state [s] of the
    awaited promise and the globals [g] at that time: the globals after the
    assignments and the message written, or the error thrown. *)
Definition loadAllData_resumes (s : pstate) (g : Globals) : completion :=
  match s with
  | Pending => Awaiting
  | Rejected e => Throws e
  | Fulfilled v =>
      match iterate v with
      | None => Throws not_iterable
      | Some l =>
          Returns
            {| projects := or_else (element l 0) (Arr []);
               skills := or_else (element l 1) (Obj []);
               education := or_else (element l 2) (Arr []);
               jobExperiences := or_else (element l 3) (Arr []) |}
            [ConsoleLog "Portfolio data loaded successfully"]
      end
  end.

(** * Arrow keys in the open mobile menu (handleKeyDown, lines 631-646)

    [navLinks] is the array of the [.nav-link] elements in document order,
    [activeElement] whatever has the focus.  Indices are JavaScript numbers
    in the range of [indexOf] and [length], so integers. *)

Inductive arrow := ArrowDown | ArrowUp.

(** Lines 637-643. *)
Definition nextIndex (key : arrow) (currentIndex len : Z) : Z :=
  match key with
  | ArrowDown =>
      if (currentIndex <? len - 1)%Z then (currentIndex + 1)%Z else 0%Z
  | ArrowUp =>
      if (0 <? currentIndex)%Z then (currentIndex - 1)%Z else (len - 1)%Z
  end.

(** [l.indexOf(x)]: the first position of [x], or -1. *)
Definition indexOf {A} `{EqDecision A} (l : list A) (x : A) : Z :=
  match list_find (λ y, y = x) l with
  | Some (i, _) => Z.of_nat i
  | None => (-1)%Z
  end.

(** [l[i]]: [undefined] ([None]) outside of the array. *)
Definition item {A} (l : list A) (i : Z) : option A :=
  if (i <? 0)%Z then None else l !! Z.to_nat i.

(** The element that receives the focus (line 645), or [None] when
    [navLinks[nextIndex]] is [undefined] and [.focus()] throws a
    [TypeError]. *)
Definition arrow_focus {A} `{EqDecision A} (key : arrow) (navLinks : list A)
  (activeElement : A) : option A :=
  item navLinks
    (nextIndex key (indexOf navLinks activeElement)
       (Z.of_nat (length navLinks))).

(** * throttle (lines 602-613) and debounce (lines 1206-1216)

    Both return a closure over one variable and use the platform's timers.
    The closure's state is modelled with the clock and the timers it has
    pending; [limit] and [wait] are delays in milliseconds.  A timer fires
    when the platform chooses, not before it is due. *)

(** What happens to the returned function: it is called with [args], or
    the platform runs the callback of timer [id]; [elapsed] is the time
    since the previous event. *)
Inductive tick (A : Type) :=
| Invoked (elapsed : nat) (args : A)
| TimerFires (elapsed : nat) (id : nat).
Arguments Invoked {A} elapsed args.
Arguments TimerFires {A} elapsed id.


Record Throttle (A : Type) := {
  th_now : nat;                     (* the clock *)
  th_next : nat;                    (* the id of the next timer *)
  th_timers : gmap nat nat;         (* pending timers: when each is due *)
  inThrottle : bool;                (* line 603; [undefined] is falsy *)
  applied : list (nat * A)          (* calls [func.apply], with their time *)
}.
Arguments th_now {A} _.
Arguments th_next {A} _.
Arguments th_timers {A} _.
Arguments inThrottle {A} _.
Arguments applied {A} _.

(** [throttle(func, limit)]. *)
Definition throttle {A} : Throttle A :=
  {| th_now := 0; th_next := 0; th_timers := ∅; inThrottle := false;
     applied := [] |}.

(** The returned function (lines 604-611). *)
Definition throttled {A} (limit elapsed : nat) (args : A) (s : Throttle A)
  : Throttle A :=
  let now := th_now s + elapsed in
  if inThrottle s then
    {| th_now := now; th_next := th_next s; th_timers := th_timers s;
       inThrottle := true; applied := applied s |}
  else
    {| th_now := now; th_next := S (th_next s);
       th_timers := <[th_next s := now + limit]> (th_timers s);
       inThrottle := true;
       applied := applied s ++ [(now, args)] |}.

(** The timer's callback (line 610), when timer [id] is pending and due. *)
Definition throttle_timer {A} (elapsed id : nat) (s : Throttle A)
  : Throttle A :=
  let now := th_now s + elapsed in
  match th_timers s !! id with
  | Some due =>
      if due <=? now then
        {| th_now := now; th_next := th_next s;
           th_timers := delete id (th_timers s);
           inThrottle := false; applied := applied s |}
      else
        {| th_now := now; th_next := th_next s; th_timers := th_timers s;
           inThrottle := inThrottle s; applied := applied s |}
  | None =>
      {| th_now := now; th_next := th_next s; th_timers := th_timers s;
         inThrottle := inThrottle s; applied := applied s |}
  end.

Definition throttle_step {A} (limit : nat) (s : Throttle A) (ev : tick A)
  : Throttle A :=
  match ev with
  | Invoked elapsed args => throttled limit elapsed args s
  | TimerFires elapsed id => throttle_timer elapsed id s
  end.

Record Debounce (A : Type) := {
  db_now : nat;                     (* the clock *)
  db_next : nat;                    (* the id of the next timer *)
  db_timers : gmap nat (nat * A);   (* pending timers: due time, and the
                                       [args] their [later] closes over *)
  timeout : option nat;             (* line 1207; [None] is [undefined] *)
  called : list (nat * A);          (* calls [func(...args)], with their time *)
  db_invoked : list (nat * A)       (* calls of the returned function *)
}.
Arguments db_now {A} _.
Arguments db_next {A} _.
Arguments db_timers {A} _.
Arguments timeout {A} _.
Arguments called {A} _.
Arguments db_invoked {A} _.

(** [debounce(func, wait)]. *)
Definition debounce {A} : Debounce A :=
  {| db_now := 0; db_next := 0; db_timers := ∅; timeout := None;
     called := []; db_invoked := [] |}.

(** [clearTimeout(id)]; [clearTimeout(undefined)] does nothing. *)
Definition clearTimeout {A} (id : option nat) (t : gmap nat A) : gmap nat A :=
  match id with
  | Some i => delete i t
  | None => t
  end.

(** The returned function (lines 1208-1214). *)
Definition executedFunction {A} (wait elapsed : nat) (args : A)
  (s : Debounce A) : Debounce A :=
  let now := db_now s + elapsed in
  let timers := clearTimeout (timeout s) (db_timers s) in      (* 1213 *)
  {| db_now := now; db_next := S (db_next s);
     db_timers := <[db_next s := (now + wait, args)]> timers;  (* 1214 *)
     timeout := Some (db_next s);
     called := called s;
     db_invoked := db_invoked s ++ [(now, args)] |}.

(** [later] (lines 1209-1212), when its timer [id] is pending and due. *)
Definition later {A} (elapsed id : nat) (s : Debounce A) : Debounce A :=
  let now := db_now s + elapsed in
  match db_timers s !! id with
  | Some (due, args) =>
      if due <=? now then
        {| db_now := now; db_next := db_next s;
           db_timers := clearTimeout (timeout s) (delete id (db_timers s));
           timeout := timeout s;
           called := called s ++ [(now, args)];
           db_invoked := db_invoked s |}
      else
        {| db_now := now; db_next := db_next s; db_timers := db_timers s;
           timeout := timeout s; called := called s;
           db_invoked := db_invoked s |}
  | None =>
      {| db_now := now; db_next := db_next s; db_timers := db_timers s;
         timeout := timeout s; called := called s;
         db_invoked := db_invoked s |}
  end.

Definition debounce_step {A} (wait : nat) (s : Debounce A) (ev : tick A)
  : Debounce A :=
  match ev with
  | Invoked elapsed args => executedFunction wait elapsed args s
  | TimerFires elapsed id => later elapsed id s
  end.

(** * Notions used in the further properties *)

(** The [console.error] entries of a console, oldest first. *)
Definition console_errors (c : list console_entry) : list (string * error) :=
  omap (λ x, match x with ConsoleError msg e => Some (msg, e) | _ => None end)
    c.

(** Whether a call [loadData(k, useCache)] would reach line 18: the key is
    neither served from the cache nor in flight. *)
Definition needs_fetch (k : string) (useCache : bool) (w : World) : bool :=
  bool_decide (served_from_cache k useCache w = None) &&
  bool_decide (loadingStates w !! k = None).

(** A fetch of [k] in flight, if there is one, was started by a caching
    call. *)
Definition caching_started (w : World) (k : string) : Prop :=
  ∀ p, loadingStates w !! k = Some p →
       task_of w (S p) = Some (LoadData_awaiting k true p).

(** Promise [i] is the result of a call [loadData(k, true)] that was served
    from the cache, or depends on a fetch started by a caching call; and if
    it is fulfilled, its value is what the cache holds for [k]. *)
Definition warm (w : World) (k : string) (i : pid) : Prop :=
  (∃ t, task_of w i = Some t ∧
        (t = LoadData_cached k ∨
         ∃ p, waits_on k true p t ∧
              task_of w (S p) = Some (LoadData_awaiting k true p))) ∧
  (∀ v, state w i = Fulfilled v → cache w !! k = Some v).

(** Event [ev] is an answer of the transport. *)
Definition is_transport (ev : event) : bool :=
  match ev with
  | Transport _ _ => true
  | _ => false
  end.




(** * Properties *)

(** ** Sanity checks *)

Example http_error_404 :
  fetchData_result not_found = Rejects (Err "Error" "HTTP error! status: 404").
Proof. vm_compute. reflexivity. Qed.

Example two_loads_one_fetch :
  let w := run [Call_loadData "a" true; Call_loadData "a" true;
                Transport 0 (ok_json (Num 1))] init in
  fetched w = ["a"] ∧ state w 1 = Fulfilled (Num 1)
  ∧ state w 2 = Fulfilled (Num 1) ∧ cache w !! "a" = Some (Num 1)
  ∧ loadingStates w !! "a" = None.
Proof. vm_compute. repeat split; reflexivity. Qed.

Example loadMultiple_out_of_order :
  let w := run [Call_loadMultiple ["a"; "b"; "c"] true;
                Transport 4 (ok_json (Str "C"));
                Transport 0 (ok_json (Str "A"));
                Transport 2 (ok_json (Str "B"))] init in
  state w 7 = Fulfilled (Arr [Str "A"; Str "B"; Str "C"]).
Proof. vm_compute. reflexivity. Qed.

(** ** What one reaction changes *)

Lemma state_lookup w i s t : promises w !! i = Some (s, t) → state w i = s.
Proof. unfold state. by intros ->. Qed.

Lemma state_pending_ge w i : length (promises w) ≤ i → state w i = Pending.
Proof. intros H. unfold state. by rewrite (lookup_ge_None_2 _ _ H). Qed.

Lemma state_settled_lt w i : state w i ≠ Pending → i < length (promises w).
Proof.
  intros H. destruct (decide (i < length (promises w))) as [|Hn]; [done|].
  destruct H. apply state_pending_ge. lia.
Qed.

Lemma lookup_state_task w i :
  i < length (promises w) →
  ∃ t, promises w !! i = Some (state w i, t).
Proof.
  intros [[s t] H]%lookup_lt_is_Some_2. exists t.
  by rewrite (state_lookup _ _ _ _ H).
Qed.

Ltac unfold_react :=
  unfold react, resume, adopt, settle_promise, set_promises, set_cache,
    set_loadingStates, log in *.

Lemma react_promises i w :
  promises (react i w) = promises w ∨
  ∃ s t, promises w !! i = Some (Pending, t) ∧ s ≠ Pending ∧
         promises (react i w) = <[i := (s, t)]> (promises w).
Proof.
  unfold_react. repeat case_match; simpl; eauto; right; eexists _, _;
    (split; [done|]); (split; [|done]); congruence.
Qed.

Lemma react_fetched i w : fetched (react i w) = fetched w.
Proof. unfold_react. by repeat case_match. Qed.

Lemma react_length i w : length (promises (react i w)) = length (promises w).
Proof.
  destruct (react_promises i w) as [->|(s & t & _ & _ & ->)]; [done|].
  apply length_insert.
Qed.

Lemma react_lookup_ne i j w :
  i ≠ j → promises (react i w) !! j = promises w !! j.
Proof.
  intros Hne.
  destruct (react_promises i w) as [->|(s & t & _ & _ & ->)]; [done|].
  by apply list_lookup_insert_ne.
Qed.

Lemma react_lookup i j w s t :
  promises w !! j = Some (s, t) →
  ∃ s', promises (react i w) !! j = Some (s', t) ∧ (s ≠ Pending → s' = s).
Proof.
  intros Hj.
  destruct (react_promises i w) as [->|(s' & t' & Hi & _ & ->)]; [by eauto|].
  destruct (decide (i = j)) as [->|Hne].
  - rewrite Hj in Hi. injection Hi as -> ->.
    rewrite list_lookup_insert_eq by by eapply lookup_lt_Some.
    eexists. split; [done|]. by intros [].
  - rewrite list_lookup_insert_ne by done. eauto.
Qed.

Lemma react_settled i w : state w i ≠ Pending → react i w = w.
Proof.
  unfold react, state. by repeat case_match.
Qed.

Lemma react_state_ne i j w : i ≠ j → state (react i w) j = state w j.
Proof. intros H. unfold state. by rewrite react_lookup_ne. Qed.

(** ** The queue *)

Lemma drain_done from w : length (promises w) ≤ from → drain from w = w.
Proof.
  intros H. unfold drain. by replace (length (promises w) - from) with 0 by lia.
Qed.

Lemma drain_unfold from w :
  from < length (promises w) → drain from w = drain (S from) (react from w).
Proof.
  intros H. unfold drain. rewrite react_length.
  replace (length (promises w) - from)
    with (S (length (promises w) - S from)) by lia.
  done.
Qed.

(** ** Promise.all *)

Lemma fulfilled_values_Some ss vs :
  fulfilled_values ss = Some vs ↔ ss = Fulfilled <$> vs.
Proof.
  revert vs. induction ss as [|[] ss IH]; intros vs; simpl.
  - split; [intros [= <-]; done|]. by destruct vs.
  - split; [done|]. by destruct vs.
  - destruct (fulfilled_values ss) as [vs'|]; simpl.
    + split.
      * intros [= <-]. simpl. f_equal. by apply IH.
      * destruct vs as [|v' vs]; [done|]. intros [= -> H].
        apply IH in H. by injection H as ->.
    + split; [done|]. destruct vs as [|v' vs]; [done|]. intros [= -> H].
      by apply IH in H.
  - split; [done|]. by destruct vs.
Qed.

Lemma first_rejection_Some ss e :
  first_rejection ss = Some e → Rejected e ∈ ss.
Proof.
  induction ss as [|[] ss IH]; simpl; [done|..].
  - intros H. right. auto.
  - intros H. right. auto.
  - intros [= ->]. left.
Qed.

Lemma first_rejection_None ss e :
  first_rejection ss = None → Rejected e ∉ ss.
Proof.
  induction ss as [|s ss IH]; simpl; [intros _; apply not_elem_of_nil|].
  intros H Hin. apply elem_of_cons in Hin as [<-|Hin]; [done|].
  destruct s; try done; by apply IH.
Qed.

Lemma fulfilled_values_no_rejection vs :
  first_rejection (Fulfilled <$> vs) = None.
Proof. by induction vs. Qed.

Lemma promise_all_fulfilled vs :
  promise_all (Fulfilled <$> vs) = Fulfilled (Arr vs).
Proof.
  unfold promise_all. rewrite fulfilled_values_no_rejection.
  by rewrite (proj2 (fulfilled_values_Some _ vs) eq_refl).
Qed.

Lemma promise_all_pending ss :
  promise_all ss = Pending ↔
  (∀ e, Rejected e ∉ ss) ∧ Pending ∈ ss.
Proof.
  unfold promise_all. split.
  - destruct (first_rejection ss) eqn:Hr; [done|].
    destruct (fulfilled_values ss) eqn:Hf; [done|]. intros _.
    split; [intros e; by apply first_rejection_None|].
    induction ss as [|[] ss IH]; simpl in *; try done.
    + left.
    + right. apply IH; [done|]. by destruct (fulfilled_values ss).
  - intros [Hr Hp].
    destruct (first_rejection ss) eqn:Hr'.
    { by apply first_rejection_Some, Hr in Hr'. }
    destruct (fulfilled_values ss) as [vs|] eqn:Hf; [|done].
    apply fulfilled_values_Some in Hf as ->.
    apply list_elem_of_fmap in Hp as (? & ? & ?). done.
Qed.

(** ** The invariant of reachable states *)

Lemma all_ok_promise_all ss : all_ok (promise_all ss) ss.
Proof.
  destruct (promise_all ss) eqn:H; simpl; [done|..]; unfold promise_all in H.
  - destruct (first_rejection ss); [done|].
    destruct (fulfilled_values ss) as [vs|] eqn:Hf; [|done].
    injection H as <-. exists vs. split; [done|].
    by apply fulfilled_values_Some.
  - destruct (first_rejection ss) eqn:Hr.
    + injection H as ->. by apply first_rejection_Some.
    + by destruct (fulfilled_values ss).
Qed.

Lemma wf_init : wf init.
Proof. split; simpl; done. Qed.

Lemma promises_lookup_iff w j s t :
  promises w !! j = Some (s, t) ↔ state w j = s ∧ task_of w j = Some t.
Proof.
  unfold state, task_of. destruct (promises w !! j) as [[s' t']|]; simpl.
  - split; [by intros [= -> ->]|]. by intros [-> [= ->]].
  - split; [done|]. by intros [_ ?].
Qed.

Lemma task_of_lt w j t : task_of w j = Some t → j < length (promises w).
Proof.
  unfold task_of. destruct (promises w !! j) eqn:H; [|done].
  intros _. by eapply lookup_lt_Some.
Qed.

Lemma react_task_of i j w : task_of (react i w) j = task_of w j.
Proof.
  unfold task_of.
  destruct (react_promises i w) as [->|(s & t & Hi & _ & ->)]; [done|].
  destruct (decide (i = j)) as [->|Hne].
  - rewrite list_lookup_insert_eq by by eapply lookup_lt_Some.
    by rewrite Hi.
  - by rewrite list_lookup_insert_ne.
Qed.

Lemma react_state_settled i j w :
  state w j ≠ Pending → state (react i w) j = state w j.
Proof.
  intros H. destruct (decide (i = j)) as [->|Hne].
  - by rewrite react_settled.
  - by apply react_state_ne.
Qed.

(** A reaction touches the two maps only when it resumes [loadData]. *)
Lemma react_maps i w :
  (∀ k useCache p,
     promises w !! i = Some (Pending, LoadData_awaiting k useCache p) →
     state w p = Pending) →
  cache (react i w) = cache w ∧ loadingStates (react i w) = loadingStates w.
Proof.
  intros H. unfold react.
  destruct (promises w !! i) as [[[] []]|]; try done; simpl;
    unfold adopt; try (by case_match).
  rewrite (H _ _ _ eq_refl). done.
Qed.

Lemma react_awaiting_pending i w k useCache p :
  promises w !! i = Some (Pending, LoadData_awaiting k useCache p) →
  state w p = Pending → react i w = w.
Proof. intros Hi Hp. unfold react. rewrite Hi. simpl. by rewrite Hp. Qed.

Lemma react_fetch i w s k :
  promises w !! i = Some (s, FetchData k) → react i w = w.
Proof. intros Hi. unfold react. rewrite Hi. by destruct s. Qed.

(** [local_ok] only looks at the promises created before [i]. *)
Lemma local_ok_ext w w' i s t :
  (∀ q, q < i → promises w' !! q = promises w !! q) →
  local_ok w i s t → local_ok w' i s t.
Proof.
  intros Hext. destruct t; simpl; try done.
  - intros (v & p & ? & ? & ?). exists v, p. by rewrite Hext.
  - intros [? ?]. split; [done|]. by rewrite Hext.
  - intros [-> ?]. split; [done|]. rewrite Hext; [done|lia].
  - intros [Hlt Hall]. split; [done|].
    replace (state w' <$> ps) with (state w <$> ps); [done|].
    apply Forall_fmap_ext_1. eapply Forall_impl; [exact Hlt|].
    intros q Hq. simpl. unfold state. by rewrite Hext.
  - intros [? <-]. split; [done|]. unfold state. by rewrite Hext.
  - intros [? ?]. split; [done|]. unfold state. by rewrite Hext.
Qed.

(** A settled promise keeps satisfying [local_ok] when settled promises keep
    their state. *)
Lemma local_ok_settled w w' i s t :
  (∀ q, state w q ≠ Pending → promises w' !! q = promises w !! q) →
  s ≠ Pending → local_ok w i s t → local_ok w' i s t.
Proof.
  intros Hmono Hs. destruct t; simpl; try done.
  - intros (v & p & ? & ? & Hp). exists v, p. rewrite Hmono; [done|].
    by rewrite (state_lookup _ _ _ _ Hp).
  - intros [? Hp]. split; [done|]. rewrite Hmono; [done|].
    by rewrite (state_lookup _ _ _ _ Hp).
  - intros [-> Hp]. split; [done|]. rewrite Hmono; [done|].
    by rewrite (state_lookup _ _ _ _ Hp).
  - intros [Hlt Hall]. split; [done|].
    assert (Hst : ∀ q, state w q ≠ Pending → state w' q = state w q).
    { intros q Hq. unfold state. by rewrite Hmono. }
    destruct s as [|v|e]; [done|..]; simpl in *.
    + destruct Hall as (vs & -> & Hvs). exists vs. split; [done|].
      rewrite <- Hvs. apply Forall_fmap_ext_1, Forall_forall.
      intros q Hq. apply Hst.
      assert (Hin : state w q ∈ state w <$> ps) by by apply list_elem_of_fmap_2.
      rewrite Hvs in Hin. apply list_elem_of_fmap in Hin as (v & -> & _). done.
    + apply list_elem_of_fmap in Hall as (q & Hq & Hin).
      apply list_elem_of_fmap. exists q. split; [|done].
      rewrite Hst; [done|]. by rewrite <- Hq.
  - intros [? Hq]. split; [done|]. unfold state at 1. rewrite Hmono.
    + done.
    + by rewrite Hq.
  - intros [? Hr]. split; [done|]. destruct s as [|v|]; [done| |done].
    destruct Hr as [-> Hr]. split; [done|]. unfold state at 1.
    by rewrite Hmono.
Qed.

Lemma react_console i w x : x ∈ console w → x ∈ console (react i w).
Proof.
  intros H. unfold_react. repeat case_match; simpl; try done;
    apply elem_of_app; by left.
Qed.

(** ** The transport settles a fetch *)

Section settle.
Variables (w : World) (p : pid) (k : string) (useCache : bool).
Variable sp : pstate.
Hypothesis Hwf : wf w.
Hypothesis Hp : promises w !! p = Some (Pending, FetchData k).
Hypothesis Ha :
  promises w !! S p = Some (Pending, LoadData_awaiting k useCache p).
Hypothesis Hsp : sp ≠ Pending.

Local Abbreviation cache_after := (cache_after w k useCache sp).
Local Abbreviation dinv := (dinv w p k useCache sp).
Local Abbreviation d_task := (d_task w p k useCache sp).
Local Abbreviation d_fetch := (d_fetch w p k useCache sp).
Local Abbreviation d_await := (d_await w p k useCache sp).
Local Abbreviation d_mono := (d_mono w p k useCache sp).
Local Abbreviation d_later := (d_later w p k useCache sp).
Local Abbreviation d_fixed := (d_fixed w p k useCache sp).
Local Abbreviation d_new := (d_new w p k useCache sp).
Local Abbreviation d_local := (d_local w p k useCache sp).
Local Abbreviation d_warn := (d_warn w p k useCache sp).
Local Abbreviation d_console := (d_console w p k useCache sp).
Local Abbreviation d_cache := (d_cache w p k useCache sp).
Local Abbreviation d_loading := (d_loading w p k useCache sp).
Local Abbreviation d_fetched := (d_fetched w p k useCache sp).

Lemma cache_after_lookup k' :
  cache_after !! k' = cache w !! k' ∨
  k' = k ∧ useCache = true ∧
  cache_after !! k'
  = Some match sp with Fulfilled data => data | _ => Undefined end ∧
  ∃ data, sp = Fulfilled data.
Proof using All.
  unfold cache_after. destruct sp as [|data|]; [by left| |by left].
  destruct useCache; [|by left].
  destruct (decide (k = k')) as [<-|Hne].
  - right. rewrite lookup_insert_eq. eauto.
  - left. by rewrite lookup_insert_ne.
Qed.

Lemma dinv_length n w' : dinv n w' → length (promises w') = length (promises w).
Proof.
  intros D. apply Nat.le_antisymm.
  - destruct (decide (length (promises w') ≤ length (promises w)))
      as [|Hn]; [done|].
    destruct (lookup_lt_is_Some_2 (promises w') (length (promises w)))
      as [[s t] Hl]; [lia|].
    apply promises_lookup_iff in Hl as [_ Hl].
    rewrite (d_task _ _ D) in Hl. apply task_of_lt in Hl. lia.
  - destruct (decide (length (promises w) ≤ length (promises w')))
      as [|Hn]; [done|].
    destruct (lookup_lt_is_Some_2 (promises w) (length (promises w')))
      as [[s t] Hl]; [lia|].
    apply promises_lookup_iff in Hl as [_ Hl].
    rewrite <- (d_task _ _ D) in Hl. apply task_of_lt in Hl. lia.
Qed.

Lemma dinv_settled_lookup n w' q :
  dinv n w' → state w q ≠ Pending → promises w' !! q = promises w !! q.
Proof.
  intros D Hq.
  destruct (lookup_state_task w q) as [t Ht]; [by apply state_settled_lt|].
  rewrite Ht. apply promises_lookup_iff. split.
  - by apply (d_mono _ _ D).
  - rewrite (d_task _ _ D). by apply promises_lookup_iff in Ht as [_ ?].
Qed.

Lemma dinv_later_lookup n w' q :
  dinv n w' → n ≤ q → promises w' !! q = promises w !! q.
Proof.
  intros D Hq.
  destruct (promises w !! q) as [[s t]|] eqn:Ht.
  - apply promises_lookup_iff in Ht as [Hs Ht].
    apply promises_lookup_iff. split.
    + rewrite <- Hs. by apply (d_later _ _ D).
    + by rewrite (d_task _ _ D).
  - apply lookup_ge_None in Ht. apply lookup_ge_None.
    by rewrite (dinv_length _ _ D).
Qed.

(** Facts about the promise [n] whose reaction runs next. *)
Section next.
Variables (n : nat) (w' : World) (t : task).
Hypothesis Hn : S p < n.
Hypothesis D : dinv n w'.
Hypothesis Ht : promises w' !! n = Some (Pending, t).

Lemma next_before : promises w !! n = Some (Pending, t).
Proof using All. by rewrite <- (dinv_later_lookup _ _ _ D). Qed.

Lemma next_local : local_ok w n Pending t.
Proof using All. apply (wf_local _ Hwf), next_before. Qed.

Lemma next_loader_frame : loader_frame t → react n w' = w'.
Proof using All.
  pose proof next_local as Hl. destruct t; try done; intros _.
  - by eapply react_fetch.
  - destruct Hl as [Hnp Hf]. eapply react_awaiting_pending; [done|].
    rewrite (d_fixed _ _ D _ (FetchData url)).
    + by rewrite (state_lookup _ _ _ _ Hf).
    + by apply promises_lookup_iff in Hf as [_ ?].
    + done.
    + lia.
    + intros ->. rewrite Ha in Hf. done.
Qed.

Lemma next_maps :
  cache (react n w') = cache w' ∧
  loadingStates (react n w') = loadingStates w'.
Proof using All.
  pose proof next_local as Hl.
  apply react_maps. intros k' uc p' Hk.
  rewrite Ht in Hk. injection Hk as ->.
  destruct Hl as [Hnp Hf].
  rewrite (d_fixed _ _ D _ (FetchData k')).
  - by rewrite (state_lookup _ _ _ _ Hf).
  - by apply promises_lookup_iff in Hf as [_ ?].
  - done.
  - lia.
  - intros ->. rewrite Ha in Hf. done.
Qed.

Lemma next_new e :
  state (react n w') n = Rejected e → sp = Rejected e.
Proof using All.
  pose proof next_local as Hl. unfold react. rewrite Ht.
  assert (Hsame : state w' n = Rejected e → sp = Rejected e).
  { rewrite (state_lookup _ _ _ _ Ht). done. }
  assert (Hlen : n < length (promises w')) by by eapply lookup_lt_Some.
  assert (Hset : ∀ s, adopt n s t w' = w' ∧ s = Pending ∨
             state (adopt n s t w') n = s).
  { intros []; simpl; [by left|right..]; unfold state; simpl;
      by rewrite list_lookup_insert_eq. }
  destruct t; simpl in *; try done.
  - destruct Hl as [Hlt Hf].
    destruct (Hset (state w' p0)) as [[-> _] | ->]; [exact Hsame|].
    apply (d_new _ _ D). by rewrite (state_lookup _ _ _ _ Hf).
  - destruct Hl as [Hnp Hf].
    assert (state w' p0 = Pending) as ->; [|exact Hsame].
    rewrite (d_fixed _ _ D _ (FetchData url)).
    + by rewrite (state_lookup _ _ _ _ Hf).
    + by apply promises_lookup_iff in Hf as [_ ?].
    + done.
    + lia.
    + intros ->. rewrite Ha in Hf. done.
  - destruct Hl as [Hlt Hall].
    destruct (Hset (promise_all (state w' <$> ps))) as [[-> _] | ->];
      [exact Hsame|].
    intros Hrej. pose proof (all_ok_promise_all (state w' <$> ps)) as Hok.
    rewrite Hrej in Hok. simpl in Hok.
    apply list_elem_of_fmap in Hok as (q & Hq & Hin).
    apply (d_new _ _ D q); [|done].
    assert (Hm : state w q ≠ Pending → state w q = Rejected e).
    { intros Hne. by rewrite <- (d_mono _ _ D). }
    destruct (state w q) eqn:Hwq; [done|..]; specialize (Hm ltac:(done));
      [done|].
    apply promise_all_pending in Hall as [Hnr _].
    destruct (Hnr e). apply list_elem_of_fmap. exists q.
    by rewrite Hwq.
  - destruct Hl as [Hlt Hq].
    destruct (Hset (state w' q)) as [[-> _] | ->]; [exact Hsame|].
    by apply (d_new _ _ D).
  - destruct (state w' r); [exact Hsame|..]; unfold state; simpl;
      by rewrite list_lookup_insert_eq.
Qed.

Lemma next_ok : local_ok (react n w') n (state (react n w') n) t.
Proof using All.
  apply (local_ok_ext w'); [intros q Hq; apply react_lookup_ne; lia|].
  pose proof next_local as Hl. unfold react. rewrite Ht.
  assert (Hpend : state w' n = Pending) by by apply (state_lookup _ _ _ t).
  assert (Hlen : n < length (promises w')) by by eapply lookup_lt_Some.
  assert (Hset : ∀ s, adopt n s t w' = w' ∧ s = Pending ∨
             state (adopt n s t w') n = s).
  { intros []; simpl; [by left|right..]; unfold state; simpl;
      by rewrite list_lookup_insert_eq. }
  destruct t; simpl in *.
  - done.
  - by destruct Hl as (? & ? & ? & _).
  - destruct Hl as [Hlt Hf]. split; [done|].
    apply promises_lookup_iff in Hf as [_ Hf].
    apply promises_lookup_iff. split; [|by rewrite (d_task _ _ D)].
    destruct (Hset (state w' p0)) as [[-> ->] | ->]; done.
  - destruct Hl as [Hnp Hf]. split; [done|].
    assert (state w' p0 = Pending) as Hp0.
    { rewrite (d_fixed _ _ D _ (FetchData url)).
      + by rewrite (state_lookup _ _ _ _ Hf).
      + by apply promises_lookup_iff in Hf as [_ ?].
      + done.
      + lia.
      + intros ->. rewrite Ha in Hf. done. }
    rewrite Hp0, Hpend. apply promises_lookup_iff. split; [done|].
    rewrite (d_task _ _ D). by apply promises_lookup_iff in Hf as [_ ?].
  - destruct Hl as [Hlt _]. split; [done|].
    destruct (Hset (promise_all (state w' <$> ps))) as [[-> Hpa] | ->].
    + by rewrite Hpend.
    + apply all_ok_promise_all.
  - destruct Hl as [Hlt _]. split; [done|].
    destruct (Hset (state w' q)) as [[-> ->] | ->]; done.
  - destruct Hl as [Hlt _]. split; [done|].
    destruct (state w' r) eqn:Hr.
    + by rewrite Hpend.
    + unfold state at 1. simpl. rewrite list_lookup_insert_eq by done.
      done.
    + unfold state at 1. simpl. rewrite list_lookup_insert_eq by done.
      done.
Qed.

Lemma next_warn r e :
  t = Preload r → state w' r = Rejected e →
  ConsoleWarn "Some data failed to preload:" e ∈ console (react n w').
Proof using All.
  intros Hr He. unfold react. rewrite Ht, Hr. simpl. rewrite He. simpl.
  apply elem_of_app. right. left.
Qed.
End next.

Lemma dinv_step n w' :
  S p < n → n < length (promises w) → dinv n w' → dinv (S n) (react n w').
Proof using All.
  intros Hn Hlen D.
  destruct (promises w' !! n) as [[s t]|] eqn:Ht.
  2:{ apply lookup_ge_None in Ht. rewrite (dinv_length _ _ D) in Ht. lia. }
  assert (Hw : promises w !! n = Some (s, t)).
  { by rewrite <- (dinv_later_lookup _ _ _ D). }
  assert (Hpre : ∀ j r, task_of w j = Some (Preload r) →
                   state w j = Pending → r < j).
  { intros j r Hj Hs.
    assert (Hl : promises w !! j = Some (Pending, Preload r))
      by by apply promises_lookup_iff.
    by destruct (wf_local _ Hwf _ _ _ Hl). }
  destruct (decide (state w' n = Pending)) as [Hpend|Hset].
  - assert (s = Pending) as -> by by rewrite <- (state_lookup _ _ _ _ Ht).
    split.
    + intros j. by rewrite react_task_of, (d_task _ _ D).
    + rewrite react_state_ne by lia. apply (d_fetch _ _ D).
    + rewrite react_state_ne by lia. apply (d_await _ _ D).
    + intros j Hj. rewrite react_state_settled; [by apply (d_mono _ _ D)|].
      by rewrite (d_mono _ _ D).
    + intros j Hj. rewrite react_state_ne by lia. apply (d_later _ _ D). lia.
    + intros j t0 Hj Hf Hjp Hja. destruct (decide (n = j)) as [<-|Hne].
      * apply promises_lookup_iff in Hw as [_ Hw]. rewrite Hw in Hj.
        injection Hj as <-. rewrite (next_loader_frame n w' t); try done.
        by apply (d_fixed _ _ D _ t).
      * rewrite react_state_ne by done. by apply (d_fixed _ _ D _ t0).
    + intros j e Hj He. destruct (decide (n = j)) as [<-|Hne].
      * by apply (next_new n w' t).
      * rewrite react_state_ne in He by done. by apply (d_new _ _ D j).
    + intros j s0 t0 Hj Hl. destruct (decide (n = j)) as [<-|Hne].
      * apply promises_lookup_iff in Hl as [<- Hl].
        rewrite react_task_of in Hl.
        apply promises_lookup_iff in Ht as [_ Ht']. rewrite Ht' in Hl.
        injection Hl as <-. apply next_ok; try done.
        by apply promises_lookup_iff.
      * rewrite react_lookup_ne in Hl by done.
        apply (local_ok_ext w').
        { intros q Hq. apply react_lookup_ne. lia. }
        apply (d_local _ _ D); [lia|done].
    + intros j r e Hj Hjt Hjs Hr. pose proof (Hpre _ _ Hjt Hjs) as Hrj.
      rewrite react_state_ne in Hr by lia.
      destruct (decide (n = j)) as [<-|Hne].
      * apply (next_warn n w' t Hn D Ht r e); try done.
        apply promises_lookup_iff in Hw as [_ Hw]. rewrite Hw in Hjt.
        by injection Hjt.
      * apply react_console. apply (d_warn _ _ D j r); try done. lia.
    + intros x Hx. by apply react_console, (d_console _ _ D).
    + rewrite (proj1 (next_maps n w' t Hn D Ht)). apply (d_cache _ _ D).
    + rewrite (proj2 (next_maps n w' t Hn D Ht)). apply (d_loading _ _ D).
    + rewrite react_fetched. apply (d_fetched _ _ D).
  - rewrite react_settled by done.
    assert (Hs : s ≠ Pending) by by rewrite <- (state_lookup _ _ _ _ Ht).
    destruct D as [D1 D2 D3 D4 D5 D6 D7 D8 D9 D10 D11 D12 D13].
    split; try done.
    + intros j Hj. apply D5. lia.
    + intros j s0 t0 Hj Hl. destruct (decide (n = j)) as [<-|Hne].
      * rewrite Ht in Hl. injection Hl as <- <-.
        apply (local_ok_settled w); [|done|by apply (wf_local _ Hwf)].
        intros q Hq. apply (dinv_settled_lookup n); [|done].
        by split.
      * apply D8; [lia|done].
    + intros j r e Hj Hjt Hjs Hr. destruct (decide (n = j)) as [<-|Hne].
      * rewrite (state_lookup _ _ _ _ Hw) in Hjs. done.
      * apply (D9 j r); try done. lia.
Qed.

Lemma dinv_drain m : ∀ n w',
  n + m = length (promises w) → S p < n → dinv n w' →
  dinv (length (promises w)) (drain n w').
Proof using All.
  induction m as [|m IH]; intros n w' Hm Hn D.
  - rewrite drain_done by (rewrite (dinv_length _ _ D); lia).
    by replace (length (promises w)) with n by lia.
  - rewrite drain_unfold by (rewrite (dinv_length _ _ D); lia).
    apply IH; [lia|lia|]. apply dinv_step; [done|lia|done].
Qed.

(** [loadData] is the first to resume: it awaited the fetch before any
    other promise could adopt it. *)
Lemma resume_loadData es :
  let w0 := settle_promise p sp (FetchData k) (log es w) in
  let w1 := react (S p) w0 in
  promises w1 =
    <[S p := (sp, LoadData_awaiting k useCache p)]>
      (<[p := (sp, FetchData k)]> (promises w)) ∧
  cache w1 = cache_after ∧
  loadingStates w1 = delete k (loadingStates w) ∧
  fetched w1 = fetched w ∧
  console w1 = console w ++ es.
Proof using All.
  intros w0 w1. subst w1. unfold react.
  assert (Hlen : p < length (promises w)) by by eapply lookup_lt_Some.
  assert (H0 : promises w0 !! S p
               = Some (Pending, LoadData_awaiting k useCache p)).
  { subst w0. simpl. by rewrite list_lookup_insert_ne by lia. }
  assert (Hs : state w0 p = sp).
  { subst w0. unfold state. simpl. by rewrite list_lookup_insert_eq. }
  rewrite H0. simpl. rewrite Hs. unfold cache_after.
  destruct sp; [done|..]; destruct useCache; done.
Qed.

Lemma dinv_base es :
  dinv (S (S p))
    (react (S p) (settle_promise p sp (FetchData k) (log es w))).
Proof using All.
  destruct (resume_loadData es) as (Hpr & Hc & Hl & Hf & Hcon).
  set (w1 := react (S p) _) in *.
  assert (Hlen : p < length (promises w)) by by eapply lookup_lt_Some.
  assert (Hlen' : S p < length (promises w)) by by eapply lookup_lt_Some.
  assert (Hother : ∀ j, j ≠ p → j ≠ S p →
                     promises w1 !! j = promises w !! j).
  { intros j ??. rewrite Hpr. by rewrite !list_lookup_insert_ne. }
  assert (Hfetch : promises w1 !! p = Some (sp, FetchData k)).
  { rewrite Hpr. rewrite list_lookup_insert_ne by lia.
    by rewrite list_lookup_insert_eq. }
  assert (Hawait : promises w1 !! S p
                   = Some (sp, LoadData_awaiting k useCache p)).
  { rewrite Hpr. rewrite list_lookup_insert_eq; [done|].
    by rewrite length_insert. }
  assert (Hst : ∀ j, j ≠ p → j ≠ S p → state w1 j = state w j).
  { intros j ??. unfold state. by rewrite Hother. }
  split.
  - intros j. unfold task_of.
    destruct (decide (j = p)) as [->|?]; [by rewrite Hfetch, Hp|].
    destruct (decide (j = S p)) as [->|?]; [by rewrite Hawait, Ha|].
    by rewrite Hother.
  - by apply (state_lookup _ _ _ _ Hfetch).
  - by apply (state_lookup _ _ _ _ Hawait).
  - intros j Hj. apply Hst.
    + intros ->. by rewrite (state_lookup _ _ _ _ Hp) in Hj.
    + intros ->. by rewrite (state_lookup _ _ _ _ Ha) in Hj.
  - intros j Hj. apply Hst; lia.
  - intros j t _ _ ??. by apply Hst.
  - intros j e Hj He.
    destruct (decide (j = p)) as [->|?].
    { by rewrite (state_lookup _ _ _ _ Hfetch) in He. }
    destruct (decide (j = S p)) as [->|?].
    { by rewrite (state_lookup _ _ _ _ Hawait) in He. }
    rewrite Hst, Hj in He by done. done.
  - intros j s t Hj Hl'.
    destruct (decide (j = p)) as [->|?].
    { rewrite Hfetch in Hl'. by injection Hl' as <- <-. }
    destruct (decide (j = S p)) as [->|?].
    { rewrite Hawait in Hl'. by injection Hl' as <- <-. }
    rewrite Hother in Hl' by done.
    apply (local_ok_ext w); [|by apply (wf_local _ Hwf)].
    intros q Hq. apply Hother; lia.
  - intros j r e Hj Hjt Hjs Hr.
    assert (Hjl : promises w !! j = Some (Pending, Preload r))
      by by apply promises_lookup_iff.
    destruct (wf_local _ Hwf _ _ _ Hjl) as [Hrj Hpre]. simpl in Hpre.
    assert (j ≠ p) by (intros ->; by rewrite Hp in Hjl).
    assert (j ≠ S p) by (intros ->; by rewrite Ha in Hjl).
    rewrite Hst, Hpre in Hr by lia. done.
  - intros x Hx. rewrite Hcon. apply elem_of_app. by left.
  - done.
  - done.
  - done.
Qed.

Lemma dinv_wf w' : dinv (length (promises w)) w' → wf w'.
Proof using All.
  intros D.
  assert (Hpk : ∀ p' k', promises w !! p' = Some (Pending, FetchData k') →
                  k' = k → p' = p).
  { intros p' k' Hp' ->. apply (wf_marker _ Hwf) in Hp', Hp. congruence. }
  split.
  - intros j s t Hj. apply (d_local _ _ D); [|done].
    rewrite <- (dinv_length _ _ D). by eapply lookup_lt_Some.
  - intros k' p'. rewrite (d_loading _ _ D). rewrite lookup_delete_Some.
    split.
    + intros [Hk Hl]. apply (wf_marker _ Hwf) in Hl.
      apply promises_lookup_iff. apply promises_lookup_iff in Hl as Hl'.
      destruct Hl' as [Hs Ht]. split; [|by rewrite (d_task _ _ D)].
      rewrite (d_fixed _ _ D _ (FetchData k')); try done.
      * intros ->. rewrite Hp in Hl. congruence.
      * intros ->. rewrite Ha in Hl. done.
    + intros Hl. apply promises_lookup_iff in Hl as [Hs Ht].
      rewrite (d_task _ _ D) in Ht.
      assert (p' ≠ p).
      { intros ->. by rewrite (d_fetch _ _ D) in Hs. }
      assert (p' ≠ S p).
      { intros ->. by rewrite (d_await _ _ D) in Hs. }
      rewrite (d_fixed _ _ D _ (FetchData k')) in Hs by done.
      assert (Hl : promises w !! p' = Some (Pending, FetchData k'))
        by by apply promises_lookup_iff.
      split; [|by apply (wf_marker _ Hwf)].
      intros ->. by apply Hpk in Hl.
  - intros p' s k' Hl. apply promises_lookup_iff in Hl as [_ Ht].
    rewrite (d_task _ _ D) in Ht.
    destruct (lookup_state_task w p') as [t' Hl]; [by eapply task_of_lt|].
    apply promises_lookup_iff in Hl as Hl'. destruct Hl' as [_ Ht'].
    rewrite Ht in Ht'. injection Ht' as <-.
    destruct (wf_awaited _ Hwf _ _ _ Hl) as (s' & uc & Haw).
    exists (state w' (S p')), uc. apply promises_lookup_iff.
    split; [done|]. rewrite (d_task _ _ D).
    by apply promises_lookup_iff in Haw as [_ ?].
  - intros p' k' Hl. apply promises_lookup_iff in Hl as [Hs Ht].
    rewrite (d_task _ _ D) in Ht.
    assert (S p' ≠ S p).
    { intros Heq. rewrite Heq in Hs. by rewrite (d_await _ _ D) in Hs. }
    assert (S p' ≠ p).
    { intros Heq. rewrite Heq in Ht.
      apply promises_lookup_iff in Hp as [_ Hp']. congruence. }
    rewrite (d_fixed _ _ D _ (LoadData_awaiting k' true p')) in Hs by done.
    assert (Hl : promises w !! S p'
                 = Some (Pending, LoadData_awaiting k' true p'))
      by by apply promises_lookup_iff.
    rewrite (d_cache _ _ D). unfold cache_after.
    pose proof (wf_miss _ Hwf _ _ Hl) as Hmiss.
    destruct sp; [done| |done]. destruct useCache; [|done].
    rewrite lookup_insert_ne; [done|].
    intros <-. destruct (wf_local _ Hwf _ _ _ Hl) as [_ Hf].
    apply Hpk in Hf; [|done]. lia.
  - intros i k' p' Hl.
    assert (Hi : i < length (promises w)).
    { rewrite <- (dinv_length _ _ D). by eapply lookup_lt_Some. }
    destruct (d_local _ _ D _ _ _ Hi Hl) as [_ Hf'].
    apply promises_lookup_iff in Hl as [Hs Ht].
    rewrite (d_task _ _ D) in Ht.
    assert (Hs' : state w i = Pending).
    { destruct (decide (state w i = Pending)) as [|Hne]; [done|].
      by rewrite <- (d_mono _ _ D), Hs in Hne. }
    assert (Hl : promises w !! i
                 = Some (Pending, LoadData_joined k' true p'))
      by by apply promises_lookup_iff.
    rewrite (d_cache _ _ D).
    destruct (cache_after_lookup k') as [->|(-> & _)];
      [by apply (wf_joined_miss _ Hwf i _ p')|].
    destruct (wf_local _ Hwf _ _ _ Hl) as [_ Hf].
    apply Hpk in Hf; [|done]. rewrite Hf in Hf'.
    apply promises_lookup_iff in Hf' as [Hf' _].
    rewrite (d_fetch _ _ D) in Hf'. done.
  - intros k' v. rewrite (d_cache _ _ D).
    destruct (cache_after_lookup k') as [->|(-> & _ & -> & data & Hd)].
    + intros Hc. destruct (wf_source _ Hwf _ _ Hc) as [p' Hp'].
      exists p'. rewrite (dinv_settled_lookup _ w' p' D); [done|].
      by rewrite (state_lookup _ _ _ _ Hp').
    + intros [= <-]. exists p. apply promises_lookup_iff.
      split; [rewrite (d_fetch _ _ D); by rewrite Hd|].
      rewrite (d_task _ _ D). by apply promises_lookup_iff in Hp as [_ ?].
  - intros i s r e Hl Hs Hr.
    assert (Hi : i < length (promises w)).
    { rewrite <- (dinv_length _ _ D). by eapply lookup_lt_Some. }
    apply promises_lookup_iff in Hl as [Hsi Ht].
    rewrite (d_task _ _ D) in Ht.
    destruct (decide (state w i = Pending)) as [Hpend|Hne].
    + by apply (d_warn _ _ D i r).
    + assert (Hl : promises w !! i = Some (state w i, Preload r))
        by by apply promises_lookup_iff.
      destruct (wf_local _ Hwf _ _ _ Hl) as [_ Hpre].
      apply (d_console _ _ D), (wf_warn _ Hwf i (state w i) r); try done.
      rewrite <- (d_mono _ _ D); [done|].
      destruct (state w i); [done| |done]. by destruct Hpre.
Qed.
End settle.

Lemma settled_state_settled t : settled_state t ≠ Pending.
Proof. unfold settled_state. by destruct (fetchData_result t). Qed.

Lemma log_nil w : log [] w = w.
Proof. destruct w. unfold log. simpl. by rewrite app_nil_r. Qed.

(** The fetch in flight for [k], and the [loadData] call that started it. *)
Lemma wf_in_flight w k p :
  wf w → promises w !! p = Some (Pending, FetchData k) →
  ∃ useCache,
    promises w !! S p = Some (Pending, LoadData_awaiting k useCache p).
Proof.
  intros Hwf Hp. destruct (wf_awaited _ Hwf _ _ _ Hp) as (s & uc & Ha).
  exists uc. destruct (wf_local _ Hwf _ _ _ Ha) as [_ Hf].
  rewrite Hp in Hf. by injection Hf as <-.
Qed.

Lemma transport_settles_dinv w p k useCache t :
  wf w → promises w !! p = Some (Pending, FetchData k) →
  promises w !! S p = Some (Pending, LoadData_awaiting k useCache p) →
  dinv w p k useCache (settled_state t) (length (promises w))
    (transport_settles p t w).
Proof.
  intros Hwf Hp Ha.
  assert (Hlen : S p < length (promises w)) by by eapply lookup_lt_Some.
  pose proof (settled_state_settled t) as Hs.
  unfold transport_settles. rewrite Hp. unfold settled_state in *.
  destruct (fetchData_result t) as [data|e].
  - replace (settle_promise p (Fulfilled data) (FetchData k) w)
      with (settle_promise p (Fulfilled data) (FetchData k) (log [] w))
      by (by rewrite log_nil).
    rewrite drain_unfold by (simpl; by rewrite length_insert).
    apply (dinv_drain w p k useCache _ Hwf Hp Ha Hs
             (length (promises w) - S (S p))); [lia|lia|].
    by apply dinv_base.
  - rewrite drain_unfold by (simpl; by rewrite length_insert).
    apply (dinv_drain w p k useCache _ Hwf Hp Ha Hs
             (length (promises w) - S (S p))); [lia|lia|].
    by apply dinv_base.
Qed.

Lemma transport_settles_idle w p t :
  (∀ k, promises w !! p ≠ Some (Pending, FetchData k)) →
  transport_settles p t w = w.
Proof.
  intros H. unfold transport_settles.
  destruct (promises w !! p) as [[[] []]|] eqn:Hp; try done.
  by destruct (H url).
Qed.

Lemma wf_transport_settles w p t : wf w → wf (transport_settles p t w).
Proof.
  intros Hwf.
  destruct (promises w !! p) as [[[] []]|] eqn:Hp;
    try (rewrite transport_settles_idle; [done|]; intros k'; by rewrite Hp).
  destruct (wf_in_flight _ _ _ Hwf Hp) as [uc Ha].
  eapply (dinv_wf w p url uc (settled_state t)); try done.
  - apply settled_state_settled.
  - by apply transport_settles_dinv.
Qed.

(** ** Calls *)

Lemma push_lookup_lt s t w i :
  i < length (promises w) → promises (push s t w) !! i = promises w !! i.
Proof. intros H. simpl. by apply lookup_app_l. Qed.

Lemma push_lookup_new s t w :
  promises (push s t w) !! length (promises w) = Some (s, t).
Proof. simpl. by rewrite list_lookup_middle. Qed.

Lemma push_lookup s t w i x :
  promises (push s t w) !! i = Some x ↔
  promises w !! i = Some x ∨ i = length (promises w) ∧ x = (s, t).
Proof.
  simpl. rewrite lookup_snoc_Some. split.
  - intros [[_ ?]|[? ?]]; auto.
  - intros [H|[? ?]]; [left|right]; [|done]. split; [|done].
    by eapply lookup_lt_Some.
Qed.

Lemma push_length s t w :
  length (promises (push s t w)) = S (length (promises w)).
Proof. simpl. rewrite length_app. simpl. lia. Qed.

Lemma push_state_lt s t w i :
  i < length (promises w) → state (push s t w) i = state w i.
Proof. intros H. unfold state. by rewrite push_lookup_lt. Qed.

Lemma push_states s t w ps :
  Forall (λ q, q < length (promises w)) ps →
  state (push s t w) <$> ps = state w <$> ps.
Proof.
  intros H. apply Forall_fmap_ext_1. eapply Forall_impl; [exact H|].
  intros q Hq. by apply push_state_lt.
Qed.

Lemma settle_push s t w es :
  settle_promise (length (promises w)) s t (log es (push Pending t w))
  = push s t (log es w).
Proof.
  unfold settle_promise, push, set_promises, log. simpl. f_equal.
  replace (length (promises w)) with (length (promises w) + 0) by lia.
  by rewrite insert_app_r.
Qed.

Lemma adopt_push s t w :
  adopt (length (promises w)) s t (push Pending t w) = push s t w.
Proof.
  destruct s; simpl; [done|..].
  - rewrite <- (log_nil (push Pending _ w)), settle_push. by rewrite log_nil.
  - rewrite <- (log_nil (push Pending _ w)), settle_push. by rewrite log_nil.
Qed.

Lemma spawn_fetchData k w :
  spawn (FetchData k) w = (length (promises w), push Pending (FetchData k) w).
Proof. unfold spawn, react. by rewrite push_lookup_new. Qed.

Lemma spawn_joined k useCache p w :
  p < length (promises w) →
  spawn (LoadData_joined k useCache p) w
  = (length (promises w),
     push (state w p) (LoadData_joined k useCache p) w).
Proof.
  intros Hp. unfold spawn, react. rewrite push_lookup_new. simpl.
  by rewrite push_state_lt, adopt_push.
Qed.

Lemma spawn_awaiting k useCache p w :
  p < length (promises w) → state w p = Pending →
  spawn (LoadData_awaiting k useCache p) w
  = (length (promises w), push Pending (LoadData_awaiting k useCache p) w).
Proof.
  intros Hp Hs. unfold spawn, react. rewrite push_lookup_new. simpl.
  by rewrite push_state_lt, Hs.
Qed.

Lemma spawn_PromiseAll ps w :
  Forall (λ q, q < length (promises w)) ps →
  spawn (PromiseAll ps) w
  = (length (promises w),
     push (promise_all (state w <$> ps)) (PromiseAll ps) w).
Proof.
  intros Hps. unfold spawn, react. rewrite push_lookup_new. simpl.
  by rewrite push_states, adopt_push.
Qed.

Lemma spawn_LoadMultiple q w :
  q < length (promises w) →
  spawn (LoadMultiple q) w
  = (length (promises w), push (state w q) (LoadMultiple q) w).
Proof.
  intros Hq. unfold spawn, react. rewrite push_lookup_new. simpl.
  by rewrite push_state_lt, adopt_push.
Qed.

Lemma spawn_Preload r w :
  r < length (promises w) →
  spawn (Preload r) w
  = (length (promises w),
     push (preload_resumes (state w r)).1 (Preload r)
       (log (preload_resumes (state w r)).2 w)).
Proof.
  intros Hr. unfold spawn, react. rewrite push_lookup_new. simpl.
  rewrite push_state_lt by done.
  destruct (state w r); simpl.
  - by rewrite log_nil.
  - by rewrite <- settle_push.
  - by rewrite <- settle_push.
Qed.

Lemma wf_log w es : wf w → wf (log es w).
Proof.
  intros [? ? ? ? ? ? Hw]. split; try done.
  intros i s r e Hi Hs Hr. simpl. apply elem_of_app. left.
  by apply (Hw i s r).
Qed.

Lemma wf_push w s t :
  wf w → ¬ loader_frame t → local_ok w (length (promises w)) s t →
  (∀ k p, s = Pending → t = LoadData_joined k true p → cache w !! k = None) →
  (∀ r e, t = Preload r → s ≠ Pending → state w r = Rejected e →
          ConsoleWarn "Some data failed to preload:" e ∈ console w) →
  wf (push s t w).
Proof.
  intros Hwf Hnf Hnew Hjoin Hwarn.
  assert (Hold : ∀ i s0 t0, loader_frame t0 →
            promises (push s t w) !! i = Some (s0, t0) →
            promises w !! i = Some (s0, t0)).
  { intros i s0 t0 Hf [?|[_ [= -> ->]]]%push_lookup; done. }
  split.
  - intros i s0 t0 [Hi|[-> [= -> ->]]]%push_lookup.
    + apply (local_ok_ext w); [|by apply (wf_local _ Hwf)].
      intros q Hq. apply push_lookup_lt.
      apply lookup_lt_Some in Hi. lia.
    + apply (local_ok_ext w); [|done].
      intros q Hq. by apply push_lookup_lt.
  - intros k p. rewrite (wf_marker _ Hwf). split.
    + intros H. apply push_lookup. by left.
    + by apply Hold.
  - intros p s0 k Hp. apply Hold in Hp; [|done].
    destruct (wf_awaited _ Hwf _ _ _ Hp) as (s' & uc & Ha).
    exists s', uc. apply push_lookup. by left.
  - intros p k Hp. apply Hold in Hp; [|done].
    by apply (wf_miss _ Hwf p).
  - intros i k p [Hi|[-> [= <- <-]]]%push_lookup.
    + by apply (wf_joined_miss _ Hwf i k p).
    + by apply (Hjoin k p).
  - intros k v Hc. destruct (wf_source _ Hwf k v Hc) as [p Hp].
    exists p. apply push_lookup. by left.
  - intros i s0 r e [Hi|[-> [= -> <-]]]%push_lookup Hs.
    + destruct (wf_local _ Hwf _ _ _ Hi) as [Hr _].
      rewrite push_state_lt by (apply lookup_lt_Some in Hi; lia).
      by apply (wf_warn _ Hwf i s0).
    + destruct Hnew as [Hr _]. rewrite push_state_lt by done.
      by apply Hwarn.
Qed.

Lemma wf_clearCache w url : wf w → wf (clearCache url w).
Proof.
  intros [Hl Hm Ha Hc Hj Hs Hw].
  assert (∀ f, (∀ c k v, f c !! k = Some v → c !! k = Some v) →
            wf (set_cache f w)) as Hset.
  { intros f Hf.
    assert (Hn : ∀ k, cache w !! k = None → f (cache w) !! k = None).
    { intros k Hk. destruct (f (cache w) !! k) eqn:Hfk; [|done].
      apply Hf in Hfk. congruence. }
    split; try done.
    - intros p k Hp. by apply Hn, (Hc p).
    - intros i k p Hp. by apply Hn, (Hj i k p).
    - intros k v Hk. by apply Hs, Hf. }
  unfold clearCache. destruct url as [u|]; [case_bool_decide|]; apply Hset.
  - intros c k v. by rewrite lookup_empty.
  - intros c k v. rewrite lookup_delete_Some. by intros [_ ?].
  - intros c k v. by rewrite lookup_empty.
Qed.

(** *** loadData *)

Lemma loadData_cached w k v :
  cache w !! k = Some v →
  loadData k true w
  = (length (promises w), push (Fulfilled v) (LoadData_cached k) w).
Proof. intros H. unfold loadData, served_from_cache. by rewrite H. Qed.

Lemma loadData_joined w k useCache p :
  wf w → served_from_cache k useCache w = None →
  loadingStates w !! k = Some p →
  loadData k useCache w
  = (length (promises w), push Pending (LoadData_joined k useCache p) w).
Proof.
  intros Hwf Hc Hl. unfold loadData. rewrite Hc, Hl.
  apply (wf_marker _ Hwf) in Hl.
  rewrite spawn_joined by by eapply lookup_lt_Some.
  by rewrite (state_lookup _ _ _ _ Hl).
Qed.

Lemma loadData_started w k useCache :
  served_from_cache k useCache w = None →
  loadingStates w !! k = None →
  loadData k useCache w = (S (length (promises w)), started k useCache w).
Proof.
  intros Hc Hl. unfold loadData, fetchData. rewrite Hc, Hl.
  rewrite spawn_fetchData. simpl fst. simpl snd.
  set (w1 := set_loadingStates _ _).
  assert (Hlen : length (promises w1) = S (length (promises w))).
  { subst w1. simpl. rewrite length_app. simpl. lia. }
  assert (Hn : length (promises (call_fetch k w)) = length (promises w))
    by done.
  rewrite spawn_awaiting.
  - by rewrite Hlen, Hn.
  - lia.
  - subst w1. unfold state. simpl. by rewrite list_lookup_middle.
Qed.

Lemma wf_started w k useCache :
  wf w → served_from_cache k useCache w = None →
  loadingStates w !! k = None → wf (started k useCache w).
Proof.
  intros Hwf Hc Hl. set (n := length (promises w)).
  assert (Hpr : promises (started k useCache w)
            = promises w ++ [(Pending, FetchData k);
                             (Pending, LoadData_awaiting k useCache n)]).
  { simpl. by rewrite <- app_assoc. }
  assert (Hlk : ∀ i x, promises (started k useCache w) !! i = Some x ↔
            promises w !! i = Some x ∨
            i = n ∧ x = (Pending, FetchData k) ∨
            i = S n ∧ x = (Pending, LoadData_awaiting k useCache n)).
  { intros i x. rewrite Hpr. rewrite lookup_app_Some. fold n. split.
    - intros [?|[Hi Hx]]; [by left|right].
      destruct (i - n) as [|[|j]] eqn:Hj; simpl in Hx; [left|right|done];
        (split; [lia|congruence]).
    - intros [?|[[-> ->]|[-> ->]]]; [by left|right..].
      + split; [lia|]. by rewrite Nat.sub_diag.
      + split; [lia|]. by replace (S n - n) with 1 by lia. }
  assert (Hlt : ∀ i, i < n →
            promises (started k useCache w) !! i = promises w !! i).
  { intros i Hi. rewrite Hpr. by apply lookup_app_l. }
  assert (Hnone : ∀ i, n ≤ i → promises w !! i = None).
  { intros i Hi. by apply lookup_ge_None. }
  split.
  - intros i s t [Hi|[[-> [= -> ->]]|[-> [= -> ->]]]]%Hlk.
    + apply (local_ok_ext w); [|by apply (wf_local _ Hwf)].
      intros q Hq. apply Hlt. apply lookup_lt_Some in Hi. fold n in Hi. lia.
    + done.
    + split; [done|]. apply Hlk. auto.
  - intros k' p. rewrite Hlk.
    replace (loadingStates (started k useCache w))
      with (<[k := n]> (loadingStates w)) by done.
    split.
    + intros [[<- <-]|[Hne Hk]]%lookup_insert_Some; [by auto|].
      left. by apply (wf_marker _ Hwf).
    + intros [Hp|[[-> [= ->]]|[_ ?]]]; [|by apply lookup_insert_eq|done].
      apply (wf_marker _ Hwf) in Hp as Hp'.
      rewrite lookup_insert_ne; [done|]. intros <-. congruence.
  - intros p s k' [Hp|[[-> [= -> ->]]|[_ ?]]]%Hlk; [| |done].
    + destruct (wf_awaited _ Hwf _ _ _ Hp) as (s' & uc & Ha).
      exists s', uc. apply Hlk. by left.
    + exists Pending, useCache. apply Hlk. auto.
  - intros p k' [Hp|[[? ?]|[[= ->] [= -> <-]]]]%Hlk; [|done|].
    + simpl. by apply (wf_miss _ Hwf p).
    + done.
  - intros i k' p [Hp|[[_ ?]|[_ ?]]]%Hlk; [|done..].
    by apply (wf_joined_miss _ Hwf i k' p).
  - intros k' v Hc'. destruct (wf_source _ Hwf k' v Hc') as [p Hp].
    exists p. apply Hlk. by left.
  - intros i s r e [Hp|[[_ ?]|[_ ?]]]%Hlk; [|done..].
    destruct (wf_local _ Hwf _ _ _ Hp) as [Hr _].
    unfold state. rewrite Hlt by (apply lookup_lt_Some in Hp; fold n in Hp; lia).
    by apply (wf_warn _ Hwf i s r).
Qed.

Lemma wf_loadData w k useCache :
  wf w → wf (loadData k useCache w).2.
Proof.
  intros Hwf.
  destruct (served_from_cache k useCache w) as [v|] eqn:Hc.
  { unfold served_from_cache in Hc. destruct useCache; [|done].
    rewrite (loadData_cached _ _ v) by done.
    destruct (wf_source _ Hwf _ _ Hc) as [p Hp].
    apply wf_push; [done|by intros []| |done..].
    exists v, p. split; [done|]. split; [|done]. by eapply lookup_lt_Some. }
  destruct (loadingStates w !! k) as [p|] eqn:Hl.
  - rewrite (loadData_joined _ _ _ p) by done.
    apply (wf_marker _ Hwf) in Hl.
    apply wf_push; [done|by intros []| | |done].
    + split; [|done]. by eapply lookup_lt_Some.
    + intros k' p' _ [= <- -> _]. done.
  - rewrite loadData_started by done. by apply wf_started.
Qed.

(** ** What never changes *)

Lemma evolves_refl w : evolves w w.
Proof. by split. Qed.

Lemma evolves_trans w1 w2 w3 : evolves w1 w2 → evolves w2 w3 → evolves w1 w3.
Proof.
  intros [T1 S1 C1] [T2 S2 C2]. split; [by auto|..|by auto].
  intros i Hi. rewrite S2; [by apply S1|]. by rewrite S1.
Qed.

Lemma evolves_same w w' :
  promises w' = promises w → console w' = console w → evolves w w'.
Proof.
  intros Hp Hc. split; unfold task_of, state; rewrite ?Hp, ?Hc; done.
Qed.

Lemma evolves_log es w : evolves w (log es w).
Proof. split; try done. intros x Hx. simpl. apply elem_of_app. by left. Qed.

Lemma evolves_lookup w w' i s t :
  evolves w w' → promises w !! i = Some (s, t) →
  ∃ s', promises w' !! i = Some (s', t) ∧ (s ≠ Pending → s' = s).
Proof.
  intros [T S _] [Hs Ht]%promises_lookup_iff. exists (state w' i). split.
  - apply promises_lookup_iff. auto.
  - intros Hne. rewrite <- Hs in *. by apply S.
Qed.

Lemma evolves_length w w' :
  evolves w w' → length (promises w) ≤ length (promises w').
Proof.
  intros E. destruct (decide (length (promises w) = 0)) as [|Hne]; [lia|].
  destruct (lookup_state_task w (pred (length (promises w)))) as [t Ht];
    [lia|].
  destruct (evolves_lookup _ _ _ _ _ E Ht) as (s' & Hl & _).
  apply lookup_lt_Some in Hl. lia.
Qed.

Lemma evolves_react i w : evolves w (react i w).
Proof.
  split.
  - intros j t. by rewrite react_task_of.
  - intros j. apply react_state_settled.
  - intros x. apply react_console.
Qed.

Lemma evolves_push s t w : evolves w (push s t w).
Proof.
  split; [| |done].
  - intros i t' Hi. unfold task_of.
    rewrite push_lookup_lt by by eapply task_of_lt. done.
  - intros i Hi. apply push_state_lt. by apply state_settled_lt.
Qed.

Lemma evolves_spawn t w : evolves w (spawn t w).2.
Proof.
  eapply evolves_trans; [apply evolves_push|apply evolves_react].
Qed.

Lemma evolves_drain l : ∀ w, evolves w (foldl (λ w i, react i w) w l).
Proof.
  induction l as [|i l IH]; intros w; simpl; [apply evolves_refl|].
  eapply evolves_trans; [apply evolves_react|apply IH].
Qed.

Lemma evolves_settle_promise i s t w :
  promises w !! i = Some (Pending, t) → evolves w (settle_promise i s t w).
Proof.
  intros Hi.
  assert (Hlk : ∀ j, j ≠ i →
            promises (settle_promise i s t w) !! j = promises w !! j).
  { intros j Hj. simpl. by rewrite list_lookup_insert_ne. }
  split; [| |done].
  - intros j t'. unfold task_of. destruct (decide (j = i)) as [->|Hne].
    + simpl. rewrite list_lookup_insert_eq by by eapply lookup_lt_Some.
      by rewrite Hi.
    + by rewrite Hlk.
  - intros j Hj. unfold state at 1 2. rewrite Hlk; [done|].
    intros ->. by rewrite (state_lookup _ _ _ _ Hi) in Hj.
Qed.

Lemma evolves_transport_settles p t w : evolves w (transport_settles p t w).
Proof.
  unfold transport_settles.
  destruct (promises w !! p) as [[[] []]|] eqn:Hp; try apply evolves_refl.
  destruct (fetchData_result t).
  - eapply evolves_trans; [by apply evolves_settle_promise|].
    apply evolves_drain.
  - eapply evolves_trans; [apply evolves_log|].
    eapply evolves_trans; [by apply evolves_settle_promise|].
    apply evolves_drain.
Qed.

Lemma evolves_loadData k useCache w : evolves w (loadData k useCache w).2.
Proof.
  unfold loadData. destruct (served_from_cache k useCache w).
  { apply evolves_push. }
  destruct (loadingStates w !! k).
  { apply evolves_spawn. }
  unfold fetchData. rewrite spawn_fetchData.
  eapply evolves_trans; [|apply evolves_spawn].
  eapply (evolves_trans _ (push Pending (FetchData k) (call_fetch k w)));
    [|by apply evolves_same].
  eapply (evolves_trans _ (call_fetch k w));
    [by apply evolves_same|apply evolves_push].
Qed.

Lemma evolves_clearCache url w : evolves w (clearCache url w).
Proof.
  unfold clearCache. destruct url; [case_bool_decide|]; by apply evolves_same.
Qed.

(** *** loadMultiple and preload *)

Lemma loads_evolves w w' k p : evolves w w' → loads w k p → loads w' k p.
Proof. intros E (t & Ht & Hk). exists t. split; [by apply (ev_task _ _ E)|done]. Qed.

Lemma loads_lt w k p : loads w k p → p < length (promises w).
Proof. intros (t & Ht & _). by eapply task_of_lt. Qed.

Lemma loadData_loads w k useCache :
  wf w → loads (loadData k useCache w).2 k (loadData k useCache w).1.
Proof.
  intros Hwf. unfold loads, task_of.
  destruct (served_from_cache k useCache w) as [v|] eqn:Hc.
  { unfold served_from_cache in Hc. destruct useCache; [|done].
    rewrite (loadData_cached _ _ v) by done. simpl fst. simpl snd.
    rewrite push_lookup_new. by eexists. }
  destruct (loadingStates w !! k) as [p|] eqn:Hl.
  - rewrite (loadData_joined _ _ _ p) by done. simpl fst. simpl snd.
    rewrite push_lookup_new. by eexists.
  - rewrite loadData_started by done. simpl fst. simpl snd.
    unfold started.
    replace (S (length (promises w)))
      with (length (promises (set_loadingStates
              (λ l, <[k := length (promises w)]> l)
              (push Pending (FetchData k) (call_fetch k w))))).
    + rewrite push_lookup_new. by eexists.
    + simpl. rewrite length_app. simpl. lia.
Qed.

Lemma map_loadData_spec urls useCache : ∀ w,
  wf w →
  wf (map_loadData urls useCache w).2 ∧
  evolves w (map_loadData urls useCache w).2 ∧
  Forall2 (loads (map_loadData urls useCache w).2) urls
    (map_loadData urls useCache w).1.
Proof.
  induction urls as [|k urls IH]; intros w Hwf; simpl.
  { split; [done|]. split; [apply evolves_refl|constructor]. }
  pose proof (wf_loadData w k useCache Hwf) as Hwf1.
  pose proof (evolves_loadData k useCache w) as E1.
  pose proof (loadData_loads w k useCache Hwf) as Hl.
  destruct (loadData k useCache w) as [p w1]. simpl in *.
  destruct (IH w1 Hwf1) as (Hwf2 & E2 & Hall).
  destruct (map_loadData urls useCache w1) as [ps w2]. simpl in *.
  split; [done|]. split; [by eapply evolves_trans|].
  constructor; [|done]. by eapply loads_evolves.
Qed.

Lemma loadMultiple_spec urls useCache w :
  wf w →
  let r := (loadMultiple urls useCache w).1 in
  let w' := (loadMultiple urls useCache w).2 in
  wf w' ∧ evolves w w' ∧
  let ps := (map_loadData urls useCache w).1 in
  ∃ q, Forall2 (loads w') urls ps ∧
       task_of w' q = Some (PromiseAll ps) ∧
       task_of w' r = Some (LoadMultiple q) ∧
       r = S q ∧ length (promises w') = S r.
Proof.
  intros Hwf. unfold loadMultiple.
  destruct (map_loadData_spec urls useCache w Hwf) as (Hwf1 & E1 & Hall).
  destruct (map_loadData urls useCache w) as [ps w1]. cbn [fst snd] in *.
  assert (Hps : Forall (λ q, q < length (promises w1)) ps).
  { apply Forall_forall. intros q Hq.
    apply list_elem_of_lookup in Hq as [i Hi].
    destruct (Forall2_lookup_r _ _ _ _ _ Hall Hi) as (k & _ & Hk).
    by eapply loads_lt. }
  rewrite spawn_PromiseAll by done.
  set (w2 := push _ (PromiseAll ps) w1).
  assert (Hwf2 : wf w2).
  { apply wf_push; [done|by intros []| |done..]. split; [done|].
    apply all_ok_promise_all. }
  assert (Hlen : length (promises w2) = S (length (promises w1)))
    by apply push_length.
  rewrite spawn_LoadMultiple by lia.
  set (w3 := push _ (LoadMultiple _) w2). cbn [fst snd].
  assert (E2 : evolves w1 w2) by apply evolves_push.
  assert (E3 : evolves w2 w3) by apply evolves_push.
  split.
  { apply wf_push; [done|by intros []| |done..]. split; [lia|done]. }
  split; [eauto using evolves_trans|].
  exists (length (promises w1)). split.
  { eapply Forall2_impl; [exact Hall|]. intros k p' Hk.
    eapply loads_evolves; [|exact Hk]. eauto using evolves_trans. }
  split.
  { apply (ev_task _ _ E3). unfold task_of. subst w2.
    by rewrite push_lookup_new. }
  split.
  { unfold task_of. subst w3. by rewrite push_lookup_new. }
  split; [done|]. subst w3. rewrite push_length. lia.
Qed.

Lemma preload_spec urls w :
  wf w →
  let i := (preload urls w).1 in
  let w' := (preload urls w).2 in
  wf w' ∧ evolves w w' ∧
  ∃ r, task_of w' i = Some (Preload r) ∧ i = S r.
Proof.
  intros Hwf. unfold preload.
  destruct (loadMultiple_spec urls true w Hwf)
    as (Hwf1 & E1 & q & _ & _ & Hr & _ & Hlen).
  destruct (loadMultiple urls true w) as [r w1]. cbn [fst snd] in *.
  rewrite spawn_Preload by lia. cbn [fst snd].
  set (w2 := log _ w1).
  assert (Hwf2 : wf w2) by by apply wf_log.
  split.
  { apply wf_push; [done|by intros []| |done|].
    - split; [simpl; lia|].
      replace (state w2 r) with (state w1 r) by done.
      by destruct (state w1 r).
    - intros r' e [= <-] _. replace (state w2 r) with (state w1 r) by done.
      intros Hrej. subst w2. rewrite Hrej. simpl. apply elem_of_app.
      right. left. }
  split.
  { eapply evolves_trans; [exact E1|].
    eapply evolves_trans; [apply evolves_log|apply evolves_push]. }
  exists r. split; [|simpl; lia].
  unfold task_of.
  replace (length (promises w1)) with (length (promises w2)) by done.
  by rewrite push_lookup_new.
Qed.

(** ** Executions *)

Lemma wf_step w ev : wf w → wf (step w ev).
Proof.
  intros Hwf. destruct ev; simpl.
  - by apply wf_loadData.
  - by apply loadMultiple_spec.
  - by apply preload_spec.
  - by apply wf_clearCache.
  - by apply wf_transport_settles.
Qed.

Lemma evolves_step w ev : wf w → evolves w (step w ev).
Proof.
  intros Hwf. destruct ev; simpl.
  - apply evolves_loadData.
  - by apply loadMultiple_spec.
  - by apply preload_spec.
  - apply evolves_clearCache.
  - apply evolves_transport_settles.
Qed.

Lemma run_snoc evs ev w : run (evs ++ [ev]) w = step (run evs w) ev.
Proof. unfold run. by rewrite foldl_snoc. Qed.

Lemma run_app evs1 evs2 w : run (evs1 ++ evs2) w = run evs2 (run evs1 w).
Proof. unfold run. by rewrite foldl_app. Qed.

Lemma wf_run evs : ∀ w, wf w → wf (run evs w).
Proof.
  induction evs as [|ev evs IH]; intros w Hwf; [done|].
  simpl. by apply IH, wf_step.
Qed.

Lemma evolves_run evs : ∀ w, wf w → evolves w (run evs w).
Proof.
  induction evs as [|ev evs IH]; intros w Hwf; [apply evolves_refl|].
  simpl. eapply evolves_trans; [by apply evolves_step|].
  by apply IH, wf_step.
Qed.

Lemma reachable_wf w : reachable w → wf w.
Proof. intros [evs ->]. apply wf_run, wf_init. Qed.

Lemma reachable_step w ev : reachable w → reachable (step w ev).
Proof. intros [evs ->]. exists (evs ++ [ev]). by rewrite run_snoc. Qed.

Lemma reachable_run evs w : reachable w → reachable (run evs w).
Proof. intros [evs0 ->]. exists (evs0 ++ evs). by rewrite run_app. Qed.

(** ** Callers of an in-flight fetch *)

Lemma waits_on_local w i s k useCache p t :
  wf w → promises w !! i = Some (s, t) → waits_on k useCache p t →
  promises w !! p = Some (s, FetchData k).
Proof.
  intros Hwf Hi [-> | ->]; by destruct (wf_local _ Hwf _ _ _ Hi).
Qed.

Lemma in_flight_lookup w k p :
  wf w → loadingStates w !! k = Some p →
  promises w !! p = Some (Pending, FetchData k).
Proof. intros Hwf. apply (wf_marker _ Hwf). Qed.

Lemma caller_pending w k p i useCache t :
  wf w → loadingStates w !! k = Some p →
  task_of w i = Some t → waits_on k useCache p t → state w i = Pending.
Proof.
  intros Hwf Hp%in_flight_lookup Ht Hw; [|done].
  assert (Hi : promises w !! i = Some (state w i, t))
    by by apply promises_lookup_iff.
  pose proof (waits_on_local _ _ _ _ _ _ _ Hwf Hi Hw) as Hp'.
  rewrite Hp in Hp'. by injection Hp'.
Qed.

(** Everything the loader and its callers can observe of one answer of the
    transport. *)
Lemma transport_settles_spec w k p t :
  wf w → loadingStates w !! k = Some p →
  let w' := transport_settles p t w in
  ∃ useCache,
    task_of w (S p) = Some (LoadData_awaiting k useCache p) ∧
    wf w' ∧ evolves w w' ∧
    loadingStates w' = delete k (loadingStates w) ∧
    cache w' = cache_after w k useCache (settled_state t) ∧
    fetched w' = fetched w ∧
    (∀ i uc t', task_of w i = Some t' → waits_on k uc p t' →
                state w' i = settled_state t) ∧
    (∀ j e, state w j = Pending → state w' j = Rejected e →
            settled_state t = Rejected e).
Proof.
  intros Hwf Hl w'. pose proof (in_flight_lookup _ _ _ Hwf Hl) as Hp.
  destruct (wf_in_flight _ _ _ Hwf Hp) as [uc Ha]. exists uc.
  pose proof (transport_settles_dinv w p k uc t Hwf Hp Ha) as D.
  pose proof (settled_state_settled t) as Hs.
  pose proof (dinv_wf w p k uc _ Hwf Hp Ha Hs _ D) as Hwf'.
  fold w' in D, Hwf'.
  split; [by apply promises_lookup_iff in Ha as [_ ?]|].
  split; [done|]. split; [apply evolves_transport_settles|].
  split; [apply (d_loading _ _ _ _ _ _ _ D)|].
  split; [apply (d_cache _ _ _ _ _ _ _ D)|].
  split; [apply (d_fetched _ _ _ _ _ _ _ D)|].
  split; [|apply (d_new _ _ _ _ _ _ _ D)].
  intros i uc' t' Ht' Hw.
  assert (Hi : promises w' !! i = Some (state w' i, t')).
  { apply promises_lookup_iff. split; [done|].
    by rewrite (d_task _ _ _ _ _ _ _ D). }
  pose proof (waits_on_local _ _ _ _ _ _ _ Hwf' Hi Hw) as Hp'.
  apply promises_lookup_iff in Hp' as [Hp' _].
  by rewrite <- Hp', (d_fetch _ _ _ _ _ _ _ D).
Qed.

(** ** What a call leaves alone *)

Lemma invocations_call_fetch k k' w :
  invocations k (call_fetch k' w)
  = if decide (k' = k) then S (invocations k w) else invocations k w.
Proof.
  unfold invocations. simpl. rewrite filter_app, length_app.
  destruct (decide (k' = k)) as [->|Hne].
  - rewrite filter_cons_True by done. simpl. lia.
  - rewrite filter_cons_False by done. simpl. lia.
Qed.

Lemma same_loader_trans w1 w2 w3 :
  same_loader w1 w2 → same_loader w2 w3 → same_loader w1 w3.
Proof. intros (? & ? & ?) (? & ? & ?). repeat split; congruence. Qed.

Lemma spawn_same_loader t w :
  (∀ k useCache p, t ≠ LoadData_awaiting k useCache p) →
  same_loader w (spawn t w).2.
Proof.
  intros Ht. unfold spawn. simpl.
  destruct (react_maps (length (promises w)) (push Pending t w)) as [Hc Hl].
  { intros k uc p. rewrite push_lookup_new. intros [= ->]. by destruct (Ht k uc p). }
  split; [by rewrite Hc|]. split; [by rewrite Hl|]. by rewrite react_fetched.
Qed.

Lemma loadData_not_started w k useCache :
  wf w →
  is_Some (served_from_cache k useCache w) ∨ is_Some (loadingStates w !! k) →
  same_loader w (loadData k useCache w).2.
Proof.
  intros Hwf Hor.
  destruct (served_from_cache k useCache w) as [v|] eqn:Hc.
  { unfold served_from_cache in Hc. destruct useCache; [|done].
    by rewrite (loadData_cached _ _ v). }
  destruct Hor as [[? [=]]|[p Hl]].
  by rewrite (loadData_joined _ _ _ p).
Qed.

(** While the fetch of [k] is in flight no call starts another one. *)
Lemma loadData_keeps w k p k' useCache :
  wf w → loadingStates w !! k = Some p →
  loadingStates (loadData k' useCache w).2 !! k = Some p ∧
  invocations k (loadData k' useCache w).2 = invocations k w.
Proof.
  intros Hwf Hl.
  destruct (served_from_cache k' useCache w) as [v|] eqn:Hc.
  { destruct (loadData_not_started w k' useCache Hwf) as (_ & -> & Hf).
    - left. by rewrite Hc.
    - unfold invocations. by rewrite Hf. }
  destruct (loadingStates w !! k') as [p'|] eqn:Hl'.
  { destruct (loadData_not_started w k' useCache Hwf) as (_ & -> & Hf).
    - right. by rewrite Hl'.
    - unfold invocations. by rewrite Hf. }
  rewrite loadData_started by done.
  assert (k' ≠ k) by congruence. split.
  - simpl. by rewrite lookup_insert_ne.
  - unfold started, invocations. simpl. rewrite filter_app, length_app.
    rewrite filter_cons_False by done. simpl. lia.
Qed.

Lemma map_loadData_keeps urls useCache k p : ∀ w,
  wf w → loadingStates w !! k = Some p →
  loadingStates (map_loadData urls useCache w).2 !! k = Some p ∧
  invocations k (map_loadData urls useCache w).2 = invocations k w.
Proof.
  induction urls as [|k' urls IH]; intros w Hwf Hl; simpl; [done|].
  destruct (loadData_keeps w k p k' useCache Hwf Hl) as [Hl1 Hi1].
  pose proof (wf_loadData w k' useCache Hwf) as Hwf1.
  destruct (loadData k' useCache w) as [q w1]. cbn [fst snd] in *.
  destruct (IH w1 Hwf1 Hl1) as [Hl2 Hi2].
  destruct (map_loadData urls useCache w1) as [ps w2]. cbn [fst snd] in *.
  split; [done|congruence].
Qed.

Lemma loadMultiple_keeps urls useCache k p w :
  wf w → loadingStates w !! k = Some p →
  loadingStates (loadMultiple urls useCache w).2 !! k = Some p ∧
  invocations k (loadMultiple urls useCache w).2 = invocations k w.
Proof.
  intros Hwf Hl. unfold loadMultiple.
  destruct (map_loadData_keeps urls useCache k p w Hwf Hl) as [Hl1 Hi1].
  destruct (map_loadData urls useCache w) as [ps w1]. cbn [fst snd] in *.
  destruct (spawn_same_loader (PromiseAll ps) w1) as (_ & Hl2 & Hf2);
    [done|].
  destruct (spawn (PromiseAll ps) w1) as [q w2]. cbn [fst snd] in *.
  destruct (spawn_same_loader (LoadMultiple q) w2) as (_ & Hl3 & Hf3);
    [done|].
  unfold invocations in *. rewrite Hl3, Hl2, Hf3, Hf2. done.
Qed.

Lemma preload_keeps urls k p w :
  wf w → loadingStates w !! k = Some p →
  loadingStates (preload urls w).2 !! k = Some p ∧
  invocations k (preload urls w).2 = invocations k w.
Proof.
  intros Hwf Hl. unfold preload.
  destruct (loadMultiple_keeps urls true k p w Hwf Hl) as [Hl1 Hi1].
  destruct (loadMultiple urls true w) as [r w1]. cbn [fst snd] in *.
  destruct (spawn_same_loader (Preload r) w1) as (_ & Hl2 & Hf2); [done|].
  unfold invocations in *. rewrite Hl2, Hf2. done.
Qed.

Lemma step_keeps w ev k p :
  wf w → loadingStates w !! k = Some p → not_settling p ev = true →
  loadingStates (step w ev) !! k = Some p ∧
  invocations k (step w ev) = invocations k w.
Proof.
  intros Hwf Hl Hev. destruct ev as [k' uc|urls uc|urls|u|q t]; simpl.
  - by apply loadData_keeps.
  - by apply loadMultiple_keeps.
  - by apply preload_keeps.
  - unfold clearCache. destruct u; [case_bool_decide|]; done.
  - simpl in Hev. apply negb_true_iff, Nat.eqb_neq in Hev.
    destruct (promises w !! q) as [[[] []]|] eqn:Hq;
      try (rewrite transport_settles_idle; [done|]; intros k'; by rewrite Hq).
    apply (wf_marker _ Hwf) in Hq as Hlq.
    destruct (transport_settles_spec w url q t Hwf Hlq)
      as (uc & _ & _ & _ & Hl' & _ & Hf & _).
    split.
    + rewrite Hl'. rewrite lookup_delete_ne; [done|]. congruence.
    + unfold invocations. by rewrite Hf.
Qed.

Lemma run_keeps evs k p : ∀ w,
  wf w → loadingStates w !! k = Some p →
  forallb (not_settling p) evs = true →
  loadingStates (run evs w) !! k = Some p ∧
  invocations k (run evs w) = invocations k w.
Proof.
  induction evs as [|ev evs IH]; intros w Hwf Hl Hq; [done|].
  simpl in Hq. apply andb_true_iff in Hq as [Hev Hq]. simpl.
  destruct (step_keeps w ev k p Hwf Hl Hev) as [Hl1 Hi1].
  destruct (IH (step w ev) (wf_step _ _ Hwf) Hl1 Hq) as [Hl2 Hi2].
  split; [done|congruence].
Qed.

(** * The claims *)

Lemma reachable_trace evs : reachable (run evs init).
Proof. by exists evs. Defined.

Lemma started_spec w k useCache :
  let p := length (promises w) in
  loadingStates (started k useCache w) !! k = Some p ∧
  invocations k (started k useCache w) = S (invocations k w) ∧
  task_of (started k useCache w) (S p)
  = Some (LoadData_awaiting k useCache p).
Proof.
  intros p. split; [simpl; by rewrite lookup_insert_eq|]. split.
  - unfold started, invocations. simpl. rewrite filter_app, length_app.
    rewrite filter_cons_True by done. simpl. lia.
  - unfold task_of, started.
    replace (S p) with (length (promises (set_loadingStates
              (λ l, <[k := p]> l)
              (push Pending (FetchData k) (call_fetch k w))))).
    + by rewrite push_lookup_new.
    + simpl. rewrite length_app. simpl. lia.
Qed.

(** C1 (in-flight join).  A call [loadData(k, uc1)] that is not served from
    the cache starts the fetch of [k]; [p] is the promise of that fetch.
    Whatever happens next short of the transport answering [p] (in
    particular any number of further calls for [k] or for other keys,
    [evs1] and [evs2]), a second call [loadData(k, uc2)] that is not served
    from the cache joins the fetch: when the transport answers, [fetch(k)]
    has been called exactly once more than before the first call, both
    calls were pending until then, and both, like every other caller waiting
    on [p], end in the one state [settled_state t], the same value or the
    same error. *)
Theorem C1_in_flight_join w0 k uc1 uc2 a w1 evs1 b w3 evs2 t :
  reachable w0 →
  loadingStates w0 !! k = None →
  served_from_cache k uc1 w0 = None →
  loadData k uc1 w0 = (a, w1) →
  let p := length (promises w0) in
  forallb (not_settling p) evs1 = true →
  served_from_cache k uc2 (run evs1 w1) = None →
  loadData k uc2 (run evs1 w1) = (b, w3) →
  forallb (not_settling p) evs2 = true →
  let w4 := run evs2 w3 in
  let w5 := transport_settles p t w4 in
  a ≠ b ∧
  loadingStates w4 !! k = Some p ∧
  invocations k w4 = S (invocations k w0) ∧
  invocations k w5 = S (invocations k w0) ∧
  state w4 a = Pending ∧ state w4 b = Pending ∧
  state w5 a = settled_state t ∧ state w5 b = settled_state t ∧
  ∀ i uc t', task_of w4 i = Some t' → waits_on k uc p t' →
             state w4 i = Pending ∧ state w5 i = settled_state t.
Proof.
  intros Hwf0%reachable_wf Hl0 Hc1 Ha p Hq1 Hc2 Hb Hq2 w4 w5.
  rewrite loadData_started in Ha by done. injection Ha as <- <-.
  destruct (started_spec w0 k uc1) as (Hl1 & Hi1 & Ht1). fold p in Hl1, Ht1.
  assert (Hwf1 : wf (started k uc1 w0)) by by apply wf_started.
  set (w1 := started k uc1 w0) in *. set (w2 := run evs1 w1) in *.
  assert (Hwf2 : wf w2) by by apply wf_run.
  destruct (run_keeps evs1 k p w1 Hwf1 Hl1 Hq1) as [Hl2 Hi2]. fold w2 in Hl2, Hi2.
  rewrite (loadData_joined _ _ _ p) in Hb by done. injection Hb as <- <-.
  set (w3 := push Pending (LoadData_joined k uc2 p) w2) in *.
  assert (Hwf3 : wf w3).
  { pose proof (wf_loadData w2 k uc2 Hwf2) as H.
    by rewrite (loadData_joined _ _ _ p) in H. }
  assert (Hl3 : loadingStates w3 !! k = Some p) by done.
  destruct (run_keeps evs2 k p w3 Hwf3 Hl3 Hq2) as [Hl4 Hi4]. fold w4 in Hl4, Hi4.
  assert (Hwf4 : wf w4) by by apply wf_run.
  assert (E12 : evolves w1 w2) by by apply evolves_run.
  assert (E34 : evolves w3 w4) by by apply evolves_run.
  assert (E23 : evolves w2 w3) by apply evolves_push.
  assert (Hta : task_of w4 (S p) = Some (LoadData_awaiting k uc1 p)).
  { by apply (ev_task _ _ E34), (ev_task _ _ E23), (ev_task _ _ E12). }
  assert (Htb : task_of w4 (length (promises w2))
                = Some (LoadData_joined k uc2 p)).
  { apply (ev_task _ _ E34). unfold task_of. subst w3.
    by rewrite push_lookup_new. }
  destruct (transport_settles_spec w4 k p t Hwf4 Hl4)
    as (uc & _ & Hwf5 & _ & _ & _ & Hf5 & Hcallers & _). fold w5 in Hwf5, Hf5, Hcallers.
  assert (Hlen : S p < length (promises w2)).
  { apply (ev_task _ _ E12) in Ht1. by apply task_of_lt in Ht1. }
  split; [lia|]. split; [done|].
  split; [unfold invocations in *; simpl in *; congruence|].
  split; [unfold invocations in *; simpl in *; congruence|].
  split; [apply (caller_pending w4 k p _ uc1 _ Hwf4 Hl4 Hta); by left|].
  split; [apply (caller_pending w4 k p _ uc2 _ Hwf4 Hl4 Htb); by right|].
  split; [apply (Hcallers _ uc1 _ Hta); by left|].
  split; [apply (Hcallers _ uc2 _ Htb); by right|].
  intros i uc' t' Ht' Hw. split; [by eapply caller_pending|by eapply Hcallers].
Qed.

Lemma C1_in_flight_join_witness :
  let w4 := run [Call_loadData "a" true; Call_loadData "b" true;
                 Call_loadData "a" false; Call_loadData "a" true] init in
  let w5 := transport_settles 0 (ok_json (Str "A")) w4 in
  invocations "a" w5 = 1 ∧ state w5 1 = state w5 4.
Proof.
  intros w4 w5.
  destruct (C1_in_flight_join init "a" true false 1
              (loadData "a" true init).2 [Call_loadData "b" true] 4
              (run [Call_loadData "a" true; Call_loadData "b" true;
                    Call_loadData "a" false] init)
              [Call_loadData "a" true] (ok_json (Str "A")))
    as (_ & _ & _ & Hi & _ & _ & Ha & Hb & _).
  - apply (reachable_trace []).
  - vm_compute. reflexivity.
  - vm_compute. reflexivity.
  - vm_compute. reflexivity.
  - vm_compute. reflexivity.
  - vm_compute. reflexivity.
  - vm_compute. reflexivity.
  - vm_compute. reflexivity.
  - split; [exact Hi|]. exact (eq_trans Ha (eq_sym Hb)).
Defined.

(** A call that is neither served from the cache nor joining calls the
    transport once. *)
Lemma loadData_invokes w k useCache :
  served_from_cache k useCache w = None → loadingStates w !! k = None →
  invocations k (loadData k useCache w).2 = S (invocations k w) ∧
  fetched (loadData k useCache w).2 = fetched w ++ [k] ∧
  state (loadData k useCache w).2 (loadData k useCache w).1 = Pending.
Proof.
  intros Hc Hl. rewrite loadData_started by done. cbn [fst snd].
  destruct (started_spec w k useCache) as (_ & Hi & Ht).
  split; [done|]. split; [done|].
  unfold task_of in Ht. unfold state.
  destruct (promises (started k useCache w) !! S (length (promises w)))
    as [[s t]|] eqn:Hp; [|done].
  unfold started in Hp. simpl in Hp. rewrite <- app_assoc in Hp.
  rewrite lookup_app_r in Hp by lia.
  replace (S (length (promises w)) - length (promises w)) with 1 in Hp by lia.
  by injection Hp as <- <-.
Qed.




Lemma settled_state_rejects t e :
  fetchData_result t = Rejects e → settled_state t = Rejected e.
Proof. unfold settled_state. by intros ->. Qed.

Lemma settled_state_resolves t v :
  fetchData_result t = Resolves v → settled_state t = Fulfilled v.
Proof. unfold settled_state. by intros ->. Qed.

(** A caching call waiting on a fetch found nothing in the cache, and
    nothing has been stored since. *)
Lemma caching_caller_miss w k p i t :
  wf w → loadingStates w !! k = Some p →
  task_of w i = Some t → waits_on k true p t → cache w !! k = None.
Proof.
  intros Hwf Hl Ht Hw.
  pose proof (caller_pending w k p i true t Hwf Hl Ht Hw) as Hs.
  assert (Hi : promises w !! i = Some (Pending, t))
    by by apply promises_lookup_iff.
  destruct Hw as [-> | ->].
  - destruct (wf_local _ Hwf _ _ _ Hi) as [-> _]. by apply (wf_miss _ Hwf p).
  - by apply (wf_joined_miss _ Hwf i k p).
Qed.

(** C3, as stated, fails in one case: the failed fetch was started by a
    cache-bypassing call while [k] was already cached.  Here
    [loadData("a", true)] succeeds and stores 1; [loadData("a", false)]
    starts a second fetch (promise 2, call promise 3), which the transport
    fails with status 404; the marker is gone and the cache unchanged, but
    the next [loadData("a")] is served from the cache and [fetch] is not
    called. *)
Lemma C3_counterexample :
  let w := run [Call_loadData "a" true; Transport 0 (ok_json (Num 1));
                Call_loadData "a" false] init in
  let w' := transport_settles 2 not_found w in
  let w'' := (loadData "a" true w').2 in
  loadingStates w !! "a" = Some 2 ∧
  state w' 3 = Rejected (http_error 404) ∧
  loadingStates w' !! "a" = None ∧
  cache w' = cache w ∧
  fetched w'' = fetched w' ∧
  state w'' (loadData "a" true w').1 = Fulfilled (Num 1).
Proof. vm_compute. repeat split; reflexivity. Qed.

(** C3, amended.  When the transport fails the fetch of [k] in flight: the
    call that started it exists; the marker of [k] is gone; the cache is
    what it was; every call waiting on the fetch, pending until then, is
    rejected with the error [e] of the fetch; and a later
    [loadData(k, uc)] calls the transport again whenever it is not served
    from the cache, which is always so when one of the failed calls was a
    caching one ([useCache] true). *)
Theorem C3_failure_allows_retry w k p t e :
  reachable w →
  loadingStates w !! k = Some p →
  fetchData_result t = Rejects e →
  let w' := transport_settles p t w in
  (∃ uc0, task_of w (S p) = Some (LoadData_awaiting k uc0 p)) ∧
  loadingStates w' !! k = None ∧
  cache w' = cache w ∧
  invocations k w' = invocations k w ∧
  (∀ uc, served_from_cache k uc w' = None →
         invocations k (loadData k uc w').2 = S (invocations k w')) ∧
  (∀ i uc0 t', task_of w i = Some t' → waits_on k uc0 p t' →
     state w i = Pending ∧ state w' i = Rejected e ∧
     (uc0 = true →
      ∀ uc, invocations k (loadData k uc w').2 = S (invocations k w'))).
Proof.
  intros Hwf%reachable_wf Hl Ht w'.
  destruct (transport_settles_spec w k p t Hwf Hl)
    as (uc0 & Huc & Hwf' & _ & Hl' & Hc' & Hf' & Hcallers & _).
  fold w' in Hwf', Hl', Hc', Hf', Hcallers.
  rewrite (settled_state_rejects _ _ Ht) in Hc', Hcallers.
  assert (Hnone : loadingStates w' !! k = None).
  { rewrite Hl'. apply lookup_delete_eq. }
  assert (Hretry : ∀ uc, served_from_cache k uc w' = None →
            invocations k (loadData k uc w').2 = S (invocations k w')).
  { intros uc Hs. by apply loadData_invokes. }
  split; [by exists uc0|]. split; [done|]. split; [done|].
  split; [unfold invocations; by rewrite Hf'|]. split; [done|].
  intros i uci t' Ht' Hw.
  split; [by eapply caller_pending|]. split; [by eapply Hcallers|].
  intros -> uc. apply Hretry. unfold served_from_cache.
  destruct uc; [|done]. rewrite Hc'. by eapply caching_caller_miss.
Qed.

Lemma C3_failure_allows_retry_witness :
  let w := run [Call_loadData "a" true; Call_loadData "a" false] init in
  let w' := transport_settles 0 not_found w in
  loadingStates w' !! "a" = None ∧ cache w' = cache w ∧
  state w' 1 = Rejected (http_error 404) ∧
  state w' 2 = Rejected (http_error 404) ∧
  invocations "a" (loadData "a" true w').2 = 2.
Proof.
  intros w w'.
  destruct (C3_failure_allows_retry w "a" 0 not_found (http_error 404))
    as (_ & Hl & Hc & _ & _ & Hcallers).
  - apply reachable_trace.
  - vm_compute. reflexivity.
  - vm_compute. reflexivity.
  - split; [exact Hl|]. split; [exact Hc|].
    destruct (Hcallers 1 true (LoadData_awaiting "a" true 0))
      as (_ & H1 & Hretry); [vm_compute; reflexivity|by left|].
    destruct (Hcallers 2 false (LoadData_joined "a" false 0))
      as (_ & H2 & _); [vm_compute; reflexivity|by right|].
    split; [exact H1|]. split; [exact H2|].
    exact (Hretry eq_refl true).
Defined.

(** C4, as stated, fails: a caching call that joins a fetch started by a
    cache-bypassing call succeeds without anything being stored, and the
    second caching call goes to the transport.  Here [loadData("a", false)]
    starts the fetch (promise 0), [loadData("a", true)] joins it (promise
    2) and is fulfilled with 1; the second [loadData("a", true)] (promise 4)
    calls [fetch("a")] again and is pending. *)
Lemma C4_counterexample :
  let w := run [Call_loadData "a" false] init in
  let a := (loadData "a" true w).1 in
  let w1 := (loadData "a" true w).2 in
  let w2 := transport_settles 0 (ok_json (Num 1)) w1 in
  let b := (loadData "a" true w2).1 in
  let w3 := (loadData "a" true w2).2 in
  state w2 a = Fulfilled (Num 1) ∧
  cache w2 !! "a" = None ∧
  fetched w2 = ["a"] ∧ fetched w3 = ["a"; "a"] ∧
  state w3 b = Pending.
Proof. vm_compute. repeat split; reflexivity. Qed.

(** ** Cached entries persist *)

Lemma loadData_cache w k useCache :
  wf w → cache (loadData k useCache w).2 = cache w.
Proof.
  intros Hwf.
  destruct (served_from_cache k useCache w) as [v|] eqn:Hc.
  { apply (loadData_not_started w k useCache Hwf). left. by rewrite Hc. }
  destruct (loadingStates w !! k) as [p|] eqn:Hl.
  { apply (loadData_not_started w k useCache Hwf). right. by rewrite Hl. }
  by rewrite loadData_started.
Qed.

Lemma map_loadData_cache urls useCache : ∀ w,
  wf w → cache (map_loadData urls useCache w).2 = cache w.
Proof.
  induction urls as [|k urls IH]; intros w Hwf; simpl; [done|].
  pose proof (loadData_cache w k useCache Hwf) as Hc1.
  pose proof (wf_loadData w k useCache Hwf) as Hwf1.
  destruct (loadData k useCache w) as [q w1]. cbn [fst snd] in *.
  pose proof (IH w1 Hwf1) as Hc2.
  destruct (map_loadData urls useCache w1) as [ps w2]. cbn [fst snd] in *.
  congruence.
Qed.

Lemma loadMultiple_cache urls useCache w :
  wf w → cache (loadMultiple urls useCache w).2 = cache w.
Proof.
  intros Hwf. unfold loadMultiple.
  pose proof (map_loadData_cache urls useCache w Hwf) as Hc1.
  destruct (map_loadData urls useCache w) as [ps w1]. cbn [fst snd] in *.
  destruct (spawn_same_loader (PromiseAll ps) w1) as (Hc2 & _); [done|].
  destruct (spawn (PromiseAll ps) w1) as [q w2]. cbn [fst snd] in *.
  destruct (spawn_same_loader (LoadMultiple q) w2) as (Hc3 & _); [done|].
  congruence.
Qed.

Lemma preload_cache urls w : wf w → cache (preload urls w).2 = cache w.
Proof.
  intros Hwf. unfold preload.
  pose proof (loadMultiple_cache urls true w Hwf) as Hc1.
  destruct (loadMultiple urls true w) as [r w1]. cbn [fst snd] in *.
  destruct (spawn_same_loader (Preload r) w1) as (Hc2 & _); [done|].
  congruence.
Qed.

(** Only [clearCache] removes or replaces what the cache holds. *)
Lemma step_cache_persists w ev k v :
  wf w → cache w !! k = Some v → not_clearing ev = true →
  cache (step w ev) !! k = Some v.
Proof.
  intros Hwf Hc Hev. destruct ev as [k' uc|urls uc|urls|u|q t]; simpl.
  - by rewrite loadData_cache.
  - by rewrite loadMultiple_cache.
  - by rewrite preload_cache.
  - done.
  - destruct (promises w !! q) as [[[] []]|] eqn:Hq;
      try (rewrite transport_settles_idle; [done|]; intros k'; by rewrite Hq).
    apply (wf_marker _ Hwf) in Hq as Hlq.
    destruct (transport_settles_spec w url q t Hwf Hlq)
      as (uc & Huc & _ & _ & _ & -> & _).
    unfold cache_after. destruct (settled_state t); try done.
    destruct uc; [|done].
    rewrite lookup_insert_ne; [done|]. intros ->.
    assert (cache w !! k = None); [|congruence].
    eapply (caching_caller_miss w k q); [done..|by left].
Qed.

Lemma run_cache_persists evs k v : ∀ w,
  wf w → cache w !! k = Some v → forallb not_clearing evs = true →
  cache (run evs w) !! k = Some v.
Proof.
  induction evs as [|ev evs IH]; intros w Hwf Hc Hq; [done|].
  simpl in Hq. apply andb_true_iff in Hq as [Hev Hq]. simpl.
  apply IH; [by apply wf_step|by apply step_cache_persists|done].
Qed.

(** C4, amended.  When the fetch of [k] in flight was started by a caching
    call and the transport answers with [v]: every call waiting on the
    fetch is fulfilled with [v] and [v] is stored; then, whatever happens
    next short of [clearCache] ([evs]), a call [loadData(k, true)] is
    fulfilled with that same [v] at once, without calling the transport and
    without touching the loader's maps. *)
Theorem C4_cache_hit w k p t v evs :
  reachable w →
  loadingStates w !! k = Some p →
  task_of w (S p) = Some (LoadData_awaiting k true p) →
  fetchData_result t = Resolves v →
  forallb not_clearing evs = true →
  let w1 := transport_settles p t w in
  let w2 := run evs w1 in
  let b := (loadData k true w2).1 in
  let w3 := (loadData k true w2).2 in
  (∀ i uc t', task_of w i = Some t' → waits_on k uc p t' →
              state w1 i = Fulfilled v) ∧
  cache w1 !! k = Some v ∧
  cache w2 !! k = Some v ∧
  state w3 b = Fulfilled v ∧
  fetched w3 = fetched w2 ∧
  cache w3 = cache w2 ∧ loadingStates w3 = loadingStates w2.
Proof.
  intros Hwf%reachable_wf Hl Ht Hv Hq w1 w2 b w3.
  destruct (transport_settles_spec w k p t Hwf Hl)
    as (uc & Huc & Hwf1 & _ & _ & Hc1 & _ & Hcallers & _).
  fold w1 in Hwf1, Hc1, Hcallers.
  rewrite Ht in Huc. injection Huc as <-.
  rewrite (settled_state_resolves _ _ Hv) in Hc1, Hcallers.
  assert (Hk1 : cache w1 !! k = Some v).
  { rewrite Hc1. simpl. apply lookup_insert_eq. }
  assert (Hk2 : cache w2 !! k = Some v) by by apply run_cache_persists.
  split; [done|]. split; [done|]. split; [done|].
  subst b w3. rewrite (loadData_cached _ _ v) by done. cbn [fst snd].
  split; [|done]. unfold state. by rewrite push_lookup_new.
Qed.

Lemma C4_cache_hit_witness :
  let w1 := run [Call_loadData "a" true; Call_loadData "a" false;
                 Transport 0 (ok_json (Num 1))] init in
  let w2 := run [Call_loadData "a" false; Transport 3 not_found] w1 in
  let w3 := (loadData "a" true w2).2 in
  state w1 1 = Fulfilled (Num 1) ∧ state w1 2 = Fulfilled (Num 1) ∧
  state w3 (loadData "a" true w2).1 = Fulfilled (Num 1) ∧
  fetched w3 = fetched w2.
Proof.
  intros w1 w2 w3.
  destruct (C4_cache_hit
              (run [Call_loadData "a" true; Call_loadData "a" false] init)
              "a" 0 (ok_json (Num 1)) (Num 1)
              [Call_loadData "a" false; Transport 3 not_found])
    as (Hcallers & _ & _ & Hb & Hf & _).
  - apply reachable_trace.
  - vm_compute. reflexivity.
  - vm_compute. reflexivity.
  - vm_compute. reflexivity.
  - vm_compute. reflexivity.
  - split; [apply (Hcallers 1 true (LoadData_awaiting "a" true 0));
            [vm_compute; reflexivity|by left]|].
    split; [apply (Hcallers 2 false (LoadData_joined "a" false 0));
            [vm_compute; reflexivity|by right]|].
    split; [exact Hb|exact Hf].
Defined.

(** C5 (the starting call's flag decides).  When the transport answers the
    fetch of [k] with [v], what happens to the cache depends only on the
    [useCache] flag [uc0] of the call that started the fetch.  If that call
    bypassed the cache, a caching call [i] that joined the fetch is
    fulfilled with [v] but nothing is stored, [k] is not in the cache, and
    the next [loadData(k, true)] calls the transport again. *)
Theorem C5_initiator_flag_decides w k p uc0 t v :
  reachable w →
  loadingStates w !! k = Some p →
  task_of w (S p) = Some (LoadData_awaiting k uc0 p) →
  fetchData_result t = Resolves v →
  let w' := transport_settles p t w in
  cache w' = (if uc0 then <[k := v]> (cache w) else cache w) ∧
  (uc0 = false →
   ∀ i, task_of w i = Some (LoadData_joined k true p) →
        state w i = Pending ∧
        state w' i = Fulfilled v ∧
        cache w' !! k = None ∧
        invocations k (loadData k true w').2 = S (invocations k w') ∧
        state (loadData k true w').2 (loadData k true w').1 = Pending).
Proof.
  intros Hwf%reachable_wf Hl Ht Hv w'.
  destruct (transport_settles_spec w k p t Hwf Hl)
    as (uc & Huc & Hwf1 & _ & Hl1 & Hc1 & _ & Hcallers & _).
  fold w' in Hwf1, Hl1, Hc1, Hcallers.
  rewrite Ht in Huc. injection Huc as <-.
  rewrite (settled_state_resolves _ _ Hv) in Hc1, Hcallers.
  split; [done|]. intros -> i Hi.
  assert (Hw : waits_on k true p (LoadData_joined k true p)) by by right.
  assert (Hmiss : cache w' !! k = None).
  { rewrite Hc1. simpl. by eapply caching_caller_miss. }
  split; [by eapply caller_pending|]. split; [by eapply Hcallers|].
  split; [done|].
  destruct (loadData_invokes w' k true) as (Hi' & _ & Hs'); [done| |done].
  rewrite Hl1. apply lookup_delete_eq.
Qed.

Lemma C5_initiator_flag_decides_witness :
  let w := run [Call_loadData "a" false; Call_loadData "a" true] init in
  let w' := transport_settles 0 (ok_json (Num 1)) w in
  state w' 2 = Fulfilled (Num 1) ∧ cache w' !! "a" = None ∧
  invocations "a" (loadData "a" true w').2 = 2.
Proof.
  intros w w'.
  destruct (C5_initiator_flag_decides w "a" 0 false (ok_json (Num 1)) (Num 1))
    as (_ & H).
  - apply reachable_trace.
  - vm_compute. reflexivity.
  - vm_compute. reflexivity.
  - vm_compute. reflexivity.
  - destruct (H eq_refl 2) as (_ & Hs & Hc & Hi & _);
      [vm_compute; reflexivity|].
    split; [exact Hs|]. split; [exact Hc|exact Hi].
Defined.

(** ** loadMultiple *)

Lemma loads_resource w k i x :
  wf w → loads w k i → state w i = Fulfilled x → resource w k x.
Proof.
  intros Hwf (t & Ht & Hk) Hs.
  assert (Hi : promises w !! i = Some (Fulfilled x, t))
    by by apply promises_lookup_iff.
  pose proof (wf_local _ Hwf _ _ _ Hi) as Hl.
  destruct t; simpl in Hk; try done; injection Hk as ->; simpl in Hl.
  - destruct Hl as (v & p & [= <-] & _ & Hp). by exists p.
  - destruct Hl as [_ Hp]. by exists p.
  - destruct Hl as [_ Hp]. by exists p.
Qed.

Lemma fmap_eq_Forall2 {A B C} (f : A → C) (g : B → C) l k :
  f <$> l = g <$> k → Forall2 (λ a b, f a = g b) l k.
Proof.
  revert k. induction l as [|a l IH]; intros [|b k]; simpl; try done.
  intros [= Hab Hlk]. constructor; [done|by apply IH].
Qed.

(** The promises behind a [loadMultiple] call, in any later world. *)
Lemma loadMultiple_promises urls useCache w :
  wf w →
  let r := (loadMultiple urls useCache w).1 in
  let w1 := (loadMultiple urls useCache w).2 in
  let ps := (map_loadData urls useCache w).1 in
  Forall2 (loads w1) urls ps ∧
  ∀ w2, wf w2 → evolves w1 w2 →
        Forall2 (loads w2) urls ps ∧
        all_ok (state w2 r) (state w2 <$> ps).
Proof.
  intros Hwf r w1 ps.
  destruct (loadMultiple_spec urls useCache w Hwf)
    as (Hwf1 & _ & q & Hps & Hq & Hr & _).
  fold r w1 ps in Hwf1, Hps, Hq, Hr.
  split; [done|]. intros w2 Hwf2 E. split.
  { eapply Forall2_impl; [exact Hps|]. intros k i. by apply loads_evolves. }
  apply (ev_task _ _ E) in Hq, Hr.
  assert (Hri : promises w2 !! r = Some (state w2 r, LoadMultiple q))
    by by apply promises_lookup_iff.
  destruct (wf_local _ Hwf2 _ _ _ Hri) as [_ Hrq].
  assert (Hqi : promises w2 !! q = Some (state w2 q, PromiseAll ps))
    by by apply promises_lookup_iff.
  destruct (wf_local _ Hwf2 _ _ _ Hqi) as [_ Hall]. by rewrite Hrq in Hall.
Qed.

(** An aggregate with a rejected input is rejected, with the error of one
    of its inputs. *)
Lemma all_ok_rejected s ss e :
  all_ok s ss → Rejected e ∈ ss → ∃ e', s = Rejected e' ∧ Rejected e' ∈ ss.
Proof.
  intros Hall Hin. destruct s as [|v|e']; simpl in Hall.
  - apply promise_all_pending in Hall as [Hnr _]. by destruct (Hnr e).
  - destruct Hall as (vs & _ & ->).
    apply list_elem_of_fmap in Hin as (? & ? & _). done.
  - by exists e'.
Qed.



(** C7 (all or nothing).  After a call [loadMultiple(urls, useCache)], with
    one [loadData] promise per key ([ps]), in every later world: if one of
    these promises is rejected, the promise [r] of the call is rejected,
    with the error of one of them; more precisely, while [r] is pending,
    the answer of the transport that rejects a first one of them with [e]
    rejects [r] with that same [e]; [r] is fulfilled only with an array of
    as many values as there are keys, all of [ps] being fulfilled; and once
    rejected, [r] stays rejected with the same error. *)
Theorem C7_loadMultiple_all_or_nothing w urls useCache r w1 evs :
  reachable w →
  loadMultiple urls useCache w = (r, w1) →
  let w2 := run evs w1 in
  let ps := (map_loadData urls useCache w).1 in
  Forall2 (loads w1) urls ps ∧
    (∀ i e, i ∈ ps → state w2 i = Rejected e →
            ∃ e', state w2 r = Rejected e' ∧
                  Rejected e' ∈ (state w2 <$> ps)) ∧
    (∀ p t i e,
       state w2 r = Pending → i ∈ ps →
       state (transport_settles p t w2) i = Rejected e →
       state (transport_settles p t w2) r = Rejected e) ∧
    (∀ v, state w2 r = Fulfilled v →
          ∃ vs, v = Arr vs ∧ length vs = length urls ∧
                state w2 <$> ps = Fulfilled <$> vs) ∧
    (∀ e evs', state w2 r = Rejected e →
               state (run evs' w2) r = Rejected e).
Proof.
  intros Hwf%reachable_wf Hcall w2 ps.
  destruct (loadMultiple_promises urls useCache w Hwf) as (Hps1 & Hlater).
  fold ps in Hps1, Hlater.
  pose proof (loadMultiple_spec urls useCache w Hwf) as (Hwf1 & _).
  rewrite Hcall in Hps1, Hlater, Hwf1. cbn [fst snd] in *.
  assert (Hwf2 : wf w2) by by apply wf_run.
  assert (E2 : evolves w1 w2) by by apply evolves_run.
  destruct (Hlater _ Hwf2 E2) as [_ Hall].
  assert (Hfail : ∀ w', wf w' → evolves w1 w' → ∀ i e,
            i ∈ ps → state w' i = Rejected e →
            ∃ e', state w' r = Rejected e' ∧ Rejected e' ∈ (state w' <$> ps)).
  { intros w' Hwf' E' i e Hi Hs. destruct (Hlater _ Hwf' E') as [_ Hall'].
    apply (all_ok_rejected _ _ e Hall'). rewrite <- Hs.
    by apply list_elem_of_fmap_2. }
  split; [done|]. split; [by apply Hfail|]. split; [|split].
  - intros p t i e Hr Hi Hs. set (w3 := transport_settles p t w2) in *.
    assert (Hwf3 : wf w3) by by apply wf_transport_settles.
    assert (E3 : evolves w2 w3) by apply evolves_transport_settles.
    destruct (Hfail w3 Hwf3 (evolves_trans _ _ _ E2 E3) i e Hi Hs)
      as (e' & Hr' & _).
    rewrite Hr'. f_equal.
    assert (Hi2 : state w2 i = Pending).
    { destruct (decide (state w2 i = Pending)) as [|Hne]; [done|].
      rewrite (ev_state _ _ E3) in Hs by done.
      destruct (Hfail w2 Hwf2 E2 i e Hi Hs) as (? & ? & _). congruence. }
    destruct (promises w2 !! p) as [[[] []]|] eqn:Hp;
      try (subst w3; rewrite transport_settles_idle in Hs;
           [congruence|intros k'; by rewrite Hp]).
    apply (wf_marker _ Hwf2) in Hp.
    destruct (transport_settles_spec w2 url p t Hwf2 Hp)
      as (_ & _ & _ & _ & _ & _ & _ & _ & Hnew).
    fold w3 in Hnew. pose proof (Hnew i e Hi2 Hs) as H1.
    pose proof (Hnew r e' Hr Hr') as H2. congruence.
  - intros v Hv. rewrite Hv in Hall. destruct Hall as (vs & -> & Hvs).
    exists vs. split; [done|]. split; [|done].
    rewrite (Forall2_length _ _ _ Hps1).
    rewrite <- (length_fmap (state w2) ps), Hvs. by rewrite length_fmap.
  - intros e evs' Hr.
    rewrite (ev_state _ _ (evolves_run evs' w2 Hwf2)); [done|].
    by rewrite Hr.
Qed.

Lemma C7_loadMultiple_all_or_nothing_witness :
  let urls := ["a"; "b"; "c"] in
  let w1 := (loadMultiple urls true init).2 in
  let evs := [Transport 4 (ok_json (Str "C"))] in
  let w2 := run evs w1 in
  state w2 7 = Pending ∧
  state (transport_settles 2 not_found w2) 7 = Rejected (http_error 404).
Proof.
  intros urls w1 evs w2.
  destruct (C7_loadMultiple_all_or_nothing init urls true 7 w1 evs)
    as (_ & _ & Hfirst & _).
  - apply (reachable_trace []).
  - vm_compute. reflexivity.
  - split; [vm_compute; reflexivity|].
    apply (Hfirst 2 not_found 3 (http_error 404)).
    + vm_compute. reflexivity.
    + vm_compute. right. left.
    + vm_compute. reflexivity.
Defined.

(** ** preload *)

Lemma preload_unfold urls w :
  wf w →
  let r := (loadMultiple urls true w).1 in
  let w0 := (loadMultiple urls true w).2 in
  (preload urls w).1 = S r ∧
  task_of (preload urls w).2 (S r) = Some (Preload r) ∧
  evolves w0 (preload urls w).2.
Proof.
  intros Hwf r w0.
  destruct (loadMultiple_spec urls true w Hwf)
    as (_ & _ & q & _ & _ & _ & _ & Hlen). fold r w0 in Hlen.
  unfold preload. subst r w0.
  destruct (loadMultiple urls true w) as [r w0]. cbn [fst snd] in *.
  rewrite spawn_Preload by lia. cbn [fst snd]. split; [done|]. split.
  - unfold task_of. rewrite <- Hlen.
    replace (length (promises w0))
      with (length (promises (log (preload_resumes (state w0 r)).2 w0)))
      by done.
    by rewrite push_lookup_new.
  - eapply evolves_trans; [apply evolves_log|apply evolves_push].
Qed.

(** C8 (preload never throws).  After a call [preload(urls)], in every later
    world: the promise [i] of the call is never rejected; as soon as the
    aggregate [r] of its [loadMultiple(urls, true)] has settled it is
    fulfilled with [undefined]; when the aggregate was rejected with [e],
    the warning carrying [e] is on the console; and this is what happens
    as soon as one of the [loadData] promises [ps] is rejected, so also
    when all are. *)
Theorem C8_preload_never_rejects w urls i w1 evs :
  reachable w →
  preload urls w = (i, w1) →
  let r := (loadMultiple urls true w).1 in
  let ps := (map_loadData urls true w).1 in
  let w2 := run evs w1 in
  (∀ e, state w2 i ≠ Rejected e) ∧
  (state w2 r ≠ Pending → state w2 i = Fulfilled Undefined) ∧
  (∀ e, state w2 r = Rejected e →
        ConsoleWarn "Some data failed to preload:" e ∈ console w2) ∧
  (∀ j e, j ∈ ps → state w2 j = Rejected e →
          state w2 i = Fulfilled Undefined ∧
          ∃ e', state w2 r = Rejected e' ∧
                ConsoleWarn "Some data failed to preload:" e' ∈ console w2).
Proof.
  intros Hwf%reachable_wf Hcall r ps w2.
  destruct (preload_unfold urls w Hwf) as (Hi & Ht & E0).
  destruct (preload_spec urls w Hwf) as (Hwf1 & _).
  destruct (loadMultiple_promises urls true w Hwf) as (_ & Hlater).
  fold r ps in Hi, Ht, Hlater.
  rewrite Hcall in Hi, Ht, E0, Hwf1. cbn [fst snd] in *. subst i.
  assert (Hwf2 : wf w2) by by apply wf_run.
  assert (E2 : evolves w1 w2) by by apply evolves_run.
  apply (ev_task _ _ E2) in Ht.
  assert (Hl : promises w2 !! S r = Some (state w2 (S r), Preload r))
    by by apply promises_lookup_iff.
  destruct (wf_local _ Hwf2 _ _ _ Hl) as [_ Hpre].
  assert (Hsettled : state w2 r ≠ Pending →
            state w2 (S r) = Fulfilled Undefined).
  { intros Hr. destruct (state w2 (S r)); simpl in Hpre; [done| |done].
    by destruct Hpre as [-> _]. }
  assert (Hwarn : ∀ e, state w2 r = Rejected e →
            ConsoleWarn "Some data failed to preload:" e ∈ console w2).
  { intros e Hr. apply (wf_warn _ Hwf2 _ _ _ _ Hl); [|done].
    rewrite Hsettled; [done|]. by rewrite Hr. }
  split; [|split; [done|split; [done|]]].
  - intros e He. by rewrite He in Hpre.
  - intros j e Hj Hs.
    destruct (Hlater w2 Hwf2 (evolves_trans _ _ _ E0 E2)) as [_ Hall].
    destruct (all_ok_rejected _ _ e Hall) as (e' & Hr & _).
    { rewrite <- Hs. by apply list_elem_of_fmap_2. }
    split; [apply Hsettled; by rewrite Hr|]. exists e'. split; [done|].
    by apply Hwarn.
Qed.

Lemma C8_preload_never_rejects_witness :
  let urls := ["a"; "b"] in
  let w1 := (preload urls init).2 in
  let evs := [Transport 0 not_found; Transport 2 not_found] in
  let w2 := run evs w1 in
  state w2 6 = Fulfilled Undefined ∧
  ConsoleWarn "Some data failed to preload:" (http_error 404) ∈ console w2.
Proof.
  intros urls w1 evs w2.
  destruct (C8_preload_never_rejects init urls 6 w1 evs)
    as (_ & Hs & Hw & _).
  - apply (reachable_trace []).
  - vm_compute. reflexivity.
  - split.
    + apply Hs. vm_compute. discriminate.
    + apply Hw. vm_compute. reflexivity.
Defined.

(** ** clearCache *)

(** C9 (invalidation).  For a key [k] (a non-empty string):
    [clearCache(k)] removes the entry of [k] and leaves the entry of every
    other key as it is; [clearCache()] empties the cache; neither form
    touches [loadingStates], the promises or the transport; and a fetch of
    [k] in flight, started by a caching call, still completes after either
    form: its callers are fulfilled with the value [v] the transport
    delivers, the marker is removed and [v] is stored. *)
Theorem C9_clearCache_frame w k :
  k ≠ "" →
  reachable w →
  cache (clearCache (Some k) w) !! k = None ∧
  (∀ k', k' ≠ k → cache (clearCache (Some k) w) !! k' = cache w !! k') ∧
  cache (clearCache None w) = ∅ ∧
  (∀ url, loadingStates (clearCache url w) = loadingStates w ∧
          promises (clearCache url w) = promises w ∧
          fetched (clearCache url w) = fetched w) ∧
  (∀ url p t v,
     loadingStates w !! k = Some p →
     task_of w (S p) = Some (LoadData_awaiting k true p) →
     fetchData_result t = Resolves v →
     let w' := transport_settles p t (clearCache url w) in
     cache w' !! k = Some v ∧
     loadingStates w' !! k = None ∧
     ∀ i uc t', task_of w i = Some t' → waits_on k uc p t' →
                state w' i = Fulfilled v).
Proof.
  intros Hk Hwf%reachable_wf.
  assert (Hsome : clearCache (Some k) w = set_cache (λ c, delete k c) w).
  { unfold clearCache. by rewrite bool_decide_eq_false_2. }
  assert (Hframe : ∀ url, loadingStates (clearCache url w) = loadingStates w ∧
            promises (clearCache url w) = promises w ∧
            fetched (clearCache url w) = fetched w).
  { intros [u|]; unfold clearCache; [case_bool_decide|]; done. }
  split; [rewrite Hsome; apply lookup_delete_eq|].
  split; [intros k' Hne; rewrite Hsome; by apply lookup_delete_ne|].
  split; [done|]. split; [done|].
  intros url p t v Hl Ht Hv w'.
  destruct (Hframe url) as (Hls & Hpr & _).
  assert (Hwf1 : wf (clearCache url w)) by by apply wf_clearCache.
  destruct (transport_settles_spec (clearCache url w) k p t Hwf1)
    as (uc & Huc & _ & _ & Hl' & Hc' & _ & Hcallers & _); [by rewrite Hls|].
  fold w' in Hl', Hc', Hcallers.
  unfold task_of in Huc, Hcallers. rewrite Hpr in Huc, Hcallers.
  fold (task_of w (S p)) in Huc. rewrite Ht in Huc. injection Huc as <-.
  rewrite (settled_state_resolves _ _ Hv) in Hc', Hcallers.
  split; [rewrite Hc'; simpl; apply lookup_insert_eq|].
  split; [rewrite Hl'; apply lookup_delete_eq|].
  intros i uc t' Ht' Hw. by apply (Hcallers i uc t').
Qed.

Lemma C9_clearCache_frame_witness :
  let w := run [Call_loadData "a" true; Transport 0 (ok_json (Num 1));
                Call_loadData "b" true; Transport 2 (ok_json (Num 2));
                Call_loadData "c" true] init in
  cache (clearCache (Some "a") w) !! "a" = None ∧
  cache (clearCache (Some "a") w) !! "b" = cache w !! "b" ∧
  cache (transport_settles 4 (ok_json (Num 3)) (clearCache None w)) !! "c"
  = Some (Num 3).
Proof.
  intros w.
  destruct (C9_clearCache_frame w "a") as (Ha & Hb & _ & _ & _).
  - discriminate.
  - apply reachable_trace.
  - destruct (C9_clearCache_frame w "c") as (_ & _ & _ & _ & Hc).
    + discriminate.
    + apply reachable_trace.
    + split; [exact Ha|]. split; [apply Hb; discriminate|].
      apply (Hc None 4 (ok_json (Num 3)) (Num 3)); vm_compute; reflexivity.
Defined.

(** [clearCache("")]: the empty string is falsy, so everything is
    cleared. *)
Example clearCache_empty_string :
  let w := run [Call_loadData "a" true; Transport 0 (ok_json (Num 1))] init in
  cache w !! "a" = Some (Num 1) ∧ cache (clearCache (Some "") w) = ∅.
Proof. vm_compute. split; reflexivity. Qed.

(** ** Errors *)






(** * Further properties of the loader *)

(** X1 (one fetch per key).  In every reachable world [loadingStates] holds
    exactly the keys with a pending [fetchData] promise, under the promise
    itself, and no key has two: the guard of lines 14-16 lets a call reach
    line 18 only when the key has no marker, and the marker is deleted only
    by the continuation of the call that set it (lines 28 and 31). *)
Theorem X1_one_fetch_per_key w :
  reachable w →
  (∀ k p, loadingStates w !! k = Some p ↔
          promises w !! p = Some (Pending, FetchData k)) ∧
  (∀ k p q, promises w !! p = Some (Pending, FetchData k) →
            promises w !! q = Some (Pending, FetchData k) → p = q) ∧
  (∀ k p, loadingStates w !! k = Some p →
          ∃ useCache,
            promises w !! S p
            = Some (Pending, LoadData_awaiting k useCache p)).
Proof.
  intros Hwf%reachable_wf. split; [apply (wf_marker _ Hwf)|]. split.
  - intros k p q Hp%(wf_marker _ Hwf) Hq%(wf_marker _ Hwf). congruence.
  - intros k p Hp%(wf_marker _ Hwf). by apply wf_in_flight.
Qed.

Lemma X1_one_fetch_per_key_witness :
  let w := run [Call_loadData "a" true; Call_loadData "a" false;
                Call_loadMultiple ["a"; "b"; "a"] true;
                Transport 0 not_found; Call_loadData "a" true] init in
  ∃ useCache,
    promises w !! 10 = Some (Pending, LoadData_awaiting "a" useCache 9).
Proof.
  intros w.
  apply (proj2 (proj2 (X1_one_fetch_per_key w (reachable_trace _))) "a" 9).
  vm_compute. reflexivity.
Defined.

(** X2 (the cache is never refreshed).  Once [k] is cached with [v], it
    stays cached with that same [v] through every call and every answer of
    the transport, until [clearCache] is called: [cache.set] is reached
    only by a call that found no entry (lines 10 and 24-25). *)
Theorem X2_cache_entry_persists w k v evs :
  reachable w →
  cache w !! k = Some v →
  forallb not_clearing evs = true →
  cache (run evs w) !! k = Some v.
Proof. intros Hwf%reachable_wf. by apply run_cache_persists. Qed.

Lemma X2_cache_entry_persists_witness :
  let w := run [Call_loadData "a" true; Transport 0 (ok_json (Num 1))] init in
  let evs := [Call_loadData "a" false; Transport 2 (ok_json (Num 2));
              Call_loadData "a" true] in
  cache (run evs w) !! "a" = Some (Num 1).
Proof.
  intros w evs. apply X2_cache_entry_persists.
  - apply reachable_trace.
  - vm_compute. reflexivity.
  - vm_compute. reflexivity.
Defined.

(** A call that starts a fetch, followed by anything but the answer. *)
Lemma started_later w0 k useCache evs :
  wf w0 →
  served_from_cache k useCache w0 = None →
  loadingStates w0 !! k = None →
  let p := length (promises w0) in
  forallb (not_settling p) evs = true →
  let w2 := run evs (started k useCache w0) in
  wf w2 ∧ loadingStates w2 !! k = Some p ∧
  task_of w2 (S p) = Some (LoadData_awaiting k useCache p) ∧
  invocations k w2 = S (invocations k w0).
Proof.
  intros Hwf0 Hc Hl p Hq w2.
  destruct (started_spec w0 k useCache) as (Hl1 & Hi1 & Ht1).
  fold p in Hl1, Ht1.
  assert (Hwf1 : wf (started k useCache w0)) by by apply wf_started.
  destruct (run_keeps evs k p _ Hwf1 Hl1 Hq) as [Hl2 Hi2].
  split; [by apply wf_run|]. split; [done|].
  split; [|subst w2; by rewrite Hi2].
  by apply (ev_task _ _ (evolves_run evs _ Hwf1)).
Qed.

(** X3 (a bypassing call never reads the cache).  [loadData(k, false)] on a
    key that is cached and not in flight calls the transport all the same
    (line 10 is skipped); when the transport answers with [v'], the call is
    fulfilled with [v'], the fresh value, while the cache, unless cleared
    meanwhile, still holds the old [v]. *)
Theorem X3_bypass_ignores_cache w k v a w1 evs t v' :
  reachable w →
  cache w !! k = Some v →
  loadingStates w !! k = None →
  loadData k false w = (a, w1) →
  let p := length (promises w) in
  forallb (not_settling p) evs = true →
  forallb not_clearing evs = true →
  fetchData_result t = Resolves v' →
  let w2 := run evs w1 in
  let w3 := transport_settles p t w2 in
  invocations k w1 = S (invocations k w) ∧
  state w2 a = Pending ∧
  state w3 a = Fulfilled v' ∧
  cache w3 !! k = Some v.
Proof.
  intros Hr Hc Hl Ha p Hq Hnc Ht w2 w3.
  pose proof (reachable_wf _ Hr) as Hwf.
  rewrite loadData_started in Ha by done. injection Ha as <- <-.
  destruct (started_later w k false evs Hwf) as (Hwf2 & Hl2 & Ht2 & _);
    [done..|]. fold p w2 in Hwf2, Hl2, Ht2.
  destruct (started_spec w k false) as (_ & Hi1 & _).
  destruct (transport_settles_spec w2 k p t Hwf2 Hl2)
    as (uc & Huc & _ & _ & _ & Hc3 & _ & Hcallers & _).
  fold w3 in Hc3, Hcallers. rewrite Ht2 in Huc. injection Huc as <-.
  rewrite (settled_state_resolves _ _ Ht) in Hc3, Hcallers.
  split; [done|].
  split; [apply (caller_pending w2 k p _ false _ Hwf2 Hl2 Ht2); by left|].
  split; [apply (Hcallers _ false _ Ht2); by left|].
  rewrite Hc3. simpl. apply run_cache_persists; [by apply wf_started|done..].
Qed.

Lemma X3_bypass_ignores_cache_witness :
  let w := run [Call_loadData "a" true; Transport 0 (ok_json (Num 1))] init in
  let w1 := (loadData "a" false w).2 in
  let w3 := transport_settles 2 (ok_json (Num 2)) (run [] w1) in
  state w3 3 = Fulfilled (Num 2) ∧ cache w3 !! "a" = Some (Num 1).
Proof.
  intros w w1 w3.
  destruct (X3_bypass_ignores_cache w "a" (Num 1) 3 w1 []
              (ok_json (Num 2)) (Num 2)) as (_ & _ & Hs & Hc).
  - apply reachable_trace.
  - vm_compute. reflexivity.
  - vm_compute. reflexivity.
  - vm_compute. reflexivity.
  - reflexivity.
  - reflexivity.
  - vm_compute. reflexivity.
  - split; [exact Hs|exact Hc].
Defined.

Lemma push_state_new s t w : state (push s t w) (length (promises w)) = s.
Proof. unfold state. by rewrite push_lookup_new. Qed.

(** X4 (empty input).  In any world [loadMultiple([], useCache)] is
    fulfilled at once with the empty array, and [preload([])] at once with
    [undefined], logging its success message; neither calls the transport
    nor touches the cache or [loadingStates]. *)
Theorem X4_empty_urls w useCache :
  let r := (loadMultiple [] useCache w).1 in
  let w1 := (loadMultiple [] useCache w).2 in
  let i := (preload [] w).1 in
  let w2 := (preload [] w).2 in
  state w1 r = Fulfilled (Arr []) ∧
  same_loader w w1 ∧ console w1 = console w ∧
  state w2 i = Fulfilled Undefined ∧
  same_loader w w2 ∧
  console w2 = console w ++ [ConsoleLog "Data preloaded successfully"].
Proof.
  assert (Hm : ∀ uc, loadMultiple [] uc w
            = (S (length (promises w)),
               push (Fulfilled (Arr [])) (LoadMultiple (length (promises w)))
                 (push (Fulfilled (Arr [])) (PromiseAll []) w))).
  { intros uc. unfold loadMultiple. simpl map_loadData. cbv iota beta.
    rewrite spawn_PromiseAll by constructor. simpl fmap.
    rewrite spawn_LoadMultiple by (rewrite push_length; lia).
    by rewrite push_state_new, push_length. }
  intros r w1 i w2. subst r w1 i w2. unfold preload. rewrite !Hm.
  cbn [fst snd]. rewrite spawn_Preload by (rewrite !push_length; lia).
  cbn [fst snd].
  replace (S (length (promises w)))
    with (length (promises (push (Fulfilled (Arr [])) (PromiseAll []) w)))
    by apply push_length.
  rewrite !push_state_new. simpl preload_resumes. cbn [fst snd].
  split; [done|]. split; [done|]. split; [done|].
  split; [|done].
  set (w' := log _ _).
  replace (length (promises (push (Fulfilled (Arr []))
             (LoadMultiple (length (promises w)))
             (push (Fulfilled (Arr [])) (PromiseAll []) w))))
    with (length (promises w')) by done.
  apply push_state_new.
Qed.

(** X8 (invalidate, then load).  After [clearCache()] or [clearCache(k)],
    a call [loadData(k, useCache)] calls the transport again when no fetch
    of [k] is in flight; when one is, the call joins it and the transport
    is not called: invalidation does not cancel or duplicate a fetch. *)
Theorem X8_clearCache_then_load w k url useCache :
  reachable w →
  url = None ∨ url = Some k →
  let w0 := clearCache url w in
  let a := (loadData k useCache w0).1 in
  let w1 := (loadData k useCache w0).2 in
  cache w0 !! k = None ∧
  (loadingStates w !! k = None →
   invocations k w1 = S (invocations k w) ∧ state w1 a = Pending ∧
   loadingStates w1 !! k = Some (length (promises w))) ∧
  (∀ p, loadingStates w !! k = Some p →
        fetched w1 = fetched w ∧
        task_of w1 a = Some (LoadData_joined k useCache p)).
Proof.
  intros Hwf%reachable_wf Hurl w0 a w1.
  assert (Hc : cache w0 !! k = None).
  { subst w0. unfold clearCache.
    destruct Hurl as [-> | ->]; [done|].
    case_bool_decide; simpl; [done|apply lookup_delete_eq]. }
  assert (Hsame : loadingStates w0 = loadingStates w ∧
            promises w0 = promises w ∧ fetched w0 = fetched w).
  { subst w0. unfold clearCache.
    destruct url as [u|]; [case_bool_decide|]; done. }
  destruct Hsame as (Hl0 & Hp0 & Hf0).
  assert (Hwf0 : wf w0) by by apply wf_clearCache.
  assert (Hs : served_from_cache k useCache w0 = None).
  { unfold served_from_cache. by destruct useCache. }
  split; [done|]. split.
  - intros Hl. rewrite <- Hl0 in Hl.
    destruct (loadData_invokes w0 k useCache Hs Hl) as (Hi & _ & Hst).
    fold w1 a in Hi, Hst. split.
    { rewrite Hi. unfold invocations. by rewrite Hf0. }
    split; [done|]. subst w1. rewrite loadData_started by done.
    cbn [snd]. rewrite <- Hp0. apply started_spec.
  - intros p Hl. rewrite <- Hl0 in Hl. subst a w1.
    rewrite (loadData_joined _ _ _ p) by done. cbn [fst snd].
    split; [done|]. unfold task_of. by rewrite push_lookup_new.
Qed.

Lemma X8_clearCache_then_load_witness :
  let w := run [Call_loadData "a" true; Transport 0 (ok_json (Num 1));
                Call_loadData "b" true; Transport 2 (ok_json (Num 2))] init in
  invocations "a" (loadData "a" true (clearCache None w)).2 = 2 ∧
  invocations "b" (loadData "b" true (clearCache None w)).2 = 2.
Proof.
  intros w.
  destruct (X8_clearCache_then_load w "a" None true) as (_ & Ha & _);
    [apply reachable_trace|by left|].
  destruct (X8_clearCache_then_load w "b" None true) as (_ & Hb & _);
    [apply reachable_trace|by left|].
  split.
  - apply Ha. vm_compute. reflexivity.
  - apply Hb. vm_compute. reflexivity.
Defined.

(** X13 (keys are independent).  The answer of the transport for the fetch
    of [k] leaves every other key [k'] alone: its marker, its cache entry,
    and every [loadData] promise of [k'], pending or settled. *)
Theorem X13_other_keys_untouched w k p t k' :
  reachable w →
  loadingStates w !! k = Some p →
  k' ≠ k →
  let w' := transport_settles p t w in
  loadingStates w' !! k' = loadingStates w !! k' ∧
  cache w' !! k' = cache w !! k' ∧
  invocations k' w' = invocations k' w ∧
  ∀ i, loads w k' i → state w' i = state w i.
Proof.
  intros Hwf%reachable_wf Hl Hne w'.
  destruct (transport_settles_spec w k p t Hwf Hl)
    as (uc & _ & Hwf' & E & Hl' & Hc' & Hf' & _).
  fold w' in Hwf', E, Hl', Hc', Hf'.
  assert (Hlk : loadingStates w' !! k' = loadingStates w !! k').
  { rewrite Hl'. by apply lookup_delete_ne. }
  split; [done|]. split.
  { rewrite Hc'. unfold cache_after. destruct (settled_state t); try done.
    destruct uc; [|done]. by apply lookup_insert_ne. }
  split; [unfold invocations; by rewrite Hf'|].
  intros i (ti & Hti & Hk).
  destruct (decide (state w i = Pending)) as [Hpend|Hset];
    [|by apply (ev_state _ _ E)].
  rewrite Hpend.
  assert (Hi : promises w !! i = Some (Pending, ti))
    by by apply promises_lookup_iff.
  pose proof (wf_local _ Hwf _ _ _ Hi) as Hloc.
  destruct ti; simpl in Hk; try done; injection Hk as ->; simpl in Hloc.
  - by destruct Hloc as (? & ? & ? & _).
  - destruct Hloc as [_ Hp0]. apply (wf_marker _ Hwf) in Hp0.
    rewrite <- Hlk in Hp0.
    eapply (caller_pending w' k' p0 i useCache); [done..| |by right].
    by apply (ev_task _ _ E).
  - destruct Hloc as [_ Hp0]. apply (wf_marker _ Hwf) in Hp0.
    rewrite <- Hlk in Hp0.
    eapply (caller_pending w' k' p0 i useCache); [done..| |by left].
    by apply (ev_task _ _ E).
Qed.

Lemma X13_other_keys_untouched_witness :
  let w := run [Call_loadData "a" true; Call_loadData "b" true] init in
  let w' := transport_settles 0 not_found w in
  loadingStates w' !! "b" = Some 2 ∧ state w' 3 = Pending.
Proof.
  intros w w'.
  destruct (X13_other_keys_untouched w "a" 0 not_found "b")
    as (Hl & _ & _ & Hs).
  - apply reachable_trace.
  - vm_compute. reflexivity.
  - discriminate.
  - split; [exact Hl|]. apply (Hs 3).
    exists (LoadData_awaiting "b" true 2). split; vm_compute; reflexivity.
Defined.

(** ** What is reported on the console *)

Lemma console_errors_app c1 c2 :
  console_errors (c1 ++ c2) = console_errors c1 ++ console_errors c2.
Proof. unfold console_errors. apply omap_app. Qed.

Lemma react_console_errors i w :
  console_errors (console (react i w)) = console_errors (console w).
Proof.
  unfold_react. repeat case_match; simpl; try done;
    by rewrite console_errors_app, app_nil_r.
Qed.

Lemma drain_console_errors l : ∀ w,
  console_errors (console (foldl (λ w i, react i w) w l))
  = console_errors (console w).
Proof.
  induction l as [|i l IH]; intros w; simpl; [done|].
  by rewrite IH, react_console_errors.
Qed.

Lemma spawn_console_errors t w :
  console_errors (console (spawn t w).2) = console_errors (console w).
Proof. unfold spawn. simpl. by rewrite react_console_errors. Qed.

Lemma loadData_console_errors k useCache w :
  console_errors (console (loadData k useCache w).2)
  = console_errors (console w).
Proof.
  unfold loadData. destruct (served_from_cache k useCache w); [done|].
  destruct (loadingStates w !! k); [apply spawn_console_errors|].
  unfold fetchData.
  destruct (spawn (FetchData k) (call_fetch k w)) as [p w1] eqn:Hs.
  rewrite spawn_console_errors. simpl.
  replace w1 with (spawn (FetchData k) (call_fetch k w)).2 by by rewrite Hs.
  by rewrite spawn_console_errors.
Qed.

Lemma map_loadData_console_errors urls useCache : ∀ w,
  console_errors (console (map_loadData urls useCache w).2)
  = console_errors (console w).
Proof.
  induction urls as [|k urls IH]; intros w; simpl; [done|].
  pose proof (loadData_console_errors k useCache w) as H1.
  destruct (loadData k useCache w) as [q w1]. cbn [fst snd] in *.
  pose proof (IH w1) as H2.
  destruct (map_loadData urls useCache w1) as [ps w2]. cbn [fst snd] in *.
  congruence.
Qed.

Lemma loadMultiple_console_errors urls useCache w :
  console_errors (console (loadMultiple urls useCache w).2)
  = console_errors (console w).
Proof.
  unfold loadMultiple.
  pose proof (map_loadData_console_errors urls useCache w) as H1.
  destruct (map_loadData urls useCache w) as [ps w1]. cbn [fst snd] in *.
  pose proof (spawn_console_errors (PromiseAll ps) w1) as H2.
  destruct (spawn (PromiseAll ps) w1) as [q w2]. cbn [fst snd] in *.
  rewrite spawn_console_errors. congruence.
Qed.

(** X9 (failures are reported once).  [console.error] is written by
    [fetchData] alone: an answer of the transport that fails the fetch of
    [k] in flight adds exactly one entry, with the url and the very error
    the callers are rejected with (lines 45-48); a successful answer adds
    none, and neither does any call of the loader. *)
Theorem X9_console_error_once w k p t :
  reachable w →
  loadingStates w !! k = Some p →
  let w' := transport_settles p t w in
  (∀ e, fetchData_result t = Rejects e →
        console_errors (console w')
        = console_errors (console w)
          ++ [("Failed to load data from " +:+ k +:+ ":", e)] ∧
        state w' (S p) = Rejected e) ∧
  (∀ v, fetchData_result t = Resolves v →
        console_errors (console w') = console_errors (console w)) ∧
  (∀ ev, (∀ q t', ev ≠ Transport q t') →
         console_errors (console (step w ev)) = console_errors (console w)).
Proof.
  intros Hwf%reachable_wf Hl w'.
  pose proof (in_flight_lookup _ _ _ Hwf Hl) as Hp.
  destruct (transport_settles_spec w k p t Hwf Hl)
    as (uc & Huc & _ & _ & _ & _ & _ & Hcallers & _).
  fold w' in Hcallers.
  split; [|split].
  - intros e He. split.
    + subst w'. unfold transport_settles. rewrite Hp, He. unfold drain.
      rewrite drain_console_errors. simpl.
      by rewrite console_errors_app.
    + rewrite (Hcallers _ uc _ Huc); [by apply settled_state_rejects|by left].
  - intros v Hv. subst w'. unfold transport_settles. rewrite Hp, Hv.
    unfold drain. by rewrite drain_console_errors.
  - intros [k' uc'|urls uc'|urls|url|q t'] Hev; simpl.
    + apply loadData_console_errors.
    + apply loadMultiple_console_errors.
    + unfold preload.
      pose proof (loadMultiple_console_errors urls true w) as H1.
      destruct (loadMultiple urls true w) as [r w1]. cbn [fst snd] in *.
      by rewrite spawn_console_errors.
    + unfold clearCache. destruct url; [case_bool_decide|]; done.
    + by destruct (Hev q t').
Qed.

Lemma X9_console_error_once_witness :
  let w := run [Call_preload ["a"; "b"]] init in
  console_errors (console (transport_settles 0 not_found w))
  = [("Failed to load data from a:", http_error 404)].
Proof.
  intros w.
  destruct (X9_console_error_once w "a" 0 not_found) as (He & _).
  - apply reachable_trace.
  - vm_compute. reflexivity.
  - exact (proj1 (He (http_error 404) eq_refl)).
Defined.

(** ** How often loadMultiple calls the transport *)

(** A call for another key leaves [k] alone. *)
Lemma loadData_other w k k' useCache :
  wf w → k' ≠ k →
  loadingStates (loadData k' useCache w).2 !! k = loadingStates w !! k ∧
  invocations k (loadData k' useCache w).2 = invocations k w.
Proof.
  intros Hwf Hne.
  destruct (served_from_cache k' useCache w) as [v|] eqn:Hc.
  { destruct (loadData_not_started w k' useCache Hwf) as (_ & -> & Hf).
    - left. by rewrite Hc.
    - unfold invocations. by rewrite Hf. }
  destruct (loadingStates w !! k') as [p'|] eqn:Hl'.
  { destruct (loadData_not_started w k' useCache Hwf) as (_ & -> & Hf).
    - right. by rewrite Hl'.
    - unfold invocations. by rewrite Hf. }
  rewrite loadData_started by done. split.
  - simpl. by rewrite lookup_insert_ne.
  - unfold started, invocations. simpl. rewrite filter_app, length_app.
    rewrite filter_cons_False by done. simpl. lia.
Qed.

Lemma needs_fetch_true k useCache w :
  needs_fetch k useCache w = true ↔
  served_from_cache k useCache w = None ∧ loadingStates w !! k = None.
Proof.
  unfold needs_fetch. rewrite andb_true_iff, !bool_decide_eq_true. done.
Qed.

Lemma served_from_cache_ext k useCache w w' :
  cache w' = cache w →
  served_from_cache k useCache w' = served_from_cache k useCache w.
Proof. unfold served_from_cache. by intros ->. Qed.

Lemma map_loadData_invocations urls useCache k : ∀ w,
  wf w →
  invocations k (map_loadData urls useCache w).2
  = invocations k w
    + (if bool_decide (k ∈ urls) && needs_fetch k useCache w then 1 else 0).
Proof.
  induction urls as [|k' urls IH]; intros w Hwf.
  { cbn [map_loadData snd].
    rewrite bool_decide_eq_false_2 by apply not_elem_of_nil.
    cbn [andb]. lia. }
  cbn [map_loadData].
  pose proof (wf_loadData w k' useCache Hwf) as Hwf1.
  pose proof (loadData_cache w k' useCache Hwf) as Hc1.
  destruct (decide (k' = k)) as [->|Hne].
  - rewrite (bool_decide_eq_true_2 (k ∈ k :: urls)) by left. simpl.
    destruct (needs_fetch k useCache w) eqn:Hnf.
    + apply needs_fetch_true in Hnf as [Hs Hl].
      destruct (loadData_invokes w k useCache Hs Hl) as (Hi & _).
      assert (Hl1 : loadingStates (loadData k useCache w).2 !! k
                    = Some (length (promises w))).
      { rewrite loadData_started by done. apply started_spec. }
      pose proof (map_loadData_keeps urls useCache k _ _ Hwf1 Hl1) as [_ Hi2].
      destruct (loadData k useCache w) as [q w1]. cbn [fst snd] in *.
      destruct (map_loadData urls useCache w1) as [ps w2].
      cbn [fst snd] in *. lia.
    + assert (Hor : is_Some (served_from_cache k useCache w) ∨
                is_Some (loadingStates w !! k)).
      { destruct (served_from_cache k useCache w) eqn:Hs; [left; eauto|].
        destruct (loadingStates w !! k) eqn:Hl; [right; eauto|].
        assert (needs_fetch k useCache w = true); [|congruence].
        by apply needs_fetch_true. }
      destruct (loadData_not_started w k useCache Hwf Hor) as (Hc & Hl & Hf).
      specialize (IH _ Hwf1).
      assert (Hnf1 : needs_fetch k useCache (loadData k useCache w).2 = false).
      { rewrite <- Hnf. unfold needs_fetch.
        by rewrite (served_from_cache_ext _ _ _ _ Hc), Hl. }
      rewrite Hnf1, andb_false_r in IH.
      destruct (loadData k useCache w) as [q w1]. cbn [fst snd] in *.
      destruct (map_loadData urls useCache w1) as [ps w2].
      cbn [fst snd] in *. rewrite IH. unfold invocations. rewrite Hf. lia.
  - destruct (loadData_other w k k' useCache Hwf Hne) as [Hl Hi].
    specialize (IH _ Hwf1).
    assert (Hnf1 : needs_fetch k useCache (loadData k' useCache w).2
                   = needs_fetch k useCache w).
    { unfold needs_fetch.
      by rewrite (served_from_cache_ext _ _ _ _ Hc1), Hl. }
    rewrite Hnf1 in IH.
    assert (Hin : bool_decide (k ∈ k' :: urls) = bool_decide (k ∈ urls)).
    { apply bool_decide_ext. rewrite elem_of_cons.
      split; [intros [?|?]; [congruence|done] | by right]. }
    rewrite Hin.
    destruct (loadData k' useCache w) as [q w1]. cbn [fst snd] in *.
    destruct (map_loadData urls useCache w1) as [ps w2].
    cbn [fst snd] in *. lia.
Qed.

Lemma loadMultiple_invocations w urls useCache k :
  wf w →
  invocations k (loadMultiple urls useCache w).2
  = invocations k w
    + (if bool_decide (k ∈ urls) && needs_fetch k useCache w then 1 else 0).
Proof.
  intros Hwf. unfold loadMultiple.
  pose proof (map_loadData_invocations urls useCache k w Hwf) as H1.
  destruct (map_loadData urls useCache w) as [ps w1]. cbn [fst snd] in *.
  destruct (spawn_same_loader (PromiseAll ps) w1) as (_ & _ & Hf2); [done|].
  destruct (spawn (PromiseAll ps) w1) as [q w2]. cbn [fst snd] in *.
  destruct (spawn_same_loader (LoadMultiple q) w2) as (_ & _ & Hf3); [done|].
  rewrite <- H1. unfold invocations. by rewrite Hf3, Hf2.
Qed.

(** X5 (one fetch per distinct key).  A call [loadMultiple(urls, useCache)]
    calls [fetch(k)] once if [k] occurs in [urls], however many times, and
    is neither served from the cache nor already in flight; otherwise it
    does not call [fetch(k)] at all.  A repeated key shares one fetch, and a
    key in flight is joined. *)
Theorem X5_loadMultiple_fetches_once w urls useCache k :
  reachable w →
  invocations k (loadMultiple urls useCache w).2
  = invocations k w
    + (if bool_decide (k ∈ urls) && needs_fetch k useCache w then 1 else 0).
Proof. intros Hwf%reachable_wf. by apply loadMultiple_invocations. Qed.

Lemma X5_loadMultiple_fetches_once_witness :
  let w := run [Call_loadData "c" true] init in
  let w1 := (loadMultiple ["a"; "b"; "a"; "c"; "a"] true w).2 in
  invocations "a" w1 = 1 ∧ invocations "c" w1 = 1.
Proof.
  intros w w1. split.
  - exact (X5_loadMultiple_fetches_once w ["a"; "b"; "a"; "c"; "a"] true "a"
             (reachable_trace _)).
  - exact (X5_loadMultiple_fetches_once w ["a"; "b"; "a"; "c"; "a"] true "c"
             (reachable_trace _)).
Defined.

(** ** Warming the cache *)

Lemma map_loadData_all_cached urls : ∀ vs w,
  Forall2 (λ k v, cache w !! k = Some v) urls vs →
  let ps := (map_loadData urls true w).1 in
  let w' := (map_loadData urls true w).2 in
  same_loader w w' ∧ console w' = console w ∧
  length (promises w) ≤ length (promises w') ∧
  (∀ j, j < length (promises w) → state w' j = state w j) ∧
  Forall (λ q, q < length (promises w')) ps ∧
  state w' <$> ps = Fulfilled <$> vs.
Proof.
  induction urls as [|k urls IH]; intros vs w Hall.
  { apply Forall2_nil_inv_l in Hall as ->. simpl.
    repeat split; [lia|constructor]. }
  apply Forall2_cons_inv_l in Hall as (v & vs' & Hv & Hall & ->).
  cbn [map_loadData]. rewrite (loadData_cached _ _ _ Hv).
  set (w1 := push (Fulfilled v) (LoadData_cached k) w).
  destruct (IH vs' w1 Hall) as ((Hc & Hl & Hf) & Hcon & Hlen & Hst & Hlt & Hps).
  destruct (map_loadData urls true w1) as [ps w2]. cbn [fst snd] in *.
  assert (Hlen1 : length (promises w1) = S (length (promises w)))
    by apply push_length.
  split; [by repeat split|]. split; [done|]. split; [lia|]. split.
  { intros j Hj. rewrite Hst by lia. by apply push_state_lt. }
  split; [constructor; [lia|done]|].
  rewrite !fmap_cons. f_equal; [|done].
  rewrite Hst by lia. apply push_state_new.
Qed.

(** When the cache holds every key of [urls], [loadMultiple(urls, true)]
    is fulfilled at once. *)
Lemma loadMultiple_all_cached urls vs w :
  Forall2 (λ k v, cache w !! k = Some v) urls vs →
  state (loadMultiple urls true w).2 (loadMultiple urls true w).1
  = Fulfilled (Arr vs) ∧
  same_loader w (loadMultiple urls true w).2 ∧
  console (loadMultiple urls true w).2 = console w.
Proof.
  intros Hall. unfold loadMultiple.
  destruct (map_loadData_all_cached urls vs w Hall)
    as (Hsame & Hcon & _ & _ & Hlt & Hps).
  destruct (map_loadData urls true w) as [ps w1]. cbn [fst snd] in *.
  rewrite spawn_PromiseAll by done.
  rewrite Hps, promise_all_fulfilled.
  set (w2 := push _ (PromiseAll ps) w1).
  assert (Hlen : length (promises w2) = S (length (promises w1)))
    by apply push_length.
  rewrite spawn_LoadMultiple by lia. cbn [fst snd].
  replace (state w2 (length (promises w1))) with (Fulfilled (Arr vs))
    by (symmetry; apply push_state_new).
  split; [apply push_state_new|]. split; [|done].
  destruct Hsame as (? & ? & ?). by repeat split.
Qed.

(** X6 (all in the cache).  When the cache holds a value for every key of
    [urls], the promise of [loadMultiple(urls, true)] is fulfilled at once
    with the array of the cached values, in the order of [urls]; the
    transport is not called, and the cache, [loadingStates] and the console
    stay as they are. *)
Theorem X6_all_cached_immediate w urls vs :
  Forall2 (λ k v, cache w !! k = Some v) urls vs →
  let r := (loadMultiple urls true w).1 in
  let w1 := (loadMultiple urls true w).2 in
  state w1 r = Fulfilled (Arr vs) ∧
  same_loader w w1 ∧ console w1 = console w.
Proof. intros Hall r w1. by apply loadMultiple_all_cached. Qed.

Lemma X6_all_cached_immediate_witness :
  let w := run [Call_loadMultiple ["a"; "b"] true;
                Transport 2 (ok_json (Num 2));
                Transport 0 (ok_json (Num 1))] init in
  let r := (loadMultiple ["b"; "a"; "b"] true w).1 in
  let w1 := (loadMultiple ["b"; "a"; "b"] true w).2 in
  state w1 r = Fulfilled (Arr [Num 2; Num 1; Num 2]) ∧
  same_loader w w1 ∧ console w1 = console w.
Proof.
  intros w.
  apply (X6_all_cached_immediate w ["b"; "a"; "b"] [Num 2; Num 1; Num 2]).
  repeat constructor.
Defined.

Lemma warm_step w ev k i :
  wf w → warm w k i → not_clearing ev = true → warm (step w ev) k i.
Proof.
  intros Hwf [(t & Ht & Hcase) Hc] Hev.
  pose proof (evolves_step w ev Hwf) as E.
  pose proof (wf_step w ev Hwf) as Hwf'.
  split.
  { exists t. split; [by apply (ev_task _ _ E)|].
    destruct Hcase as [->|(p & Hw & Hp)]; [by left|].
    right. exists p. split; [done|]. by apply (ev_task _ _ E). }
  intros v Hv.
  destruct (state w i) as [|v0|e] eqn:Hs.
  - destruct Hcase as [->|(p & Hw & Hp)].
    { assert (Hi : promises w !! i = Some (Pending, LoadData_cached k)).
      { apply promises_lookup_iff. by rewrite Hs. }
      by destruct (wf_local _ Hwf _ _ _ Hi) as (? & ? & ? & _). }
    assert (Hi : promises w !! i = Some (Pending, t)).
    { apply promises_lookup_iff. by rewrite Hs. }
    pose proof (waits_on_local _ _ _ _ _ _ _ Hwf Hi Hw) as Hf.
    apply (wf_marker _ Hwf) in Hf as Hl.
    destruct (not_settling p ev) eqn:Hns.
    + destruct (step_keeps w ev k p Hwf Hl Hns) as [Hl' _].
      assert (state (step w ev) i = Pending); [|congruence].
      eapply (caller_pending _ k p); [done|done| |exact Hw].
      by apply (ev_task _ _ E).
    + destruct ev as [| | | |q t']; try done.
      simpl in Hns. apply negb_false_iff, Nat.eqb_eq in Hns as ->.
      simpl in Hv |- *.
      destruct (transport_settles_spec w k p t' Hwf Hl)
        as (uc & Huc & _ & _ & _ & Hc' & _ & Hcallers & _).
      rewrite Hp in Huc. injection Huc as <-.
      rewrite (Hcallers i true t Ht Hw) in Hv.
      rewrite Hc', Hv. simpl. apply lookup_insert_eq.
  - rewrite (ev_state _ _ E) in Hv by by rewrite Hs.
    rewrite Hs in Hv. injection Hv as <-.
    apply step_cache_persists; [done| |done]. by apply Hc.
  - rewrite (ev_state _ _ E) in Hv by by rewrite Hs. congruence.
Qed.

Lemma warm_run evs k i : ∀ w,
  wf w → warm w k i → forallb not_clearing evs = true →
  warm (run evs w) k i.
Proof.
  induction evs as [|ev evs IH]; intros w Hwf Hw Hq; [done|].
  simpl in Hq. apply andb_true_iff in Hq as [Hev Hq]. simpl.
  apply IH; [by apply wf_step|by apply warm_step|done].
Qed.

Lemma warm_map_loadData urls k i : ∀ w,
  wf w → warm w k i → warm (map_loadData urls true w).2 k i.
Proof.
  induction urls as [|k' urls IH]; intros w Hwf Hw; [done|].
  cbn [map_loadData].
  pose proof (wf_loadData w k' true Hwf) as Hwf1.
  pose proof (warm_step w (Call_loadData k' true) k i Hwf Hw eq_refl) as Hw1.
  simpl in Hw1.
  destruct (loadData k' true w) as [q w1]. cbn [fst snd] in *.
  specialize (IH w1 Hwf1 Hw1).
  by destruct (map_loadData urls true w1) as [ps w2].
Qed.

Lemma spawn_state t w i :
  i < length (promises w) → state (spawn t w).2 i = state w i.
Proof.
  intros Hi. unfold spawn. cbn [snd].
  rewrite react_state_ne by lia. by apply push_state_lt.
Qed.

Lemma warm_spawn t w k i :
  (∀ k useCache p, t ≠ LoadData_awaiting k useCache p) →
  warm w k i → warm (spawn t w).2 k i.
Proof.
  intros Ht [(t0 & Ht0 & Hcase) Hc].
  pose proof (evolves_spawn t w) as E.
  destruct (spawn_same_loader t w Ht) as (Hc' & _).
  split.
  { exists t0. split; [by apply (ev_task _ _ E)|].
    destruct Hcase as [->|(p & Hw & Hp)]; [by left|].
    right. exists p. split; [done|]. by apply (ev_task _ _ E). }
  intros v. rewrite spawn_state by by eapply task_of_lt.
  rewrite Hc'. apply Hc.
Qed.

Lemma loadData_warm w k :
  wf w → caching_started w k →
  warm (loadData k true w).2 k (loadData k true w).1.
Proof.
  intros Hwf Hcs.
  destruct (cache w !! k) as [v|] eqn:Hc.
  { rewrite (loadData_cached _ _ _ Hc). cbn [fst snd]. split.
    - exists (LoadData_cached k). split; [|by left].
      unfold task_of. by rewrite push_lookup_new.
    - intros v'. rewrite push_state_new. by intros [= <-]. }
  destruct (loadingStates w !! k) as [p|] eqn:Hl.
  { rewrite (loadData_joined _ _ _ p) by done. cbn [fst snd]. split.
    - exists (LoadData_joined k true p). split.
      + unfold task_of. by rewrite push_lookup_new.
      + right. exists p. split; [by right|].
        apply (ev_task _ _ (evolves_push _ _ w)). by apply Hcs.
    - intros v'. by rewrite push_state_new. }
  rewrite loadData_started by done. cbn [fst snd].
  destruct (started_spec w k true) as (_ & _ & Ht).
  destruct (loadData_invokes w k true) as (_ & _ & Hs); [done..|].
  rewrite loadData_started in Hs by done. cbn [fst snd] in Hs.
  split.
  - exists (LoadData_awaiting k true (length (promises w))).
    split; [done|]. right. exists (length (promises w)).
    split; [by left|done].
  - intros v'. by rewrite Hs.
Qed.

Lemma loadData_caching_started w k k' :
  wf w → caching_started w k → caching_started (loadData k' true w).2 k.
Proof.
  intros Hwf Hcs p.
  pose proof (evolves_loadData k' true w) as E.
  destruct (served_from_cache k' true w) as [v|] eqn:Hc.
  { destruct (loadData_not_started w k' true Hwf) as (_ & -> & _).
    - left. by rewrite Hc.
    - intros Hl. apply (ev_task _ _ E). by apply Hcs. }
  destruct (loadingStates w !! k') as [p'|] eqn:Hl'.
  { destruct (loadData_not_started w k' true Hwf) as (_ & -> & _).
    - right. by rewrite Hl'.
    - intros Hl. apply (ev_task _ _ E). by apply Hcs. }
  rewrite loadData_started in E |- * by done. cbn [snd] in *.
  destruct (started_spec w k' true) as (Hl & _ & Ht).
  destruct (decide (k' = k)) as [->|Hne].
  - rewrite Hl. by intros [= <-].
  - simpl. rewrite lookup_insert_ne by done.
    intros Hp. apply (ev_task _ _ E). by apply Hcs.
Qed.

Lemma map_loadData_warm urls : ∀ w,
  wf w → (∀ k, k ∈ urls → caching_started w k) →
  Forall2 (warm (map_loadData urls true w).2) urls
    (map_loadData urls true w).1.
Proof.
  induction urls as [|k urls IH]; intros w Hwf Hcs; [constructor|].
  cbn [map_loadData].
  pose proof (wf_loadData w k true Hwf) as Hwf1.
  pose proof (loadData_warm w k Hwf (Hcs k ltac:(left))) as Hw1.
  assert (Hcs1 : ∀ k', k' ∈ urls → caching_started (loadData k true w).2 k').
  { intros k' Hk'. apply loadData_caching_started; [done|].
    apply Hcs. by right. }
  destruct (loadData k true w) as [i w1]. cbn [fst snd] in *.
  specialize (IH w1 Hwf1 Hcs1).
  pose proof (warm_map_loadData urls k i w1 Hwf1 Hw1) as Hw2.
  destruct (map_loadData urls true w1) as [ps w2]. cbn [fst snd] in *.
  by constructor.
Qed.

Lemma preload_warm urls w :
  wf w → (∀ k, k ∈ urls → caching_started w k) →
  Forall2 (warm (preload urls w).2) urls (map_loadData urls true w).1.
Proof.
  intros Hwf Hcs. unfold preload, loadMultiple.
  pose proof (map_loadData_warm urls w Hwf Hcs) as Hall.
  destruct (map_loadData urls true w) as [ps w1]. cbn [fst snd] in *.
  assert (H2 : Forall2 (warm (spawn (PromiseAll ps) w1).2) urls ps).
  { eapply Forall2_impl; [exact Hall|]. intros k i. by apply warm_spawn. }
  destruct (spawn (PromiseAll ps) w1) as [q w2]. cbn [fst snd] in *.
  assert (H3 : Forall2 (warm (spawn (LoadMultiple q) w2).2) urls ps).
  { eapply Forall2_impl; [exact H2|]. intros k i. by apply warm_spawn. }
  destruct (spawn (LoadMultiple q) w2) as [r w3]. cbn [fst snd] in *.
  eapply Forall2_impl; [exact H3|]. intros k i. by apply warm_spawn.
Qed.

Lemma warm_values w urls ps : ∀ vs,
  Forall2 (warm w) urls ps → state w <$> ps = Fulfilled <$> vs →
  Forall2 (λ k v, cache w !! k = Some v) urls vs.
Proof.
  intros vs H. revert vs.
  induction H as [|k i urls' ps' [_ Hc] _ IH]; intros [|v vs] Hvs;
    try done.
  rewrite !fmap_cons in Hvs. injection Hvs as Hv Hvs.
  constructor; [by apply Hc|by apply IH].
Qed.

(** X7 (preload warms the cache).  Take a call [preload(urls)] made when
    every fetch in flight for a key of [urls] was started by a caching
    call, and let anything happen next short of [clearCache].  Once the
    aggregate [r] that [preload] awaits is fulfilled, its value is the
    array [vs] of what the cache now holds for the keys of [urls], and a
    following [loadMultiple(urls, true)] is fulfilled with [vs] at once,
    without calling the transport. *)
Theorem X7_preload_warms_cache w urls evs x :
  reachable w →
  (∀ k, k ∈ urls → caching_started w k) →
  forallb not_clearing evs = true →
  let r := (loadMultiple urls true w).1 in
  let w2 := run evs (preload urls w).2 in
  state w2 r = Fulfilled x →
  ∃ vs, x = Arr vs ∧
        Forall2 (λ k v, cache w2 !! k = Some v) urls vs ∧
        state (loadMultiple urls true w2).2 (loadMultiple urls true w2).1
        = Fulfilled (Arr vs) ∧
        same_loader w2 (loadMultiple urls true w2).2.
Proof.
  intros Hwf%reachable_wf Hcs Hevs r w2 Hr.
  destruct (preload_unfold urls w Hwf) as (_ & _ & E0).
  destruct (preload_spec urls w Hwf) as (Hwf1 & _).
  destruct (loadMultiple_promises urls true w Hwf) as (_ & Hlater).
  pose proof (preload_warm urls w Hwf Hcs) as Hwarm.
  fold r in Hlater.
  assert (Hwf2 : wf w2) by by apply wf_run.
  assert (E2 : evolves (preload urls w).2 w2) by by apply evolves_run.
  destruct (Hlater w2 Hwf2 (evolves_trans _ _ _ E0 E2)) as [_ Hall].
  rewrite Hr in Hall. destruct Hall as (vs & -> & Hvs).
  exists vs. split; [done|].
  assert (Hcache : Forall2 (λ k v, cache w2 !! k = Some v) urls vs).
  { assert (Hw2 : Forall2 (warm w2) urls (map_loadData urls true w).1).
    { eapply Forall2_impl; [exact Hwarm|]. intros k i Hki.
      by apply warm_run. }
    by eapply warm_values. }
  split; [done|].
  destruct (loadMultiple_all_cached urls vs w2 Hcache) as (Hs & Hsame & _).
  done.
Qed.

Lemma X7_preload_warms_cache_witness :
  let w := run [Call_loadData "a" true] init in
  let urls := ["a"; "b"] in
  let evs := [Transport 0 (ok_json (Num 1)); Call_loadData "b" false;
              Transport 3 (ok_json (Num 2))] in
  let w2 := run evs (preload urls w).2 in
  ∃ vs, Arr [Num 1; Num 2] = Arr vs ∧
        Forall2 (λ k v, cache w2 !! k = Some v) urls vs ∧
        state (loadMultiple urls true w2).2 (loadMultiple urls true w2).1
        = Fulfilled (Arr vs) ∧
        same_loader w2 (loadMultiple urls true w2).2.
Proof.
  intros w urls evs w2.
  apply (X7_preload_warms_cache w urls evs (Arr [Num 1; Num 2])).
  - apply reachable_trace.
  - intros k Hk p Hp.
    apply list_elem_of_In in Hk. simpl in Hk.
    destruct Hk as [<-|[<-|[]]]; vm_compute in Hp; [|discriminate].
    injection Hp as <-. vm_compute. reflexivity.
  - reflexivity.
  - vm_compute. reflexivity.
Defined.

(** X10 (a reload fetches only what failed).  After a call [preload(urls)]
    made when every fetch in flight for a key of [urls] was started by a
    caching call, and whatever happens next short of [clearCache], a key of
    [urls] is fetched by a following [loadData(k, true)] or
    [loadMultiple(urls, true)] only if the [loadData] promise that
    [preload] created for it was rejected: every other key is in the cache
    or still in flight. *)
Theorem X10_reload_fetches_failed_only w urls evs k :
  reachable w →
  (∀ k, k ∈ urls → caching_started w k) →
  forallb not_clearing evs = true →
  let ps := (map_loadData urls true w).1 in
  let w2 := run evs (preload urls w).2 in
  k ∈ urls →
  needs_fetch k true w2 = true →
  ∃ n i e, urls !! n = Some k ∧ ps !! n = Some i ∧ state w2 i = Rejected e.
Proof.
  intros Hwf%reachable_wf Hcs Hevs ps w2 Hk Hnf.
  destruct (preload_spec urls w Hwf) as (Hwf1 & _).
  assert (Hwf2 : wf w2) by by apply wf_run.
  assert (Hw2 : Forall2 (warm w2) urls ps).
  { eapply Forall2_impl; [by apply preload_warm|]. intros k' i Hki.
    by apply warm_run. }
  apply list_elem_of_lookup in Hk as [n Hn].
  destruct (Forall2_lookup_l _ _ _ _ _ Hw2 Hn)
    as (i & Hi & (t & Ht & Hcase) & Hc).
  apply needs_fetch_true in Hnf as [Hmiss Hidle].
  exists n, i.
  assert (Hpi : promises w2 !! i = Some (state w2 i, t))
    by by apply promises_lookup_iff.
  destruct (state w2 i) as [|v|e] eqn:Hs.
  - destruct Hcase as [->|(p & Hw & _)].
    { by destruct (wf_local _ Hwf2 _ _ _ Hpi) as (? & ? & ? & _). }
    pose proof (waits_on_local _ _ _ _ _ _ _ Hwf2 Hpi Hw) as Hf.
    apply (wf_marker _ Hwf2) in Hf. congruence.
  - unfold served_from_cache in Hmiss. rewrite (Hc v eq_refl) in Hmiss.
    done.
  - by exists e.
Qed.

Lemma X10_reload_fetches_failed_only_witness :
  let urls := ["a"; "b"] in
  let evs := [Transport 2 not_found; Transport 0 (ok_json (Num 1))] in
  let ps := (map_loadData urls true init).1 in
  let w2 := run evs (preload urls init).2 in
  ∃ n i e, urls !! n = Some "b" ∧ ps !! n = Some i ∧ state w2 i = Rejected e.
Proof.
  intros urls evs.
  apply (X10_reload_fetches_failed_only init urls evs "b").
  - apply (reachable_trace []).
  - intros k _ p Hp. vm_compute in Hp. discriminate.
  - reflexivity.
  - right. left.
  - vm_compute. reflexivity.
Defined.

(** ** loadAllData *)

Lemma loads_resources w urls ps : ∀ vs,
  wf w →
  Forall2 (loads w) urls ps →
  Forall2 (λ p x, state w p = Fulfilled x) ps vs →
  Forall2 (resource w) urls vs.
Proof.
  intros vs Hwf Hps. revert vs.
  induction Hps as [|k i urls' ps' Hki _ IH]; intros vs Hst.
  - inversion Hst. constructor.
  - inversion Hst as [|? v ? vs' Hv Hst']; subst.
    constructor; [by eapply loads_resource|by apply IH].
Qed.

Lemma loadMultiple_values urls useCache w w2 x :
  wf w → wf w2 → evolves (loadMultiple urls useCache w).2 w2 →
  state w2 (loadMultiple urls useCache w).1 = Fulfilled x →
  ∃ vs, x = Arr vs ∧ Forall2 (resource w2) urls vs.
Proof.
  intros Hwf Hwf2 E Hx.
  destruct (loadMultiple_promises urls useCache w Hwf) as (_ & Hlater).
  destruct (Hlater w2 Hwf2 E) as [Hps Hall].
  rewrite Hx in Hall. destruct Hall as (vs & -> & Hvs).
  exists vs. split; [done|].
  apply fmap_eq_Forall2 in Hvs. by eapply loads_resources.
Qed.

Lemma truthy_or_else a b : truthy b = true → truthy (or_else a b) = true.
Proof. intros Hb. unfold or_else. by destruct (truthy a) eqn:Ha. Qed.

(** X11 (the globals after loadAllData).  After a call of [loadAllData],
    whatever happens next: if the awaited promise [r] is fulfilled, its
    value is an array of four values delivered by the transport for
    [data/projects.json], [data/skills.json], [data/education.json] and
    [data/experience.json], in this order; each global receives its own
    file's value, or its empty default when that value is falsy
    ([null], [false], [0], the empty string), so none of the four globals
    is falsy afterwards.  If [r] is rejected, [loadAllData] throws the same
    error and assigns nothing. *)
Theorem X11_loadAllData_globals w evs g :
  reachable w →
  let r := (loadAllData w).1 in
  let w2 := run evs (loadAllData w).2 in
  (∀ x, state w2 r = Fulfilled x →
     ∃ p s e j,
       x = Arr [p; s; e; j] ∧
       resource w2 "data/projects.json" p ∧
       resource w2 "data/skills.json" s ∧
       resource w2 "data/education.json" e ∧
       resource w2 "data/experience.json" j ∧
       ∃ g',
         loadAllData_resumes (state w2 r) g
         = Returns g' [ConsoleLog "Portfolio data loaded successfully"] ∧
         projects g' = (if truthy p then p else Arr []) ∧
         skills g' = (if truthy s then s else Obj []) ∧
         education g' = (if truthy e then e else Arr []) ∧
         jobExperiences g' = (if truthy j then j else Arr []) ∧
         truthy (projects g') = true ∧ truthy (skills g') = true ∧
         truthy (education g') = true ∧
         truthy (jobExperiences g') = true) ∧
  (∀ err, state w2 r = Rejected err →
     loadAllData_resumes (state w2 r) g = Throws err) ∧
  ConsoleLog "Loading portfolio data..." ∈ console w2.
Proof.
  intros Hwf%reachable_wf r w2.
  set (w0 := log [ConsoleLog "Loading portfolio data..."] w).
  assert (Hwf0 : wf w0) by by apply wf_log.
  destruct (loadMultiple_spec DATA_URLS true w0 Hwf0) as (Hwf1 & E1 & _).
  assert (Hwf2 : wf w2) by by apply wf_run.
  assert (E2 : evolves (loadAllData w).2 w2) by by apply evolves_run.
  split; [|split].
  - intros x Hx.
    destruct (loadMultiple_values DATA_URLS true w0 w2 x Hwf0 Hwf2 E2 Hx)
      as (vs & -> & Hvs).
    unfold DATA_URLS in Hvs.
    apply Forall2_cons_inv_l in Hvs as (p & vs1 & Hp & Hvs1 & E0).
    apply Forall2_cons_inv_l in Hvs1 as (s & vs2 & Hs & Hvs2 & E3).
    apply Forall2_cons_inv_l in Hvs2 as (e & vs3 & He & Hvs3 & E4).
    apply Forall2_cons_inv_l in Hvs3 as (j & vs4 & Hj & Hvs4 & E5).
    apply Forall2_nil_inv_l in Hvs4. subst vs4 vs3 vs2 vs1 vs.
    exists p, s, e, j. do 5 (split; [done|]).
    rewrite Hx. simpl. eexists. split; [done|]. simpl.
    do 4 (split; [done|]).
    repeat split; by apply truthy_or_else.
  - intros err Herr. by rewrite Herr.
  - apply (ev_console _ _ E2), (ev_console _ _ E1).
    simpl. apply elem_of_app. right. left.
Qed.

Lemma X11_loadAllData_globals_witness :
  let evs := [Transport 0 (ok_json (Arr [Num 1])); Transport 2 (ok_json Null);
              Transport 4 (ok_json (Num 0)); Transport 6 (ok_json (Str "x"))] in
  let r := (loadAllData init).1 in
  let w2 := run evs (loadAllData init).2 in
  ∃ g', loadAllData_resumes (state w2 r) globals0
        = Returns g' [ConsoleLog "Portfolio data loaded successfully"] ∧
        projects g' = Arr [Num 1] ∧ skills g' = Obj [] ∧
        education g' = Arr [] ∧ jobExperiences g' = Str "x".
Proof.
  intros evs r w2.
  destruct (X11_loadAllData_globals init evs globals0 (reachable_trace []))
    as (H & _ & _).
  destruct (H (Arr [Arr [Num 1]; Null; Num 0; Str "x"]))
    as (p & s & e & j & Hx & _ & _ & _ & _ & g' & Hg & Hp & Hs & He & Hj & _).
  { vm_compute. reflexivity. }
  injection Hx as <- <- <- <-.
  exists g'. split; [exact Hg|]. split; [exact Hp|]. split; [exact Hs|].
  split; [exact He|exact Hj].
Defined.

(** ** The page's initialisation (lines 422-433) *)

Lemma transport_fetched w p t :
  wf w → fetched (transport_settles p t w) = fetched w.
Proof.
  intros Hwf.
  destruct (promises w !! p) as [[[] []]|] eqn:Hp;
    try (rewrite transport_settles_idle; [done|]; intros k'; by rewrite Hp).
  apply (wf_marker _ Hwf) in Hp.
  by destruct (transport_settles_spec w url p t Hwf Hp)
    as (_ & _ & _ & _ & _ & _ & ? & _).
Qed.

Lemma run_transport_fetched evs : ∀ w,
  wf w → forallb is_transport evs = true → fetched (run evs w) = fetched w.
Proof.
  induction evs as [|ev evs IH]; intros w Hwf Hq; [done|].
  simpl in Hq. apply andb_true_iff in Hq as [Hev Hq]. simpl.
  rewrite IH by (by apply wf_step || done).
  destruct ev; try done. by apply transport_fetched.
Qed.

Lemma is_transport_not_clearing evs :
  forallb is_transport evs = true → forallb not_clearing evs = true.
Proof.
  induction evs as [|ev evs IH]; [done|]. simpl.
  rewrite !andb_true_iff. intros [Hev Hq]. split; [by destruct ev|by apply IH].
Qed.

(** X12 (what the initialisation fetches).  On a fresh page the handler
    calls [preload] for the four data files and, once that promise has
    settled, [loadAllData]; in between, only the transport acts on the
    loader.  If the aggregate [r] of the preload was fulfilled, the promise
    [loadAllData] awaits is fulfilled at once with the same array, and the
    whole initialisation has called [fetch] exactly once per file.
    Otherwise [loadAllData] fetches again, and no file is fetched more than
    twice. *)
Theorem X12_initialisation_fetches evs :
  forallb is_transport evs = true →
  let r := (loadMultiple DATA_URLS true init).1 in
  let w2 := run evs (preload DATA_URLS init).2 in
  let r' := (loadAllData w2).1 in
  let w3 := (loadAllData w2).2 in
  (∀ x, state w2 r = Fulfilled x →
        state w3 r' = Fulfilled x ∧ fetched w3 = DATA_URLS) ∧
  (∀ k, invocations k w3 ≤ 2).
Proof.
  intros Hevs r w2 r' w3.
  pose proof wf_init as Hwf.
  destruct (preload_spec DATA_URLS init Hwf) as (Hwf1 & _).
  assert (Hwf2 : wf w2) by by apply wf_run.
  set (w2' := log [ConsoleLog "Loading portfolio data..."] w2).
  assert (Hwf2' : wf w2') by by apply wf_log.
  assert (Hf2 : fetched w2 = DATA_URLS).
  { unfold w2. by rewrite run_transport_fetched. }
  split.
  - intros x Hx.
    destruct (preload_unfold DATA_URLS init Hwf) as (_ & _ & E0).
    destruct (loadMultiple_promises DATA_URLS true init Hwf) as (_ & Hlater).
    assert (E2 : evolves (preload DATA_URLS init).2 w2)
      by by apply evolves_run.
    destruct (Hlater w2 Hwf2 (evolves_trans _ _ _ E0 E2)) as [_ Hall].
    fold r in Hall. rewrite Hx in Hall. destruct Hall as (vs & -> & Hvs).
    assert (Hcache : Forall2 (λ k v, cache w2' !! k = Some v) DATA_URLS vs).
    { eapply (warm_values w2); [|exact Hvs].
      eapply Forall2_impl.
      - apply preload_warm; [done|]. intros k _ p Hp. done.
      - intros k i Hki. apply warm_run; [done..|].
        by apply is_transport_not_clearing. }
    destruct (loadMultiple_all_cached DATA_URLS vs w2' Hcache)
      as (Hs & (_ & _ & Hf) & _).
    split; [exact Hs|]. unfold w3, loadAllData. fold w2'. by rewrite Hf.
  - intros k. unfold w3, loadAllData. fold w2'.
    rewrite loadMultiple_invocations by done.
    assert (Hk : invocations k w2' ≤ 1).
    { unfold invocations.
      replace (fetched w2') with DATA_URLS by done.
      unfold DATA_URLS.
      repeat (rewrite filter_cons; case_decide; simplify_eq);
        rewrite ?filter_nil; simpl; lia. }
    destruct (_ && _); lia.
Qed.

Lemma X12_initialisation_fetches_witness :
  let evs := [Transport 4 (ok_json (Arr [])); Transport 0 (ok_json (Arr []));
              Transport 6 (ok_json (Arr [])); Transport 2 (ok_json (Obj []))] in
  let w2 := run evs (preload DATA_URLS init).2 in
  state (loadAllData w2).2 (loadAllData w2).1
  = Fulfilled (Arr [Arr []; Obj []; Arr []; Arr []]) ∧
  fetched (loadAllData w2).2 = DATA_URLS ∧
  invocations "data/skills.json"
    (loadAllData (run [Transport 2 not_found] (preload DATA_URLS init).2)).2
  ≤ 2.
Proof.
  intros evs w2.
  destruct (X12_initialisation_fetches evs eq_refl) as [H _].
  destruct (H (Arr [Arr []; Obj []; Arr []; Arr []])) as [Hs Hf].
  { vm_compute. reflexivity. }
  split; [exact Hs|]. split; [exact Hf|].
  exact (proj2 (X12_initialisation_fetches [Transport 2 not_found] eq_refl)
           "data/skills.json").
Defined.

(** * Arrow keys in the mobile menu *)

Lemma indexOf_lookup {A} `{EqDecision A} (l : list A) i a :
  NoDup l → l !! i = Some a → indexOf l a = Z.of_nat i.
Proof.
  intros Hnd Hi. unfold indexOf.
  destruct (list_find (λ y, y = a) l) as [[j y]|] eqn:Hf.
  - apply list_find_Some in Hf as (Hj & -> & _).
    by rewrite (NoDup_lookup _ _ _ _ Hnd Hi Hj).
  - apply list_find_None in Hf.
    rewrite Forall_forall in Hf. destruct (Hf a); [|done].
    by eapply list_elem_of_lookup_2.
Qed.

Lemma indexOf_absent {A} `{EqDecision A} (l : list A) a :
  a ∉ l → indexOf l a = (-1)%Z.
Proof.
  intros Ha. unfold indexOf.
  destruct (list_find (λ y, y = a) l) as [[j y]|] eqn:Hf; [|done].
  apply list_find_Some in Hf as (Hj & -> & _).
  destruct Ha. by eapply list_elem_of_lookup_2.
Qed.

Lemma item_of_nat {A} (l : list A) (i : nat) : item l (Z.of_nat i) = l !! i.
Proof.
  unfold item. destruct (Z.ltb_spec (Z.of_nat i) 0); [lia|].
  by rewrite Nat2Z.id.
Qed.

Lemma arrow_focus_at {A} `{EqDecision A} (l : list A) i a :
  NoDup l → l !! i = Some a →
  arrow_focus ArrowDown l a = l !! (S i mod length l) ∧
  arrow_focus ArrowUp l a = l !! ((i + length l - 1) mod length l).
Proof.
  intros Hnd Hi. pose proof (lookup_lt_Some _ _ _ Hi) as Hlt.
  unfold arrow_focus. rewrite (indexOf_lookup _ _ _ Hnd Hi).
  unfold nextIndex. split.
  - destruct (Z.ltb_spec (Z.of_nat i) (Z.of_nat (length l) - 1)).
    + replace (Z.of_nat i + 1)%Z with (Z.of_nat (S i)) by lia.
      rewrite item_of_nat. by rewrite Nat.mod_small by lia.
    + replace (S i) with (length l) by lia.
      rewrite Nat.Div0.mod_same. apply (item_of_nat l 0).
  - destruct (Z.ltb_spec 0 (Z.of_nat i)).
    + replace (Z.of_nat i - 1)%Z with (Z.of_nat (i - 1)) by lia.
      rewrite item_of_nat.
      replace (i + length l - 1) with (i - 1 + 1 * length l) by lia.
      rewrite Nat.Div0.mod_add. by rewrite Nat.mod_small by lia.
    + replace (Z.of_nat (length l) - 1)%Z
        with (Z.of_nat (length l - 1)) by lia.
      rewrite item_of_nat. replace i with 0 by lia.
      by rewrite Nat.mod_small by lia.
Qed.

(** X14 (arrow keys cycle through the links).  With the menu open and the
    [.nav-link] elements [navLinks] (distinct elements):
    - the handler throws, at [navLinks[nextIndex].focus()], exactly when
      there is no link;
    - when the focus is on the i-th link, ArrowDown moves it to the next
      link and from the last link to the first, ArrowUp to the previous
      link and from the first link to the last;
    - when the focus is elsewhere, ArrowDown moves it to the first link and
      ArrowUp to the last;
    - ArrowUp undoes ArrowDown and ArrowDown undoes ArrowUp. *)
Theorem X14_arrow_keys_cycle {A} `{EqDecision A} (navLinks : list A)
  (activeElement : A) :
  NoDup navLinks →
  (∀ key, arrow_focus key navLinks activeElement = None ↔ navLinks = []) ∧
  (∀ i, navLinks !! i = Some activeElement →
        arrow_focus ArrowDown navLinks activeElement
        = navLinks !! (S i mod length navLinks) ∧
        arrow_focus ArrowUp navLinks activeElement
        = navLinks !! ((i + length navLinks - 1) mod length navLinks)) ∧
  (activeElement ∉ navLinks →
   arrow_focus ArrowDown navLinks activeElement = head navLinks ∧
   arrow_focus ArrowUp navLinks activeElement = last navLinks) ∧
  (activeElement ∈ navLinks →
   ∀ b, (arrow_focus ArrowDown navLinks activeElement = Some b →
         arrow_focus ArrowUp navLinks b = Some activeElement) ∧
        (arrow_focus ArrowUp navLinks activeElement = Some b →
         arrow_focus ArrowDown navLinks b = Some activeElement)).
Proof.
  intros Hnd.
  assert (Habsent : activeElement ∉ navLinks →
            arrow_focus ArrowDown navLinks activeElement = head navLinks ∧
            arrow_focus ArrowUp navLinks activeElement = last navLinks).
  { intros Ha. unfold arrow_focus. rewrite (indexOf_absent _ _ Ha).
    unfold nextIndex. split.
    - destruct (Z.ltb_spec (-1) (Z.of_nat (length navLinks) - 1)).
      + rewrite (item_of_nat _ 0). by destruct navLinks.
      + destruct navLinks; [done|]. simpl in *. lia.
    - simpl. rewrite last_lookup. destruct navLinks as [|x l]; [done|].
      replace (Z.of_nat (length (x :: l)) - 1)%Z
        with (Z.of_nat (length l)) by (simpl; lia).
      by rewrite item_of_nat. }
  split; [|split; [|split]].
  - intros key. split.
    + intros Hnone. destruct navLinks as [|x l]; [done|]. exfalso.
      destruct (decide (activeElement ∈ x :: l)) as [Hin|Hout].
      * apply list_elem_of_lookup in Hin as [i Hi].
        pose proof (lookup_lt_Some _ _ _ Hi) as Hlt.
        destruct (arrow_focus_at _ _ _ Hnd Hi) as [Hd Hu].
        assert (Hn : length (x :: l) ≠ 0) by (simpl; lia).
        destruct key.
        -- rewrite Hd in Hnone. apply lookup_ge_None in Hnone.
           pose proof (Nat.mod_upper_bound (S i) _ Hn). lia.
        -- rewrite Hu in Hnone. apply lookup_ge_None in Hnone.
           pose proof (Nat.mod_upper_bound (i + length (x :: l) - 1) _ Hn).
           lia.
      * destruct (Habsent Hout) as [Hd Hu]. destruct key.
        -- by rewrite Hd in Hnone.
        -- rewrite Hu, last_lookup in Hnone.
           apply lookup_ge_None in Hnone. simpl in Hnone. lia.
    + intros ->. by destruct key.
  - intros i Hi. by apply arrow_focus_at.
  - done.
  - intros Hin b. apply list_elem_of_lookup in Hin as [i Hi].
    pose proof (lookup_lt_Some _ _ _ Hi) as Hlt.
    destruct (arrow_focus_at _ _ _ Hnd Hi) as [Hd Hu].
    assert (Hn : length navLinks ≠ 0) by lia.
    split; intros Hb.
    + rewrite Hd in Hb.
      destruct (arrow_focus_at _ _ _ Hnd Hb) as [_ ->]. rewrite <- Hi.
      f_equal. destruct (decide (S i = length navLinks)) as [He|He].
      * rewrite He, Nat.Div0.mod_same. simpl.
        replace (length navLinks - 1) with i by lia.
        by apply Nat.mod_small.
      * rewrite (Nat.mod_small (S i)) by lia.
        replace (S i + length navLinks - 1)
          with (i + 1 * length navLinks) by lia.
        rewrite Nat.Div0.mod_add. by apply Nat.mod_small.
    + rewrite Hu in Hb.
      destruct (arrow_focus_at _ _ _ Hnd Hb) as [-> _]. rewrite <- Hi.
      f_equal. destruct (decide (i = 0)) as [->|He].
      * simpl. rewrite (Nat.mod_small (length navLinks - 1)) by lia.
        replace (S (length navLinks - 1)) with (length navLinks) by lia.
        apply Nat.Div0.mod_same.
      * replace (i + length navLinks - 1)
          with (i - 1 + 1 * length navLinks) by lia.
        rewrite Nat.Div0.mod_add. rewrite (Nat.mod_small (i - 1)) by lia.
        replace (S (i - 1)) with i by lia. by apply Nat.mod_small.
Qed.

Lemma X14_arrow_keys_cycle_witness :
  arrow_focus ArrowDown ["home"; "about"; "projects"] "projects"
  = Some "home" ∧
  arrow_focus ArrowUp ["home"; "about"; "projects"] "body" = Some "projects".
Proof.
  assert (Hnd : NoDup ["home"; "about"; "projects"]).
  { apply (bool_decide_unpack _). vm_compute. exact I. }
  split.
  - destruct (X14_arrow_keys_cycle ["home"; "about"; "projects"] "projects"
                Hnd) as (_ & H & _).
    exact (proj1 (H 2 eq_refl)).
  - destruct (X14_arrow_keys_cycle ["home"; "about"; "projects"] "body" Hnd)
      as (_ & _ & H & _).
    apply H. apply (bool_decide_unpack _). vm_compute. exact I.
Defined.

(** * throttle *)




Example throttle_drops_burst :
  applied (foldl (throttle_step 16) throttle
             [Invoked 0 "a"; Invoked 5 "b"; TimerFires 20 0; Invoked 1 "c"])
  = [(0, "a"); (26, "c")].
Proof. reflexivity. Qed.


(** * debounce *)




Example debounce_delivers_last :
  called (foldl (debounce_step 250) debounce
            [Invoked 0 "a"; Invoked 10 "b"; TimerFires 245 0;
             TimerFires 5 1])
  = [(260, "b")].
Proof. reflexivity. Qed.

